(** * ULAC: a shallow embedding of the construction engine

    The development follows [src/ulac/construction.py] and
    [src/ulac/construction_base.py].  NumPy arrays are lists, [float64]
    values are Rocq's primitive binary64 floats (so every arithmetic step
    rounds as the program's does), Python exceptions are an explicit
    result type, and the nested dictionaries of the artifact store are
    finite maps. *)

From Stdlib Require Import Floats ZArith Lia Bool Sorting.Sorted.
From stdpp Require Import gmap strings list relations sorting.
From Equations Require Import Equations.

Set Default Proof Using "Type".
Set Warnings "-inexact-float,-register-all".

(** ** Python outcomes *)

Module Py.

Inductive exn : Type :=
| KeyError
| IndexError
| TypeError
| ValueError.

Inductive result (A : Type) : Type :=
| Ok (a : A)
| Raise (e : exn).

Arguments Ok {A} a.
Arguments Raise {A} e.

Definition bind {A B} (r : result A) (k : A → result B) : result B :=
  match r with
  | Ok a => k a
  | Raise e => Raise e
  end.

Definition of_option {A} (o : option A) (e : exn) : result A :=
  match o with
  | Some a => Ok a
  | None => Raise e
  end.

#[global] Instance result_ret : MRet result := @Ok.
#[global] Instance result_bind : MBind result := fun A B k r => bind r k.

Lemma bind_Ok {A B} (r : result A) (k : A → result B) (b : B) :
  (r ≫= k) = Ok b → ∃ a, r = Ok a ∧ k a = Ok b.
Proof. destruct r as [a|e]; [|done]. intros H. by exists a. Qed.

Lemma mapM_Ok {A B} (f : A → result B) (l : list A) (k : list B) :
  mapM f l = Ok k →
  length k = length l ∧ ∀ i x, l !! i = Some x → ∃ y, k !! i = Some y ∧ f x = Ok y.
Proof.
  revert k. induction l as [|x l IH]; intros k H.
  - inversion H; subst. split; [done|]. intros i x Hx. by rewrite lookup_nil in Hx.
  - cbn [mapM] in H. apply bind_Ok in H as (y & Hy & H).
    apply bind_Ok in H as (k' & Hk' & H). inversion H; subst.
    destruct (IH k' Hk') as [Hlen Hl]. split; [simpl; lia|].
    intros [|i] x' Hx'; simpl in *.
    + inversion Hx'; subst. by exists y.
    + by apply Hl.
Qed.

End Py.

Import Py.

(** ** The artifact store: nested dictionaries keyed by name sequences *)

Module Store.

(** What a slot of a store can hold: [None] before the producing stage has
    run, a marker (an [int]), a NumPy array, a dataclass instance, or a
    nested dictionary. *)
Inductive value : Type :=
| VNone
| VInt (n : Z)
| VArray (a : list Z)
| VObject (tag : string)
| VDict (d : gmap string value).

(** [operator.getitem obj key] for a string key. *)
Definition getitem (obj : value) (key : string) : result value :=
  match obj with
  | VDict d => of_option (d !! key) KeyError
  | VArray _ => Raise IndexError
  | VNone | VInt _ | VObject _ => Raise TypeError
  end.

(** [reduce(operator.getitem, key_sequence, data_dict)]. *)
Fixpoint reduce_getitem (key_sequence : list string) (data_dict : value) : result value :=
  match key_sequence with
  | [] => Ok data_dict
  | k :: ks => v ← getitem data_dict k; reduce_getitem ks v
  end.

(** [get_dict_entry]: the handler re-raises a [KeyError] as a [KeyError];
    any other exception propagates. *)
Definition get_dict_entry (key_sequence : list string) (data_dict : value) : result value :=
  reduce_getitem key_sequence data_dict.

(** [obj[key] = value]: item assignment on a dictionary inserts or
    overwrites and never raises. *)
Definition setitem (obj : value) (key : string) (v : value) : result value :=
  match obj with
  | VDict d => Ok (VDict (<[key := v]> d))
  | VArray _ => Raise IndexError
  | VNone | VInt _ | VObject _ => Raise TypeError
  end.

(** The store after [reduce(getitem, keys, data_dict)[last] = v]: the
    dictionary reached through [keys] is mutated in place, which on a
    tree-shaped store (the stores are built by [create_empty_dict_from_keys],
    one fresh dictionary per level) is a functional update along the path. *)
Fixpoint assign_at (keys : list string) (last : string) (data_dict v : value) : result value :=
  match keys with
  | [] => setitem data_dict last v
  | k :: ks =>
      sub ← getitem data_dict k;
      sub' ← assign_at ks last sub v;
      setitem data_dict k sub'
  end.

(** [key_sequence[:-1]] and [key_sequence[-1]]; the latter raises
    [IndexError] on an empty sequence. *)
Fixpoint split_last (key_sequence : list string) : option (list string * string) :=
  match key_sequence with
  | [] => None
  | [k] => Some ([], k)
  | k :: ks => '(init, l) ← split_last ks; Some (k :: init, l)
  end.

(** [set_dict_entry]: returns the store as it is after the call. *)
Definition set_dict_entry (key_sequence : list string) (data_dict v : value) : result value :=
  match split_last key_sequence with
  | None => Raise IndexError
  | Some (init, l) => assign_at init l data_dict v
  end.

(** The state of the store once [set_dict_entry] has returned or raised:
    a raised exception leaves the dictionaries as they were. *)
Definition store_after (key_sequence : list string) (data_dict v : value) : value :=
  match set_dict_entry key_sequence data_dict v with
  | Ok d' => d'
  | Raise _ => data_dict
  end.

(** A leaf of the store: a key sequence that reaches a value that is not a
    dictionary. *)
Definition is_dict (v : value) : bool :=
  match v with VDict _ => true | _ => false end.

Definition leaf_at (key_sequence : list string) (data_dict : value) (x : value) : Prop :=
  get_dict_entry key_sequence data_dict = Ok x ∧ is_dict x = false.

(** [create_empty_dict_from_keys] is the identity on the key structure and
    puts [None] in every leaf; on a configuration given as a finite tree of
    key sequences it is the store in which every leaf is [VNone]. *)
Definition example_store : value :=
  VDict {[ "roof" := VDict {[ "LIPV_LSPV" := VNone; "LSPV_RSPV" := VArray [4; 9]%Z ]};
           "MV" := VNone ]}.

(** [create_empty_dict_from_keys]: the inner [_create_empty_dict] rebuilds
    every dictionary with the same keys and puts [None] wherever the input
    holds something that is not a dictionary. *)
Fixpoint create_empty_dict_from_keys (input_dict : value) : value :=
  match input_dict with
  | VDict d => VDict (create_empty_dict_from_keys <$> d)
  | _ => VNone
  end.

(** What the loop body of [nested_dict_keys] yields for one item whose key
    has been appended to the prefix already: the key sequences below a
    dictionary, the path itself for anything else. *)
Fixpoint yield_below (value : value) (path : list string) : list (list string) :=
  match value with
  | VDict d => map_fold (λ key value rest, yield_below value (path ++ [key]) ++ rest) [] d
  | _ => [path]
  end.

(** [nested_dict_keys(d, prefix)]: the key sequences that the generator
    yields.  A [gmap] does not keep the insertion order of a Python
    dictionary, so the list stands for the set of yielded sequences. *)
Definition nested_dict_keys (d : gmap string value) (prefix : list string)
    : list (list string) :=
  yield_below (VDict d) prefix.

(** The nesting depth of a value, by which the key sequences are reasoned
    about. *)
Fixpoint depth (v : value) : nat :=
  match v with
  | VDict d => S (map_fold (λ _ value acc, depth value `max` acc) 0 d)
  | _ => 0
  end.

Lemma split_last_app (init : list string) (l : string) :
  split_last (init ++ [l]) = Some (init, l).
Proof.
  induction init as [|k init IH]; [done|].
  simpl. rewrite IH. by destruct init.
Qed.

Lemma split_last_inv (ks init : list string) (l : string) :
  split_last ks = Some (init, l) → ks = init ++ [l].
Proof.
  revert init. induction ks as [|k ks IH]; intros init H; [done|].
  destruct ks as [|k' ks'].
  - by simplify_eq/=.
  - change (split_last (k :: k' :: ks')) with
      ('(i, l0) ← split_last (k' :: ks'); Some (k :: i, l0)) in H.
    destruct (split_last (k' :: ks')) as [[i0 l0]|] eqn:E; simplify_eq/=.
    f_equal. by apply IH.
Qed.

(** Reading back what [assign_at] wrote. *)
Lemma assign_at_lookup (init : list string) (l : string) (d v d' : value) :
  assign_at init l d v = Ok d' →
  reduce_getitem (init ++ [l]) d' = Ok v.
Proof.
  revert d d'. induction init as [|k init IH]; intros d d' H; simpl in *.
  - destruct d; simpl in H; try done. inversion H; subst. simpl.
    by rewrite lookup_insert_eq.
  - destruct d as [| | | |m]; simpl in H; try done.
    destruct (m !! k) as [sub|] eqn:Ek; simpl in H; [|done].
    destruct (assign_at init l sub v) as [sub'|] eqn:Es; simpl in H; [|done].
    inversion H; subst. simpl. rewrite lookup_insert_eq. simpl. by eapply IH.
Qed.

(** A write reaches only the path it is given: a leaf whose key sequence
    does not extend the written one reads the same before and after. *)
Lemma assign_at_frame (init : list string) (l : string) (d v d' : value)
    (ks' : list string) (x : value) :
  assign_at init l d v = Ok d' →
  reduce_getitem ks' d = Ok x →
  is_dict x = false →
  ¬ (init ++ [l]) `prefix_of` ks' →
  reduce_getitem ks' d' = Ok x.
Proof.
  revert d d' ks'. induction init as [|k init IH]; intros d d' ks' H G L N; simpl in *.
  - destruct d as [| | | |m]; simpl in H; try done. inversion H; subst.
    destruct ks' as [|k' ks']; simpl in *.
    + inversion G; subst. done.
    + destruct (decide (l = k')) as [->|Hne].
      * exfalso. apply N. exists ks'. done.
      * by rewrite lookup_insert_ne.
  - destruct d as [| | | |m]; simpl in H; try done.
    destruct (m !! k) as [sub|] eqn:Ek; simpl in H; [|done].
    destruct (assign_at init l sub v) as [sub'|] eqn:Es; simpl in H; [|done].
    inversion H; subst.
    destruct ks' as [|k' ks']; simpl in *.
    + inversion G; subst. done.
    + destruct (decide (k = k')) as [->|Hne].
      * rewrite lookup_insert_eq. rewrite Ek in G. simpl in *.
        eapply IH; eauto. intros [r Hr]. apply N. exists r. simpl. by rewrite Hr.
      * by rewrite lookup_insert_ne.
Qed.

(** Frame property of [set_dict_entry]: after a successful write at
    [key_sequence], the written value is read back there, and every leaf whose
    key sequence does not extend [key_sequence] reads the same as before. *)
Theorem set_dict_entry_frame (key_sequence ks' : list string) (d v d' x : value) :
  set_dict_entry key_sequence d v = Ok d' →
  leaf_at ks' d x →
  ¬ key_sequence `prefix_of` ks' →
  get_dict_entry key_sequence d' = Ok v ∧ leaf_at ks' d' x.
Proof.
  unfold set_dict_entry, leaf_at, get_dict_entry. intros H [G L] N.
  destruct (split_last key_sequence) as [[init l]|] eqn:E; [|done].
  apply split_last_inv in E. subst key_sequence. split.
  - by eapply assign_at_lookup.
  - split; [|done]. by eapply assign_at_frame.
Qed.

Lemma set_dict_entry_frame_witness :
  get_dict_entry ["roof"; "LIPV_LSPV"]
    (store_after ["roof"; "LIPV_LSPV"] example_store (VArray [1; 2]%Z)) = Ok (VArray [1; 2]%Z)
  ∧ leaf_at ["roof"; "LSPV_RSPV"]
      (store_after ["roof"; "LIPV_LSPV"] example_store (VArray [1; 2]%Z)) (VArray [4; 9]%Z).
Proof.
  apply (set_dict_entry_frame ["roof"; "LIPV_LSPV"] ["roof"; "LSPV_RSPV"] example_store).
  - reflexivity.
  - split; reflexivity.
  - intros [r Hr]. discriminate Hr.
Defined.

(** C10 (the failing input): the key sequence [("roof", "RSPV_RIPV")] is
    absent from the store (reading it raises [KeyError]), yet
    [set_dict_entry] raises nothing and creates the entry, so the store is
    not left unchanged. *)
Theorem set_dict_entry_creates_absent_key :
  get_dict_entry ["roof"; "RSPV_RIPV"] example_store = Raise KeyError
  ∧ set_dict_entry ["roof"; "RSPV_RIPV"] example_store (VInt 7)
    = Ok (VDict {[ "roof" := VDict {[ "LIPV_LSPV" := VNone; "LSPV_RSPV" := VArray [4; 9]%Z;
                                       "RSPV_RIPV" := VInt 7 ]};
                   "MV" := VNone ]})
  ∧ get_dict_entry ["roof"; "RSPV_RIPV"]
      (store_after ["roof"; "RSPV_RIPV"] example_store (VInt 7)) = Ok (VInt 7).
Proof.
  split; [reflexivity|]. split; [|reflexivity].
  vm_compute. reflexivity.
Qed.

(** When a key before the last one is absent, [set_dict_entry] does raise
    [KeyError], and nothing is written. *)
Lemma set_dict_entry_absent_prefix :
  set_dict_entry ["anchor"; "LAA_MV"] example_store (VInt 7) = Raise KeyError
  ∧ store_after ["anchor"; "LAA_MV"] example_store (VInt 7) = example_store.
Proof. split; reflexivity. Qed.

(** *** The key sequences of a store *)

Lemma elem_of_map_fold_app {A} (f : string → value → list A) (d : gmap string value) (x : A) :
  x ∈ map_fold (λ key value rest, f key value ++ rest) [] d ↔
  ∃ key value, d !! key = Some value ∧ x ∈ f key value.
Proof.
  induction d as [|k v d Hk Hfold IH] using map_first_key_ind.
  - rewrite map_fold_empty, elem_of_nil. split; [done|].
    intros (key & value & H & _). by rewrite lookup_empty in H.
  - rewrite map_fold_insert_first_key by done. rewrite elem_of_app, IH. split.
    + intros [H|(key & value & Hl & H)].
      * exists k, v. by rewrite lookup_insert_eq.
      * exists key, value. split; [|done]. rewrite lookup_insert_ne; [done|].
        intros ->. congruence.
    + intros (key & value & Hl & H). destruct (decide (key = k)) as [->|Hne].
      * rewrite lookup_insert_eq in Hl. injection Hl as <-. by left.
      * rewrite lookup_insert_ne in Hl by done. right. by exists key, value.
Qed.

Lemma depth_lookup (d : gmap string value) (key : string) (v : value) :
  d !! key = Some v → depth v < depth (VDict d).
Proof.
  cbn [depth]. induction d as [|k x d Hk Hfold IH] using map_first_key_ind.
  - by rewrite lookup_empty.
  - rewrite map_fold_insert_first_key by done. intros H.
    destruct (decide (key = k)) as [->|Hne].
    + rewrite lookup_insert_eq in H. injection H as <-. lia.
    + rewrite lookup_insert_ne in H by done. specialize (IH H). lia.
Qed.

(** A sequence is yielded below a value exactly when it extends the path by
    keys that lead to something that is not a dictionary. *)
Lemma elem_of_yield_below (v : value) (path ks : list string) :
  ks ∈ yield_below v path ↔
  ∃ rest x, ks = path ++ rest ∧ reduce_getitem rest v = Ok x ∧ is_dict x = false.
Proof.
  remember (depth v) as n eqn:Hn. revert v path Hn.
  induction n as [n IH] using lt_wf_ind. intros v path ->.
  destruct v as [| | | |d].
  1-4: cbn [yield_below]; rewrite list_elem_of_singleton; split;
    [ intros ->; eexists [], _; by rewrite app_nil_r
    | intros ([|k rest] & x & -> & H & _); [by rewrite app_nil_r|done] ].
  cbn [yield_below]. rewrite elem_of_map_fold_app. split.
  - intros (key & sub & Hl & H).
    apply (IH (depth sub) (depth_lookup _ _ _ Hl) sub _ eq_refl) in H
      as (rest & x & -> & Hr & Hx).
    exists (key :: rest), x. rewrite <- app_assoc. split_and!; [done| |done].
    cbn [reduce_getitem getitem]. by rewrite Hl.
  - intros ([|key rest] & x & -> & H & Hx).
    + cbn in H. injection H as <-. done.
    + cbn [reduce_getitem getitem] in H.
      destruct (d !! key) as [sub|] eqn:Hl; [|done]. cbn in H.
      exists key, sub. split; [done|].
      apply (IH (depth sub) (depth_lookup _ _ _ Hl) sub _ eq_refl).
      exists rest, x. by rewrite <- app_assoc.
Qed.

Lemma elem_of_nested_dict_keys (d : gmap string value) (ks : list string) :
  ks ∈ nested_dict_keys d [] ↔ ∃ x, leaf_at ks (VDict d) x.
Proof.
  unfold nested_dict_keys, leaf_at, get_dict_entry. rewrite elem_of_yield_below. split.
  - intros (rest & x & -> & H & Hx). by exists x.
  - intros (x & H & Hx). by exists ks, x.
Qed.

(** [nested_dict_keys] yields exactly the key sequences under which
    [get_dict_entry] finds something that is not a dictionary; none of them
    is empty. *)
Theorem nested_dict_keys_are_the_leaves (d : gmap string value) (ks : list string) :
  ks ∈ nested_dict_keys d [] ↔
  ks ≠ [] ∧ ∃ x, get_dict_entry ks (VDict d) = Ok x ∧ is_dict x = false.
Proof.
  rewrite elem_of_nested_dict_keys. unfold leaf_at. split.
  - intros (x & H & Hx). split; [|by exists x].
    intros ->. cbn in H. injection H as <-. done.
  - intros [_ H]. exact H.
Qed.

(** *** The fresh stores *)

Lemma create_empty_leaf (ks : list string) (v x : value) :
  leaf_at ks (create_empty_dict_from_keys v) x ↔ x = VNone ∧ ∃ y, leaf_at ks v y.
Proof.
  unfold leaf_at, get_dict_entry. revert v. induction ks as [|k ks IH]; intros v.
  - cbn [reduce_getitem]. split.
    + intros [H Hx]. injection H as <-.
      destruct v; cbn in Hx |- *; try done; split; try done; by eexists.
    + intros [-> (y & H & Hy)]. injection H as <-. by destruct v.
  - destruct v as [| | | |d]; cbn [create_empty_dict_from_keys reduce_getitem getitem].
    1-4: split; [by intros [? _]|by intros [_ (y & ? & _)]].
    rewrite lookup_fmap. destruct (d !! k) as [sub|]; cbn.
    + apply IH.
    + split; [by intros [? _]|by intros [_ (y & ? & _)]].
Qed.

(** A store made by [create_empty_dict_from_keys] has a leaf exactly at the
    key sequences that [nested_dict_keys] yields for the configuration, and
    every leaf holds [None]. *)
Theorem create_empty_dict_from_keys_leaves (config : gmap string value)
    (ks : list string) (x : value) :
  leaf_at ks (create_empty_dict_from_keys (VDict config)) x ↔
  x = VNone ∧ ks ∈ nested_dict_keys config [].
Proof. by rewrite create_empty_leaf, elem_of_nested_dict_keys. Qed.

(** *** Writing into an existing slot *)

Lemma reduce_getitem_app (ks r : list string) (d : value) :
  reduce_getitem (ks ++ r) d = (reduce_getitem ks d ≫= reduce_getitem r).
Proof.
  revert d. induction ks as [|k ks IH]; intros d; [done|].
  cbn [app reduce_getitem]. destruct (getitem d k) as [sub|e]; [|done]. apply IH.
Qed.

Lemma leaf_has_no_extension (ks r : list string) (d x y : value) :
  reduce_getitem ks d = Ok x → is_dict x = false →
  reduce_getitem (ks ++ r) d = Ok y → r = [].
Proof.
  intros Hx Hleaf H. rewrite reduce_getitem_app, Hx in H. cbn in H.
  destruct r as [|k r]; [done|]. by destruct x.
Qed.

Lemma assign_at_Ok (init : list string) (l : string) (d v x : value) :
  reduce_getitem (init ++ [l]) d = Ok x →
  ∃ d', assign_at init l d v = Ok (VDict d').
Proof.
  revert d. induction init as [|k init IH]; intros d H; cbn [app reduce_getitem] in H.
  - destruct d as [| | | |m]; try done. by eexists.
  - destruct d as [| | | |m]; try done. cbn [assign_at getitem] in H |- *.
    destruct (m !! k) as [sub|]; [|done]. cbn in H |- *.
    destruct (IH sub H) as [sub' ->]. by eexists.
Qed.

Lemma assign_at_frame_back (init : list string) (l : string) (d v d' : value)
    (ks' : list string) (y : value) :
  assign_at init l d v = Ok d' →
  reduce_getitem ks' d' = Ok y →
  is_dict y = false →
  ¬ (init ++ [l]) `prefix_of` ks' →
  reduce_getitem ks' d = Ok y.
Proof.
  revert d d' ks'. induction init as [|k init IH]; intros d d' ks' H G L N.
  - destruct d as [| | | |m]; try done. cbn in H. injection H as <-.
    destruct ks' as [|k' ks']; [cbn in G; injection G as <-; done|].
    cbn [reduce_getitem getitem] in G |- *.
    destruct (decide (l = k')) as [->|Hne].
    + exfalso. apply N. by exists ks'.
    + by rewrite lookup_insert_ne in G.
  - destruct d as [| | | |m]; try done. cbn [assign_at getitem] in H.
    destruct (m !! k) as [sub|] eqn:Ek; [|done]. cbn in H.
    destruct (assign_at init l sub v) as [sub'|] eqn:Es; [|done]. cbn in H.
    injection H as <-.
    destruct ks' as [|k' ks']; [cbn in G; injection G as <-; done|].
    cbn [reduce_getitem getitem] in G |- *.
    destruct (decide (k = k')) as [->|Hne].
    + rewrite lookup_insert_eq in G. rewrite Ek. cbn in G |- *.
      eapply IH; eauto. intros [r Hr]. apply N. exists r. cbn. by rewrite Hr.
    + by rewrite lookup_insert_ne in G.
Qed.

(** Writing a result that is not a dictionary into a slot that exists and
    holds no dictionary succeeds, the result is read back from the slot, and
    the store keeps its key sequences: none is added, none is lost. *)
Theorem set_dict_entry_at_leaf_keeps_keys (d : gmap string value) (ks : list string)
    (x v : value) :
  leaf_at ks (VDict d) x → is_dict v = false →
  ∃ d', set_dict_entry ks (VDict d) v = Ok (VDict d')
        ∧ get_dict_entry ks (VDict d') = Ok v
        ∧ ∀ ks', ks' ∈ nested_dict_keys d' [] ↔ ks' ∈ nested_dict_keys d [].
Proof.
  intros [Hx Hleaf] Hv. unfold get_dict_entry in Hx.
  destruct (decide (ks = [])) as [->|Hne].
  { cbn in Hx. injection Hx as <-. done. }
  destruct (exists_last Hne) as (ks0 & k0 & ->).
  unfold set_dict_entry. rewrite split_last_app.
  destruct (assign_at_Ok ks0 k0 (VDict d) v x Hx) as [d' Hset].
  exists d'. split; [done|]. split; [by eapply assign_at_lookup|].
  pose proof (assign_at_lookup _ _ _ _ _ Hset) as Hread.
  intros ks'. rewrite !elem_of_nested_dict_keys. unfold leaf_at, get_dict_entry.
  destruct (decide ((ks0 ++ [k0]) `prefix_of` ks')) as [[r ->]|Hno].
  - split; intros (y & Hy & Hl).
    + assert (r = []) as -> by exact (leaf_has_no_extension _ r (VDict d') v y Hread Hv Hy).
      rewrite app_nil_r. by exists x.
    + assert (r = []) as -> by exact (leaf_has_no_extension _ r (VDict d) x y Hx Hleaf Hy).
      rewrite app_nil_r. by exists v.
  - split; intros (y & Hy & Hl); exists y; split; try done.
    + by eapply assign_at_frame_back.
    + by eapply assign_at_frame.
Qed.

Lemma set_dict_entry_at_leaf_keeps_keys_witness :
  ∃ d', set_dict_entry ["roof"; "LIPV_LSPV"] example_store (VArray [1; 2]%Z) = Ok (VDict d')
        ∧ get_dict_entry ["roof"; "LIPV_LSPV"] (VDict d') = Ok (VArray [1; 2]%Z)
        ∧ ∀ ks', ks' ∈ nested_dict_keys d' [] ↔
                 ks' ∈ nested_dict_keys
                         {[ "roof" := VDict {[ "LIPV_LSPV" := VNone;
                                               "LSPV_RSPV" := VArray [4; 9]%Z ]};
                            "MV" := VNone ]} [].
Proof.
  apply (set_dict_entry_at_leaf_keeps_keys _ ["roof"; "LIPV_LSPV"] VNone).
  - split; reflexivity.
  - reflexivity.
Defined.

(** *** The error of a failed lookup *)

(** [get_dict_entry] raises [KeyError] exactly when the keys lead to a
    dictionary that lacks the next key; a key sequence that runs into a slot
    holding [None], a marker or an object raises [TypeError] instead. *)
Theorem get_dict_entry_KeyError (key_sequence : list string) (data_dict : value) :
  (get_dict_entry key_sequence data_dict = Raise KeyError ↔
   ∃ found key rest d,
     key_sequence = found ++ key :: rest
     ∧ get_dict_entry found data_dict = Ok (VDict d) ∧ d !! key = None)
  ∧ (get_dict_entry key_sequence data_dict = Raise TypeError ↔
     ∃ found key rest x,
       key_sequence = found ++ key :: rest
       ∧ get_dict_entry found data_dict = Ok x
       ∧ (x = VNone ∨ (∃ n, x = VInt n) ∨ ∃ tag, x = VObject tag)).
Proof.
  unfold get_dict_entry. split.
  - split.
    + revert data_dict. induction key_sequence as [|k ks IH]; intros d H; [done|].
      cbn [reduce_getitem] in H. destruct d as [| | | |m]; try done.
      cbn [getitem] in H. destruct (m !! k) as [sub|] eqn:Ek.
      * cbn in H. destruct (IH sub H) as (found & key & rest & d' & -> & Hf & Hk).
        exists (k :: found), key, rest, d'. split_and!; [done| |done].
        cbn [reduce_getitem getitem]. by rewrite Ek.
      * by exists [], k, ks, m.
    + intros (found & key & rest & d & -> & Hf & Hk).
      rewrite reduce_getitem_app, Hf. cbn. by rewrite Hk.
  - split.
    + revert data_dict. induction key_sequence as [|k ks IH]; intros d H; [done|].
      cbn [reduce_getitem] in H. destruct d as [|n|a|tag|m]; try done.
      * exists [], k, ks, VNone. split_and!; [done..|]. by left.
      * exists [], k, ks, (VInt n). split_and!; [done..|]. right. left. by exists n.
      * exists [], k, ks, (VObject tag). split_and!; [done..|]. right. right. by exists tag.
      * cbn [getitem] in H. destruct (m !! k) as [sub|] eqn:Ek; [|done].
        cbn in H. destruct (IH sub H) as (found & key & rest & x & -> & Hf & Hx).
        exists (k :: found), key, rest, x. split_and!; [done| |done].
        cbn [reduce_getitem getitem]. by rewrite Ek.
    + intros (found & key & rest & x & -> & Hf & Hx).
      rewrite reduce_getitem_app, Hf. cbn.
      by destruct Hx as [->|[[n ->]|[tag ->]]].
Qed.

End Store.

(** ** The Boundary Loop Stitcher ([_concatenate_submesh_boundaries]) *)

Module Stitcher.

(** The three accumulators [unique_inds], [unique_alpha], [unique_beta]. *)
Definition arrays : Type := list nat * list float * list float.

(** [l.pop(i)]: the element at [i] and the list without it. *)
Definition pop {A} (i : nat) (l : list A) : result (A * list A) :=
  match l !! i with
  | Some x => Ok (x, delete i l)
  | None => Raise IndexError
  end.

(** [x in inds] on an integer array. *)
Definition contains (x : nat) (inds : list nat) : bool :=
  existsb (Nat.eqb x) inds.

(** The [for i, inds in enumerate(boundary_inds)] search: the index of the
    first remaining segment with [current_end_point in inds]; [None] is the
    loop's [else] branch. *)
Fixpoint find_segment (current_end_point : nat) (boundary_inds : list (list nat)) : option nat :=
  match boundary_inds with
  | [] => None
  | inds :: rest =>
      if contains current_end_point inds then Some 0
      else S <$> find_segment current_end_point rest
  end.

(** [a[-1]]. *)
Definition last_item {A} (a : list A) : result A := of_option (last a) IndexError.

(** [a[1:]] and [a[:-1]]. *)
Definition from_second {A} (a : list A) : list A := drop 1 a.
Definition but_last {A} (a : list A) : list A := take (length a - 1) a.

(** One turn of the [while boundary_inds] loop per remaining segment; [n]
    counts the segments still in [boundary_inds]. *)
Fixpoint stitch_loop (n : nat) (unique : arrays)
    (boundary_inds : list (list nat)) (boundary_alpha boundary_beta : list (list float))
    (current_end_point : nat) : result arrays :=
  match n, boundary_inds with
  | _, [] => Ok unique
  | 0, _ :: _ => Ok unique
  | S n', _ :: _ =>
      match find_segment current_end_point boundary_inds with
      | None => Raise ValueError
      | Some i =>
          '(next_segment_inds, boundary_inds') ← pop i boundary_inds;
          '(next_segment_alpha, boundary_alpha') ← pop i boundary_alpha;
          '(next_segment_beta, boundary_beta') ← pop i boundary_beta;
          seg_last ← last_item next_segment_inds;
          let '(next_segment_inds, next_segment_alpha, next_segment_beta) :=
            if Nat.eqb current_end_point seg_last
            then (reverse next_segment_inds, reverse next_segment_alpha, reverse next_segment_beta)
            else (next_segment_inds, next_segment_alpha, next_segment_beta) in
          let '(unique_inds, unique_alpha, unique_beta) := unique in
          let unique_inds := unique_inds ++ from_second next_segment_inds in
          let unique_alpha := unique_alpha ++ from_second next_segment_alpha in
          let unique_beta := unique_beta ++ from_second next_segment_beta in
          current_end_point ← last_item unique_inds;
          stitch_loop n' (unique_inds, unique_alpha, unique_beta)
            boundary_inds' boundary_alpha' boundary_beta' current_end_point
      end
  end.

(** The closing test: drop the final entry when the loop came back to its
    first vertex. *)
Definition close_loop (unique : arrays) : result arrays :=
  let '(unique_inds, unique_alpha, unique_beta) := unique in
  first ← of_option (head unique_inds) IndexError;
  final ← last_item unique_inds;
  if Nat.eqb first final
  then Ok (but_last unique_inds, but_last unique_alpha, but_last unique_beta)
  else Ok unique.

Definition concatenate_submesh_boundaries
    (boundary_inds : list (list nat)) (boundary_alpha boundary_beta : list (list float))
    : result arrays :=
  '(unique_inds, boundary_inds) ← pop 0 boundary_inds;
  '(unique_alpha, boundary_alpha) ← pop 0 boundary_alpha;
  '(unique_beta, boundary_beta) ← pop 0 boundary_beta;
  current_end_point ← last_item unique_inds;
  unique ← stitch_loop (length boundary_inds) (unique_inds, unique_alpha, unique_beta)
              boundary_inds boundary_alpha boundary_beta current_end_point;
  close_loop unique.

(** The vertex sequence alone: the control flow reads only [boundary_inds]. *)
Definition stitched_inds (r : result arrays) : result (list nat) :=
  '(unique_inds, _, _) ← r; Ok unique_inds.

(** *** Closed loops of segments

    A loop [c] of distinct vertices is cut into consecutive non-empty
    blocks; the segment of a block is the block followed by the first
    vertex of the next block (the first block again after the last one), so
    neighbouring segments share exactly their junction vertex. *)

Definition head_or (f : nat) (blocks : list (list nat)) : nat :=
  match blocks with
  | (h :: _) :: _ => h
  | _ => f
  end.

Fixpoint arcs_from (f : nat) (blocks : list (list nat)) : list (list nat) :=
  match blocks with
  | [] => []
  | b :: rest => (b ++ [head_or f rest]) :: arcs_from f rest
  end.

Definition arcs_of (blocks : list (list nat)) : list (list nat) :=
  arcs_from (head_or 0 blocks) blocks.

(** A segment is stored in either direction. *)
Definition oriented (s a : list nat) : Prop := s = a ∨ s = reverse a.

(** [segs] are the arcs [arcs], in any order and each in either direction. *)
Definition matches (segs arcs : list (list nat)) : Prop :=
  ∃ arcs', segs ≡ₚ arcs' ∧ Forall2 oriented arcs' arcs.

Definition nonempty_blocks (blocks : list (list nat)) : Prop :=
  Forall (λ b, b ≠ []) blocks.

(** The segments [segs] form the closed loop [c]. *)
Definition closed_loop (segs : list (list nat)) (c : list nat) : Prop :=
  ∃ blocks, c = concat blocks ∧ NoDup c ∧ blocks ≠ [] ∧ nonempty_blocks blocks
            ∧ matches segs (arcs_of blocks).

(** [l2] is [l1] started at another position. *)
Definition rotation (l1 l2 : list nat) : Prop :=
  ∃ x y, l1 = x ++ y ∧ l2 = y ++ x.

(** The same cyclic sequence up to rotation and direction. *)
Definition cyc_equiv (l1 l2 : list nat) : Prop :=
  rotation l1 l2 ∨ rotation (reverse l1) l2.

(** Consecutive arcs share their junction: starting from the end point [e],
    each arc begins where the previous one ended; [e_end] is where the last
    one ends. *)
Inductive linked : nat → list (list nat) → nat → Prop :=
| linked_nil e : linked e [] e
| linked_cons e a e' rest e_end :
    head a = Some e → last a = Some e' → 2 ≤ length a →
    linked e' rest e_end → linked e (a :: rest) e_end.

(** *** Coordinates travel with their vertices *)

(** The vertex [v] is listed with the coordinates [(a, b)] at one position
    of one input segment. *)
Definition listed (boundary_inds : list (list nat))
    (boundary_alpha boundary_beta : list (list float))
    (v : nat) (a b : float) : Prop :=
  ∃ j inds alpha beta i,
    boundary_inds !! j = Some inds ∧ boundary_alpha !! j = Some alpha
    ∧ boundary_beta !! j = Some beta
    ∧ inds !! i = Some v ∧ alpha !! i = Some a ∧ beta !! i = Some b.

(** Three arrays of one length whose entries at every position satisfy [P]. *)
Definition aligned (P : nat → float → float → Prop) (t : arrays) : Prop :=
  length t.1.2 = length t.1.1 ∧ length t.2 = length t.1.1
  ∧ ∀ k v a b, t.1.1 !! k = Some v → t.1.2 !! k = Some a → t.2 !! k = Some b → P v a b.

(** The three lists hold as many segments each, and the three arrays of
    every segment are aligned. *)
Definition segments_aligned (P : nat → float → float → Prop)
    (boundary_inds : list (list nat)) (boundary_alpha boundary_beta : list (list float))
    : Prop :=
  length boundary_alpha = length boundary_inds
  ∧ length boundary_beta = length boundary_inds
  ∧ ∀ j inds alpha beta,
      boundary_inds !! j = Some inds → boundary_alpha !! j = Some alpha →
      boundary_beta !! j = Some beta → aligned P (inds, alpha, beta).

(** *** Properties of the stitcher *)

Lemma contains_elem_of (e : nat) (l : list nat) : contains e l = true ↔ e ∈ l.
Proof.
  unfold contains. rewrite existsb_exists. split.
  - intros (x & Hx & Heq). apply Nat.eqb_eq in Heq. subst. by apply list_elem_of_In.
  - intros H. exists e. split; [by apply list_elem_of_In|apply Nat.eqb_refl].
Qed.

Lemma contains_reverse (e : nat) (l : list nat) : contains e (reverse l) = contains e l.
Proof.
  apply eq_true_iff_eq. rewrite !contains_elem_of. by rewrite elem_of_reverse.
Qed.

Lemma find_segment_first (e : nat) (r1 : list (list nat)) s r2 :
  Forall (λ t, contains e t = false) r1 → contains e s = true →
  find_segment e (r1 ++ s :: r2) = Some (length r1).
Proof.
  intros H Hs. induction H as [|t r1 Ht _ IH]; simpl.
  - by rewrite Hs.
  - by rewrite Ht, IH.
Qed.

Lemma pop_middle {A} (r1 : list A) s r2 : pop (length r1) (r1 ++ s :: r2) = Ok (s, r1 ++ r2).
Proof.
  unfold pop. rewrite list_lookup_middle by done.
  f_equal. f_equal. induction r1; simpl; [done|]. by f_equal.
Qed.

Lemma pop_length {A} (i : nat) (l : list A) :
  i < length l → ∃ x l', pop i l = Ok (x, l') ∧ S (length l') = length l.
Proof.
  intros Hi. unfold pop. destruct (lookup_lt_is_Some_2 l i Hi) as [x Hx].
  rewrite Hx. exists x, (delete i l). split; [done|].
  rewrite length_delete by eauto. lia.
Qed.

Lemma matches_cons_inv segs a arcs :
  matches segs (a :: arcs) →
  ∃ s r1 r2, segs = r1 ++ s :: r2 ∧ oriented s a ∧ matches (r1 ++ r2) arcs.
Proof.
  intros (arcs' & Hp & Hf). apply Forall2_cons_inv_r in Hf as (s & arcs0 & Ho & Hf & ->).
  assert (s ∈ segs) as Hin by (rewrite Hp; left).
  apply list_elem_of_split in Hin as (r1 & r2 & ->).
  exists s, r1, r2. split; [done|]. split; [done|].
  exists arcs0. split; [|done].
  eapply Permutation_cons_inv. rewrite <- Hp. by rewrite Permutation_middle.
Qed.

Lemma matches_elem segs arcs s :
  matches segs arcs → s ∈ segs → ∃ a, a ∈ arcs ∧ oriented s a.
Proof.
  intros (arcs' & Hp & Hf) Hin. rewrite Hp in Hin.
  apply list_elem_of_lookup in Hin as [i Hi].
  destruct (Forall2_lookup_l _ _ _ _ _ Hf Hi) as (a & Ha & Ho).
  exists a. split; [|done]. by eapply list_elem_of_lookup_2.
Qed.

Lemma matches_length segs arcs : matches segs arcs → length segs = length arcs.
Proof. intros (arcs' & Hp & Hf). rewrite Hp. by eapply Forall2_length. Qed.

Lemma linked_verts e rest e_end :
  linked e rest e_end →
  ∀ r x, r ∈ rest → x ∈ r → x ∈ e :: concat (from_second <$> rest).
Proof.
  induction 1 as [|e a e' rest e_end Hh Hl Hlen _ IH]; intros r x Hr Hx.
  - by apply elem_of_nil in Hr.
  - destruct a as [|h t]; simplify_eq/=.
    simpl. unfold from_second at 1. simpl. rewrite drop_0.
    assert (e' ∈ t) as He'.
    { destruct t as [|h' t']; [simpl in Hlen; lia|].
      rewrite last_cons_cons in Hl. by apply last_Some_elem_of. }
    apply elem_of_cons in Hr as [->|Hr].
    + apply elem_of_cons in Hx as [->|Hx]; [left|]. right. apply elem_of_app. by left.
    + specialize (IH r x Hr Hx). right. apply elem_of_app.
      apply elem_of_cons in IH as [->|IH]; [by left|by right].
Qed.

Lemma stitch_loop_step n unique bi ba bb e :
  bi ≠ [] →
  stitch_loop (S n) unique bi ba bb e =
    match find_segment e bi with
    | None => Raise ValueError
    | Some i =>
        '(next_segment_inds, boundary_inds') ← pop i bi;
        '(next_segment_alpha, boundary_alpha') ← pop i ba;
        '(next_segment_beta, boundary_beta') ← pop i bb;
        seg_last ← last_item next_segment_inds;
        let '(next_segment_inds, next_segment_alpha, next_segment_beta) :=
          if Nat.eqb e seg_last
          then (reverse next_segment_inds, reverse next_segment_alpha, reverse next_segment_beta)
          else (next_segment_inds, next_segment_alpha, next_segment_beta) in
        let '(unique_inds, unique_alpha, unique_beta) := unique in
        let unique_inds := unique_inds ++ from_second next_segment_inds in
        let unique_alpha := unique_alpha ++ from_second next_segment_alpha in
        let unique_beta := unique_beta ++ from_second next_segment_beta in
        current_end_point ← last_item unique_inds;
        stitch_loop n (unique_inds, unique_alpha, unique_beta)
          boundary_inds' boundary_alpha' boundary_beta' current_end_point
    end.
Proof. by destruct bi. Qed.

Lemma head_last_arc (a : list nat) e e' :
  head a = Some e → last a = Some e' → 2 ≤ length a →
  a = e :: from_second a ∧ last (from_second a) = Some e' ∧ e' ∈ from_second a.
Proof.
  intros Hh Hl Hlen. destruct a as [|h [|h' t]]; [done|simpl in Hlen; lia|].
  injection Hh as ->. rewrite last_cons_cons in Hl.
  unfold from_second. cbn [drop].
  split; [done|]. split; [done|]. by apply last_Some_elem_of.
Qed.

Lemma stitch_loop_chain rest : ∀ rem ba bb ui ua ub e e_end,
  last ui = Some e → linked e rest e_end →
  NoDup (e :: concat (from_second <$> rest)) →
  matches rem rest → length ba = length rem → length bb = length rem →
  ∃ ua' ub', stitch_loop (length rem) (ui, ua, ub) rem ba bb e
             = Ok (ui ++ concat (from_second <$> rest), ua', ub').
Proof.
  induction rest as [|a rest IH]; intros rem ba bb ui ua ub e e_end Hlast Hlink Hnd Hm Hba Hbb.
  - apply matches_length in Hm. destruct rem; [|done]. simpl.
    exists ua, ub. by rewrite app_nil_r.
  - apply matches_cons_inv in Hm as (s & r1 & r2 & -> & Ho & Hm).
    inversion Hlink as [|? ? e' ? ? Hh Hl Hlen Hlink']; subst.
    destruct (head_last_arc _ _ _ Hh Hl Hlen) as (Ha & Hl' & He').
    simpl in Hnd. apply NoDup_cons in Hnd as [Hne Hnd].
    rewrite not_elem_of_app in Hne. destruct Hne as [Hne1 Hne2].
    assert (e ≠ e') as Hee' by (intros ->; done).
    assert (Forall (λ t, contains e t = false) (r1 ++ r2)) as Hnone.
    { apply Forall_forall. intros t Ht.
      destruct (contains e t) eqn:E; [|done]. exfalso.
      apply contains_elem_of in E.
      destruct (matches_elem _ _ _ Hm Ht) as (a_t & Hat & Hot).
      assert (e ∈ a_t) as Heat.
      { destruct Hot as [->| ->]; [done|]. by rewrite elem_of_reverse in E. }
      pose proof (linked_verts _ _ _ Hlink' _ _ Hat Heat) as Hin.
      apply elem_of_cons in Hin as [Hin|Hin]; [done|done]. }
    apply Forall_app in Hnone as [Hn1 Hn2].
    assert (contains e s = true) as Hs.
    { assert (e ∈ a) by (rewrite Ha; left).
      destruct Ho as [->| ->]; [|rewrite contains_reverse]; by apply contains_elem_of. }
    assert (length (r1 ++ s :: r2) = S (length (r1 ++ r2))) as Hlen'
      by (rewrite !length_app; simpl; lia).
    rewrite Hlen'. rewrite stitch_loop_step by (by destruct r1).
    rewrite (find_segment_first _ _ _ _ Hn1 Hs).
    rewrite pop_middle.
    destruct (pop_length (length r1) ba) as (xa & ba' & -> & Hba'); [rewrite Hba, Hlen', length_app; lia|].
    destruct (pop_length (length r1) bb) as (xb & bb' & -> & Hbb'); [rewrite Hbb, Hlen', length_app; lia|].
    assert (NoDup (e' :: concat (from_second <$> rest))) as Hnd'.
    { apply NoDup_cons. split; [|by apply NoDup_app in Hnd as (_ & _ & ?)].
      apply NoDup_app in Hnd as (_ & Hd & _). by apply Hd. }
    assert (last (ui ++ from_second a) = Some e') as Hlast'
      by (rewrite last_app, Hl'; done).
    rewrite fmap_cons, concat_cons, app_assoc.
    cbn [mbind result_bind bind]. unfold last_item.
    destruct Ho as [->| ->].
    + rewrite Hl. cbn [of_option mbind result_bind bind].
      apply Nat.eqb_neq in Hee'. rewrite Hee'.
      rewrite Hlast'. cbn [of_option mbind result_bind bind].
      by apply (IH (r1 ++ r2) ba' bb' _ _ _ e' e_end); try lia.
    + rewrite last_reverse, Hh. cbn [of_option mbind result_bind bind].
      rewrite Nat.eqb_refl, reverse_involutive.
      rewrite Hlast'. cbn [of_option mbind result_bind bind].
      by apply (IH (r1 ++ r2) ba' bb' _ _ _ e' e_end); try lia.
Qed.


Lemma head_or_app f B1 B2 :
  nonempty_blocks B1 → head_or f (B1 ++ B2) = head_or (head_or f B2) B1.
Proof. intros H. destruct H as [|[|h t] B1 Hb _]; done. Qed.

Lemma arcs_from_app f B1 B2 :
  nonempty_blocks B1 →
  arcs_from f (B1 ++ B2) = arcs_from (head_or f B2) B1 ++ arcs_from f B2.
Proof.
  induction 1 as [|b B1 Hb HB IH]; [done|].
  simpl. rewrite IH. f_equal. f_equal. f_equal. by apply head_or_app.
Qed.

Lemma linked_arcs f blocks :
  nonempty_blocks blocks → linked (head_or f blocks) (arcs_from f blocks) f.
Proof.
  induction 1 as [|b rest Hb HB IH]; simpl; [constructor|].
  destruct b as [|h t]; [done|].
  apply linked_cons with (e' := head_or f rest); try done.
  - by rewrite last_snoc.
  - rewrite length_app. simpl. lia.
Qed.

Lemma from_second_cons {A} (x : A) l : from_second (x :: l) = l.
Proof. done. Qed.

Lemma chain_arcs f blocks :
  nonempty_blocks blocks →
  head_or f blocks :: concat (from_second <$> arcs_from f blocks) = concat blocks ++ [f].
Proof.
  induction 1 as [|b rest Hb HB IH]; simpl; [done|].
  destruct b as [|h t]; [done|].
  cbn [head_or concat app]. rewrite from_second_cons, <- !app_assoc.
  f_equal. f_equal. exact IH.
Qed.

Lemma from_second_reverse_arc (b : list nat) x :
  from_second (reverse (b ++ [x])) = reverse b.
Proof. by rewrite reverse_snoc. Qed.

Lemma concat_reverse_blocks (blocks : list (list nat)) :
  concat (reverse (reverse <$> blocks)) = reverse (concat blocks).
Proof.
  induction blocks as [|b rest IH]; [done|].
  rewrite fmap_cons, reverse_cons, concat_app, IH. simpl.
  by rewrite app_nil_r, reverse_app.
Qed.

Lemma chain_reversed_arcs f blocks :
  concat (from_second <$> (reverse <$> reverse (arcs_from f blocks))) = reverse (concat blocks).
Proof.
  rewrite <- concat_reverse_blocks. f_equal.
  rewrite <- list_fmap_compose, fmap_reverse. f_equal.
  induction blocks as [|b rest IH]; [done|].
  cbn [arcs_from]. rewrite !fmap_cons, IH. f_equal. apply from_second_reverse_arc.
Qed.

Lemma linked_snoc e A m a e' :
  linked e A m → head a = Some m → last a = Some e' → 2 ≤ length a →
  linked e (A ++ [a]) e'.
Proof.
  induction 1 as [|e a0 e0 rest m Hh Hl Hlen _ IH]; intros Hh' Hl' Hlen'; simpl.
  - eapply linked_cons; eauto. constructor.
  - eapply linked_cons; eauto.
Qed.

Lemma linked_reverse e A e_end :
  linked e A e_end → linked e_end (reverse <$> reverse A) e.
Proof.
  induction 1 as [|e a e' rest e_end Hh Hl Hlen _ IH]; [constructor|].
  rewrite reverse_cons, fmap_app. simpl.
  eapply linked_snoc; eauto.
  - by rewrite head_reverse.
  - by rewrite last_reverse.
  - by rewrite length_reverse.
Qed.

Lemma oriented_reverse s a : oriented s a → oriented s (reverse a).
Proof. intros [->| ->]; [right|left]; by rewrite ?reverse_involutive. Qed.

Lemma matches_fmap_reverse segs arcs : matches segs arcs → matches segs (reverse <$> arcs).
Proof.
  intros (arcs' & Hp & Hf). exists arcs'. split; [done|].
  apply Forall2_fmap_r. eapply Forall2_impl; [done|]. apply oriented_reverse.
Qed.

Lemma matches_perm segs arcs arcs2 : matches segs arcs → arcs ≡ₚ arcs2 → matches segs arcs2.
Proof.
  intros (arcs' & Hp & Hf) Hperm. revert arcs' segs Hp Hf.
  induction Hperm as [|a A1 A2 _ IH|a1 a2 A|A1 A2 A3 _ IH1 _ IH2]; intros arcs' segs Hp Hf.
  - by exists arcs'.
  - apply Forall2_cons_inv_r in Hf as (s & r & Ho & Hf & ->).
    destruct (IH r r) as (r' & Hp' & Hf'); [done|done|].
    exists (s :: r'). split; [by rewrite Hp, Hp'|by constructor].
  - apply Forall2_cons_inv_r in Hf as (s1 & r & Ho1 & Hf & ->).
    apply Forall2_cons_inv_r in Hf as (s2 & r' & Ho2 & Hf & ->).
    exists (s2 :: s1 :: r'). split; [rewrite Hp; apply perm_swap|by do 2 (constructor; [done|])].
  - destruct (IH1 _ _ Hp Hf) as (r & Hp1 & Hf1). by apply (IH2 r).
Qed.

Lemma matches_head_inv s0 rem arcs :
  matches (s0 :: rem) arcs →
  ∃ A1 a A2, arcs = A1 ++ a :: A2 ∧ oriented s0 a ∧ matches rem (A1 ++ A2).
Proof.
  intros (arcs' & Hp & Hf).
  assert (s0 ∈ arcs') as Hin by (rewrite <- Hp; left).
  apply list_elem_of_split in Hin as (P1 & P2 & ->).
  apply Forall2_app_inv_l in Hf as (A1 & A' & Hf1 & Hf2 & ->).
  apply Forall2_cons_inv_l in Hf2 as (a & A2 & Ho & Hf2 & ->).
  exists A1, a, A2. split; [done|]. split; [done|].
  exists (P1 ++ P2). split; [|by apply Forall2_app].
  by apply Permutation_cons_app_inv in Hp.
Qed.


Lemma rotation_refl l : rotation l l.
Proof. exists [], l. by rewrite app_nil_r. Qed.

Lemma rotation_sym l1 l2 : rotation l1 l2 → rotation l2 l1.
Proof. intros (x & y & -> & ->). by exists y, x. Qed.

Lemma rotation_trans l1 l2 l3 : rotation l1 l2 → rotation l2 l3 → rotation l1 l3.
Proof.
  intros (x & y & -> & ->) (u & v & Huv & ->).
  apply app_eq_inv in Huv as [(k & -> & ->)|(k & -> & ->)].
  - exists (x ++ u), k. by rewrite <- !app_assoc.
  - exists k, (v ++ y). by rewrite <- !app_assoc.
Qed.

Lemma rotation_reverse l1 l2 : rotation l1 l2 → rotation (reverse l1) (reverse l2).
Proof. intros (x & y & -> & ->). exists (reverse y), (reverse x). by rewrite !reverse_app. Qed.

Lemma cyc_equiv_sym l1 l2 : cyc_equiv l1 l2 → cyc_equiv l2 l1.
Proof.
  intros [H|H]; [left; by apply rotation_sym|right].
  apply rotation_sym, rotation_reverse in H. by rewrite reverse_involutive in H.
Qed.

Lemma cyc_equiv_trans l1 l2 l3 : cyc_equiv l1 l2 → cyc_equiv l2 l3 → cyc_equiv l1 l3.
Proof.
  intros [H1|H1] [H2|H2].
  - left. by eapply rotation_trans.
  - right. eapply rotation_trans; [|done]. by apply rotation_reverse.
  - right. by eapply rotation_trans.
  - left. apply rotation_reverse in H1. rewrite reverse_involutive in H1.
    by eapply rotation_trans.
Qed.

Lemma but_last_snoc {A} (l : list A) x : but_last (l ++ [x]) = l.
Proof.
  unfold but_last. rewrite length_app. simpl.
  replace (length l + 1 - 1) with (length l) by lia. by rewrite take_app_length.
Qed.

Lemma arcs_from_split f blocks : ∀ A1 a A2,
  nonempty_blocks blocks →
  arcs_from f blocks = A1 ++ a :: A2 →
  ∃ B1 b B2, blocks = B1 ++ b :: B2 ∧ A1 = arcs_from (head_or f (b :: B2)) B1
             ∧ a = b ++ [head_or f B2] ∧ A2 = arcs_from f B2.
Proof.
  induction blocks as [|b0 blocks IH]; intros A1 a A2 Hne Heq.
  - by destruct A1.
  - apply Forall_cons in Hne as [Hb0 Hne]. destruct A1 as [|a1 A1]; simplify_eq/=.
    + by exists [], b0, blocks.
    + destruct (IH _ _ _ Hne H0) as (B1 & b & B2 & -> & -> & -> & ->).
      exists (b0 :: B1), b, B2. split; [done|]. split; [|done].
      simpl. f_equal. f_equal. f_equal.
      rewrite head_or_app; [done|].
      by apply Forall_app in Hne as [? _].
Qed.

Lemma NoDup_app_snoc_head (X b : list nat) h t :
  b = h :: t → NoDup (X ++ b) → NoDup (X ++ [h]).
Proof.
  intros -> H. apply NoDup_app in H as (HX & Hd & Hb).
  apply NoDup_app. split; [done|]. split; [|apply NoDup_singleton].
  intros x Hx Hin. apply list_elem_of_singleton in Hin as ->.
  apply (Hd h Hx). left.
Qed.

Lemma linked_last e rest f (ui : list nat) :
  linked e rest f → last ui = Some e →
  last (ui ++ concat (from_second <$> rest)) = Some f.
Proof.
  intros H. revert ui. induction H as [|e a e' rest f Hh Hl Hlen _ IH]; intros ui Hui.
  - simpl. by rewrite app_nil_r.
  - destruct (head_last_arc _ _ _ Hh Hl Hlen) as (_ & Hl' & _).
    rewrite fmap_cons, concat_cons, app_assoc. apply IH.
    by rewrite last_app, Hl'.
Qed.

Lemma stitch_from_chain s0 rem ba bb rest e f :
  head s0 = Some f → last s0 = Some e → linked e rest f →
  NoDup (e :: concat (from_second <$> rest)) → matches rem rest →
  length ba = S (length rem) → length bb = S (length rem) →
  stitched_inds (concatenate_submesh_boundaries (s0 :: rem) ba bb)
  = Ok (but_last (s0 ++ concat (from_second <$> rest))).
Proof.
  intros Hh Hl Hlink Hnd Hm Hba Hbb.
  destruct ba as [|xa ba]; [done|]. destruct bb as [|xb bb]; [done|].
  simpl in Hba, Hbb.
  unfold concatenate_submesh_boundaries, pop. cbn [lookup list_lookup delete list_delete].
  cbn [mbind result_bind bind]. unfold last_item at 1. rewrite Hl.
  cbn [of_option mbind result_bind bind].
  destruct (stitch_loop_chain rest rem ba bb s0 xa xb e f) as (ua & ub & ->);
    try done; try lia.
  cbn [mbind result_bind bind]. unfold close_loop.
  assert (head (s0 ++ concat (from_second <$> rest)) = Some f) as ->.
  { destruct s0; [done|]. done. }
  unfold last_item. rewrite (linked_last e rest f) by done.
  cbn [of_option mbind result_bind bind]. by rewrite Nat.eqb_refl.
Qed.

Lemma length_arcs_from f blocks : length (arcs_from f blocks) = length blocks.
Proof. induction blocks; simpl; by f_equal. Qed.

Lemma concat_head hb tb bs0 :
  nonempty_blocks bs0 → ∃ T, concat bs0 ++ hb :: tb = head_or hb bs0 :: T.
Proof.
  intros H. destruct H as [|[|h t] bs0 Hb _]; [by eexists|done|].
  simpl. by eexists.
Qed.

Lemma stitch_closed_loop segs c ba bb :
  closed_loop segs c → length ba = length segs → length bb = length segs →
  ∃ c', cyc_equiv c c' ∧ stitched_inds (concatenate_submesh_boundaries segs ba bb) = Ok c'.
Proof.
  intros (blocks & -> & Hnd & Hne & Hnb & Hm) Hba Hbb.
  destruct segs as [|s0 rem].
  { apply matches_length in Hm. unfold arcs_of in Hm. rewrite length_arcs_from in Hm.
    by destruct blocks. }
  simpl in Hba, Hbb.
  apply matches_head_inv in Hm as (A1 & a & A2 & Harcs & Ho & Hm).
  apply arcs_from_split in Harcs as (B1 & b & B2 & -> & -> & -> & ->); [|done].
  apply Forall_app in Hnb as [HnB1 Hnb]. apply Forall_cons in Hnb as [Hb HnB2].
  destruct b as [|hb tb]; [done|].
  rewrite head_or_app in Hm by done. rewrite head_or_app in Ho by done.
  cbn [head_or] in Hm, Ho.
  set (f := head_or hb B1) in *. set (e1 := head_or f B2) in *.
  assert (nonempty_blocks (B2 ++ B1)) as Hn0 by (by apply Forall_app).
  assert (head_or hb (B2 ++ B1) = e1) as He1 by (by rewrite head_or_app).
  assert (arcs_from hb (B2 ++ B1) = arcs_from f B2 ++ arcs_from hb B1) as Harcs
    by (by rewrite arcs_from_app).
  assert (matches rem (arcs_from hb (B2 ++ B1))) as Hm'.
  { rewrite Harcs. eapply matches_perm; [done|]. apply Permutation_app_comm. }
  rewrite concat_app, concat_cons in Hnd.
  assert (NoDup ((concat B2 ++ concat B1) ++ hb :: tb)) as Hnd'.
  { eapply NoDup_Permutation_proper; [|exact Hnd].
    rewrite <- app_assoc, (Permutation_app_comm (concat B2)), <- !app_assoc. done. }
  pose proof (linked_arcs hb (B2 ++ B1) Hn0) as Hlink. rewrite He1 in Hlink.
  pose proof (chain_arcs hb (B2 ++ B1) Hn0) as Hchain. rewrite He1 in Hchain.
  destruct Ho as [->| ->].
  - exists ((hb :: tb) ++ concat (B2 ++ B1)). split.
    + left. exists (concat B1), ((hb :: tb) ++ concat B2).
      split; [by rewrite concat_app, concat_cons|by rewrite concat_app, <- app_assoc].
    + rewrite (stitch_from_chain _ rem ba bb (arcs_from hb (B2 ++ B1)) e1 hb); try done.
      * f_equal. rewrite <- app_assoc.
        change ([e1] ++ ?l) with (e1 :: l). rewrite Hchain.
        by rewrite app_assoc, but_last_snoc.
      * by rewrite last_snoc.
      * rewrite Hchain. rewrite concat_app. eapply NoDup_app_snoc_head; done.
  - destruct (concat_head hb tb (B2 ++ B1) Hn0) as [T HT]. rewrite He1 in HT.
    exists (e1 :: reverse T). split.
    + right. eapply rotation_trans; [apply rotation_reverse|].
      * exists (concat B1 ++ hb :: tb), (concat B2).
        split; [by rewrite concat_app, concat_cons, <- app_assoc|reflexivity].
      * rewrite app_assoc, <- concat_app, HT.
        rewrite reverse_cons. by exists (reverse T), [e1].
    + rewrite (stitch_from_chain _ rem ba bb
                 (reverse <$> reverse (arcs_from hb (B2 ++ B1))) hb e1); try done.
      * f_equal. rewrite chain_reversed_arcs, <- reverse_app, app_assoc.
        rewrite HT, reverse_snoc, reverse_cons.
        change (e1 :: reverse T ++ [e1]) with ((e1 :: reverse T) ++ [e1]).
        by rewrite but_last_snoc.
      * by rewrite reverse_snoc.
      * by rewrite last_reverse.
      * by apply linked_reverse.
      * rewrite chain_reversed_arcs, concat_app.
        apply NoDup_app in Hnd' as (Hnd1 & Hd & _).
        apply NoDup_cons. split; [|by rewrite reverse_Permutation].
        rewrite elem_of_reverse. intros Hin. apply (Hd hb Hin). left.
      * apply matches_fmap_reverse. eapply matches_perm; [done|].
        symmetry. apply reverse_Permutation.
Qed.

Lemma closed_loop_reverse segs c : closed_loop segs c → closed_loop (reverse segs) c.
Proof.
  intros (blocks & ? & ? & ? & ? & arcs' & Hp & Hf).
  exists blocks. repeat split; try done.
  exists arcs'. split; [|done]. by rewrite reverse_Permutation.
Qed.

(** The search fails exactly when no remaining segment contains the current
    end point, at whatever position. *)
Lemma find_segment_None (e : nat) (segs : list (list nat)) :
  find_segment e segs = None ↔ ∀ s, s ∈ segs → e ∉ s.
Proof.
  induction segs as [|s segs IH]; simpl.
  - split; [|done]. intros _ s Hs. by apply elem_of_nil in Hs.
  - destruct (contains e s) eqn:E.
    + split; [done|]. intros H. apply contains_elem_of in E.
      exfalso. apply (H s); [left|done].
    + destruct (find_segment e segs) eqn:F; simpl.
      * split; [done|]. intros H. exfalso.
        assert (Some n = None) as Hn; [|done].
        apply IH. intros t Ht. apply H. by right.
      * split; [|done]. intros _ t Ht Hin.
        apply elem_of_cons in Ht as [->|Ht].
        -- apply contains_elem_of in Hin. congruence.
        -- by apply (proj1 IH eq_refl t).
Qed.

(** C4: for segments that form a closed loop [c], stitching the segment
    list and stitching the reversed segment list both succeed, and the two
    vertex sequences are the same cyclic sequence up to rotation and
    direction (each is the loop [c] up to rotation and direction). *)
Theorem stitch_reversed_input_same_loop
    (segs : list (list nat)) (c : list nat) (alpha beta : list (list float)) :
  closed_loop segs c → length alpha = length segs → length beta = length segs →
  ∃ l1 l2,
    stitched_inds (concatenate_submesh_boundaries segs alpha beta) = Ok l1
    ∧ stitched_inds (concatenate_submesh_boundaries
                       (reverse segs) (reverse alpha) (reverse beta)) = Ok l2
    ∧ cyc_equiv l1 l2 ∧ cyc_equiv c l1.
Proof.
  intros Hloop Ha Hb.
  destruct (stitch_closed_loop segs c alpha beta Hloop Ha Hb) as (l1 & Hc1 & H1).
  destruct (stitch_closed_loop (reverse segs) c (reverse alpha) (reverse beta))
    as (l2 & Hc2 & H2); [by apply closed_loop_reverse|by rewrite !length_reverse..|].
  exists l1, l2. repeat split; try done.
  eapply cyc_equiv_trans; [|done]. by apply cyc_equiv_sym.
Qed.

Definition example_segments : list (list nat) := [[1; 2; 3]; [5; 4; 3]; [5; 6; 1]].
Definition example_coordinates : list (list float) :=
  [[0; 0.5; 1]; [0.25; 0.5; 0.75]; [1; 0.5; 0]]%float.

Lemma stitch_reversed_input_same_loop_witness :
  ∃ l1 l2,
    stitched_inds (concatenate_submesh_boundaries
                     example_segments example_coordinates example_coordinates) = Ok l1
    ∧ stitched_inds (concatenate_submesh_boundaries
                       (reverse example_segments) (reverse example_coordinates)
                       (reverse example_coordinates)) = Ok l2
    ∧ cyc_equiv l1 l2 ∧ cyc_equiv [1; 2; 3; 4; 5; 6] l1.
Proof.
  apply (stitch_reversed_input_same_loop example_segments [1; 2; 3; 4; 5; 6]
           example_coordinates example_coordinates).
  - exists [[1; 2]; [3; 4]; [5; 6]]. split; [reflexivity|].
    split; [apply (bool_decide_unpack (NoDup [1; 2; 3; 4; 5; 6])); vm_compute; exact I|].
    split; [discriminate|].
    split; [repeat constructor; discriminate|].
    exists example_segments. split; [reflexivity|].
    constructor; [by left|]. constructor; [by right|]. constructor; [by left|]. constructor.
  - reflexivity.
  - reflexivity.
Defined.

(** C3 (the failing input): the accumulator ends at vertex 2 and the only
    remaining segment is [5, 2, 6], whose first and last vertices are 5 and
    6.  The membership test [current_end_point in inds] accepts it, nothing
    is raised, and the segment is appended without its first vertex: vertex
    2 is doubled and vertex 5 is lost. *)
Theorem stitch_accepts_interior_match :
  find_segment 2 [[5; 2; 6]] = Some 0
  ∧ head [5; 2; 6] ≠ Some 2 ∧ last [5; 2; 6] ≠ Some 2
  ∧ concatenate_submesh_boundaries [[1; 2]; [5; 2; 6]]
      [[0; 1]; [2; 3; 4]]%float [[5; 6]; [7; 8; 9]]%float
    = Ok ([1; 2; 2; 6], [0; 1; 3; 4]%float, [5; 6; 8; 9]%float).
Proof. repeat split; try discriminate; reflexivity. Qed.

(** *** Coordinates travel with their vertices *)

Lemma aligned_reverse P inds alpha beta :
  aligned P (inds, alpha, beta) → aligned P (reverse inds, reverse alpha, reverse beta).
Proof.
  intros (Ha & Hb & H). unfold aligned. cbn [fst snd] in *.
  split_and!; [by rewrite !length_reverse..|].
  intros k v a b Hv Ha' Hb'.
  pose proof (lookup_lt_Some _ _ _ Hv) as Hk. rewrite length_reverse in Hk.
  rewrite reverse_lookup in Hv by done.
  rewrite reverse_lookup in Ha' by lia. rewrite reverse_lookup in Hb' by lia.
  rewrite Ha in Ha'. rewrite Hb in Hb'. by eapply H.
Qed.

Lemma aligned_from_second P inds alpha beta :
  aligned P (inds, alpha, beta) →
  aligned P (from_second inds, from_second alpha, from_second beta).
Proof.
  intros (Ha & Hb & H). unfold aligned, from_second. cbn [fst snd] in *.
  split_and!; [rewrite !length_drop; lia..|].
  intros k v a b. rewrite !lookup_drop. apply H.
Qed.

Lemma aligned_but_last P inds alpha beta :
  aligned P (inds, alpha, beta) → aligned P (but_last inds, but_last alpha, but_last beta).
Proof.
  intros (Ha & Hb & H). unfold aligned, but_last. cbn [fst snd] in *.
  split_and!; [rewrite !length_take; lia..|].
  intros k v a b Hv Ha' Hb'.
  apply lookup_take_Some in Hv as [Hv _]. apply lookup_take_Some in Ha' as [Ha' _].
  apply lookup_take_Some in Hb' as [Hb' _]. by eapply H.
Qed.

Lemma aligned_app P inds alpha beta inds' alpha' beta' :
  aligned P (inds, alpha, beta) → aligned P (inds', alpha', beta') →
  aligned P (inds ++ inds', alpha ++ alpha', beta ++ beta').
Proof.
  intros (Ha & Hb & H) (Ha' & Hb' & H'). unfold aligned. cbn [fst snd] in *.
  split_and!; [rewrite !length_app; lia..|].
  intros k v a b Hv Hal Hbe.
  destruct (decide (k < length inds)) as [Hlt|Hge].
  - rewrite lookup_app_l in Hv by done. rewrite lookup_app_l in Hal by lia.
    rewrite lookup_app_l in Hbe by lia. by eapply H.
  - rewrite lookup_app_r in Hv by lia. rewrite lookup_app_r in Hal by lia.
    rewrite lookup_app_r in Hbe by lia. rewrite Ha in Hal. rewrite Hb in Hbe.
    by eapply H'.
Qed.

Lemma pop_Ok {A} (i : nat) (l : list A) (x : A) (l' : list A) :
  pop i l = Ok (x, l') → l !! i = Some x ∧ l' = delete i l.
Proof. unfold pop. destruct (l !! i); [|done]. intros H. by injection H as <- <-. Qed.

Lemma lookup_delete_shift {A} (i j : nat) (l : list A) :
  delete i l !! j = l !! (if decide (j < i) then j else S j).
Proof.
  case_decide.
  - by apply list_lookup_delete_lt.
  - apply list_lookup_delete_ge. lia.
Qed.

Lemma segments_aligned_pop P i bi ba bb inds alpha beta :
  segments_aligned P bi ba bb →
  bi !! i = Some inds → ba !! i = Some alpha → bb !! i = Some beta →
  aligned P (inds, alpha, beta)
  ∧ segments_aligned P (delete i bi) (delete i ba) (delete i bb).
Proof.
  intros (Ha & Hb & H) Hi Hal Hbe. split; [by eapply H|].
  pose proof (lookup_lt_Some _ _ _ Hi) as Hlt.
  split_and!; [rewrite !length_delete by (by eexists); lia..|].
  intros j s sa sb. rewrite !lookup_delete_shift. apply H.
Qed.

(** The loop keeps the accumulators aligned. *)
Lemma stitch_loop_aligned P (n : nat) : ∀ unique bi ba bb e r,
  aligned P unique → segments_aligned P bi ba bb →
  stitch_loop n unique bi ba bb e = Ok r → aligned P r.
Proof.
  induction n as [|n IH]; intros unique bi ba bb e r Hu Hs H.
  - destruct bi; cbn in H; by injection H as <-.
  - destruct (decide (bi = [])) as [->|Hne]; [cbn in H; by injection H as <-|].
    rewrite stitch_loop_step in H by done. rename H into Hrun.
    destruct (find_segment e bi) as [i|]; [|done].
    apply bind_Ok in Hrun as ([si bi'] & Hpi & H). apply pop_Ok in Hpi as [Hi ->].
    apply bind_Ok in H as ([sa ba'] & Hpa & H). apply pop_Ok in Hpa as [Hal ->].
    apply bind_Ok in H as ([sb bb'] & Hpb & H). apply pop_Ok in Hpb as [Hbe ->].
    apply bind_Ok in H as (seg_last & _ & H).
    destruct (segments_aligned_pop P i bi ba bb si sa sb Hs Hi Hal Hbe) as [Hseg Hrest].
    destruct unique as [[ui ua] ub].
    destruct (Nat.eqb e seg_last).
    + apply bind_Ok in H as (e' & _ & H). eapply IH; [| |exact H]; [|done].
      apply aligned_app; [done|]. by apply aligned_from_second, aligned_reverse.
    + apply bind_Ok in H as (e' & _ & H). eapply IH; [| |exact H]; [|done].
      apply aligned_app; [done|]. by apply aligned_from_second.
Qed.

(** When the three arrays of every input segment have one length, the three
    returned arrays have one length, and every returned vertex carries the
    coordinates listed with it at some position of an input segment: the
    stitcher never pairs a vertex with coordinates of another position. *)
Theorem stitched_coordinates_follow_vertices
    (boundary_inds : list (list nat)) (boundary_alpha boundary_beta : list (list float))
    (unique : arrays) :
  segments_aligned (λ _ _ _, True) boundary_inds boundary_alpha boundary_beta →
  concatenate_submesh_boundaries boundary_inds boundary_alpha boundary_beta = Ok unique →
  aligned (listed boundary_inds boundary_alpha boundary_beta) unique.
Proof.
  intros Hlen H.
  assert (Hs : segments_aligned (listed boundary_inds boundary_alpha boundary_beta)
                 boundary_inds boundary_alpha boundary_beta).
  { destruct Hlen as (Ha & Hb & Hl). split_and!; [done..|].
    intros j inds alpha beta Hi Hal Hbe.
    destruct (Hl j inds alpha beta Hi Hal Hbe) as (? & ? & _).
    split_and!; [done..|]. intros k v a b Hv Ha' Hb'. cbn [fst snd] in *.
    by exists j, inds, alpha, beta, k. }
  clear Hlen. unfold concatenate_submesh_boundaries in H.
  apply bind_Ok in H as ([si bi'] & Hpi & H). apply pop_Ok in Hpi as [Hi ->].
  apply bind_Ok in H as ([sa ba'] & Hpa & H). apply pop_Ok in Hpa as [Hal ->].
  apply bind_Ok in H as ([sb bb'] & Hpb & H). apply pop_Ok in Hpb as [Hbe ->].
  apply bind_Ok in H as (e & _ & H).
  apply bind_Ok in H as ([[ui ua] ub] & Hloop & H).
  destruct (segments_aligned_pop _ 0 _ _ _ si sa sb Hs Hi Hal Hbe) as [Hseg Hrest].
  pose proof (stitch_loop_aligned _ _ _ _ _ _ _ _ Hseg Hrest Hloop) as Hu.
  unfold close_loop in H.
  apply bind_Ok in H as (first & _ & H). apply bind_Ok in H as (final & _ & H).
  destruct (Nat.eqb first final); injection H as <-; [|done].
  by apply aligned_but_last.
Qed.

Lemma stitched_coordinates_follow_vertices_witness :
  aligned (listed example_segments example_coordinates example_coordinates)
    ([1; 2; 3; 4; 5; 6],
     [0; 0.5; 1; 0.5; 0.25; 0.5]%float, [0; 0.5; 1; 0.5; 0.25; 0.5]%float).
Proof.
  apply stitched_coordinates_follow_vertices.
  - split_and!; [reflexivity..|].
    intros [|[|[|j]]] inds alpha beta Hi Ha Hb; cbn in Hi, Ha, Hb; try done;
      injection Hi as <-; injection Ha as <-; injection Hb as <-; done.
  - vm_compute. reflexivity.
Defined.

(** *** The only failure of a well-formed call *)

Lemma find_segment_Some (e : nat) (segs : list (list nat)) (i : nat) :
  find_segment e segs = Some i → ∃ s, segs !! i = Some s ∧ e ∈ s.
Proof.
  revert i. induction segs as [|s segs IH]; intros i H; [done|].
  cbn [find_segment] in H. destruct (contains e s) eqn:E.
  - injection H as <-. exists s. split; [done|]. by apply contains_elem_of.
  - destruct (find_segment e segs) as [j|]; [|done]. cbn in H. injection H as <-.
    by apply IH.
Qed.

Lemma last_item_Ok {A} (a : list A) : a ≠ [] → ∃ x, last_item a = Ok x.
Proof.
  intros H. unfold last_item. destruct (last a) as [x|] eqn:E; [by exists x|].
  by apply last_None in E.
Qed.

Lemma pop_lookup {A} (i : nat) (l : list A) (x : A) :
  l !! i = Some x → pop i l = Ok (x, delete i l).
Proof. intros H. unfold pop. by rewrite H. Qed.

Lemma stitch_loop_fails_with_ValueError (n : nat) : ∀ ui ua ub bi ba bb e,
  ui ≠ [] → length ba = length bi → length bb = length bi →
  (∃ ui' ua' ub', stitch_loop n (ui, ua, ub) bi ba bb e = Ok (ui', ua', ub') ∧ ui' ≠ [])
  ∨ stitch_loop n (ui, ua, ub) bi ba bb e = Raise ValueError.
Proof.
  induction n as [|n IH]; intros ui ua ub bi ba bb e Hne Ha Hb.
  - left. exists ui, ua, ub. by destruct bi.
  - destruct (decide (bi = [])) as [->|Hbi]; [left; by exists ui, ua, ub|].
    rewrite stitch_loop_step by done.
    destruct (find_segment e bi) as [i|] eqn:Ef; [|by right].
    apply find_segment_Some in Ef as (s & Hs & Hes).
    pose proof (lookup_lt_Some _ _ _ Hs) as Hi.
    destruct (lookup_lt_is_Some_2 ba i) as [sa Hsa]; [lia|].
    destruct (lookup_lt_is_Some_2 bb i) as [sb Hsb]; [lia|].
    rewrite (pop_lookup i bi s Hs), (pop_lookup i ba sa Hsa), (pop_lookup i bb sb Hsb).
    cbn [mbind result_bind bind].
    destruct (last_item_Ok s) as [seg_last ->]; [by intros ->; apply elem_of_nil in Hes|].
    cbn [mbind result_bind bind].
    assert (Hstep : ∀ si sa' sb',
              (∃ ui' ua' ub',
                 (current_end_point ← last_item (ui ++ from_second si);
                  stitch_loop n (ui ++ from_second si, ua ++ from_second sa',
                                 ub ++ from_second sb')
                    (delete i bi) (delete i ba) (delete i bb) current_end_point)
                 = Ok (ui', ua', ub') ∧ ui' ≠ [])
              ∨ (current_end_point ← last_item (ui ++ from_second si);
                 stitch_loop n (ui ++ from_second si, ua ++ from_second sa',
                                ub ++ from_second sb')
                   (delete i bi) (delete i ba) (delete i bb) current_end_point)
                = Raise ValueError).
    { intros si sa' sb'.
      assert (Hacc : ui ++ from_second si ≠ []) by (intros H%app_eq_nil; by destruct H).
      destruct (last_item_Ok _ Hacc) as [e' ->]. cbn [mbind result_bind bind].
      apply IH; [done|rewrite !length_delete by eauto; lia..]. }
    destruct (Nat.eqb e seg_last); apply Hstep.
Qed.

(** A call with as many coordinate arrays as vertex arrays and a first
    segment that is not empty returns a result or raises the [ValueError] of
    the loop's [else] branch; no indexing fails.  It does raise it when no
    other segment holds the last vertex of the first. *)
Theorem stitcher_fails_only_with_ValueError
    (first : list nat) (rest : list (list nat))
    (boundary_alpha boundary_beta : list (list float)) :
  first ≠ [] →
  length boundary_alpha = length (first :: rest) →
  length boundary_beta = length (first :: rest) →
  ((∃ unique, concatenate_submesh_boundaries (first :: rest) boundary_alpha boundary_beta
              = Ok unique)
   ∨ concatenate_submesh_boundaries (first :: rest) boundary_alpha boundary_beta
     = Raise ValueError)
  ∧ (rest ≠ [] → (∀ e s, last first = Some e → s ∈ rest → e ∉ s) →
     concatenate_submesh_boundaries (first :: rest) boundary_alpha boundary_beta
     = Raise ValueError).
Proof.
  intros Hne Ha Hb. unfold concatenate_submesh_boundaries.
  destruct boundary_alpha as [|a0 ba]; [done|]. destruct boundary_beta as [|b0 bb]; [done|].
  cbn [pop lookup list_lookup delete list_delete mbind result_bind bind].
  destruct (last_item_Ok first Hne) as [e He]. rewrite He.
  cbn [mbind result_bind bind]. cbn [length] in Ha, Hb. split.
  - destruct (stitch_loop_fails_with_ValueError (length rest) first a0 b0 rest ba bb e)
      as [(ui & ua & ub & Hrun & Hui)|Hrun]; [done|lia|lia| |];
      rewrite Hrun; [|by right].
    left. cbn [mbind result_bind bind]. unfold close_loop.
    destruct ui as [|u ui]; [done|]. cbn [head of_option mbind result_bind bind].
    destruct (last_item_Ok (u :: ui)) as [f ->]; [done|]. cbn [mbind result_bind bind].
    destruct (Nat.eqb u f); by eexists.
  - intros Hrest Hno. destruct rest as [|s rest]; [done|].
    cbn [length]. rewrite stitch_loop_step by done.
    assert (find_segment e (s :: rest) = None) as ->; [|done].
    apply find_segment_None. intros t Ht. apply (Hno e t); [|done].
    unfold last_item in He. by destruct (last first); [injection He as ->|].
Qed.

Lemma stitcher_fails_only_with_ValueError_witness :
  ((∃ unique, concatenate_submesh_boundaries ([1; 2] :: [[7; 8]])
                [[0; 1]; [0; 1]]%float [[0; 1]; [0; 1]]%float = Ok unique)
   ∨ concatenate_submesh_boundaries ([1; 2] :: [[7; 8]])
       [[0; 1]; [0; 1]]%float [[0; 1]; [0; 1]]%float = Raise ValueError)
  ∧ ([[7; 8]] ≠ [] → (∀ e s, last [1; 2] = Some e → s ∈ [[7; 8]] → e ∉ s) →
     concatenate_submesh_boundaries ([1; 2] :: [[7; 8]])
       [[0; 1]; [0; 1]]%float [[0; 1]; [0; 1]]%float = Raise ValueError).
Proof.
  apply stitcher_fails_only_with_ValueError; [done|reflexivity|reflexivity].
Defined.

End Stitcher.

(** ** NumPy helpers on integer arrays *)

Module Np.

(** [np.unique]: the sorted array of the distinct values. *)
Fixpoint insert_unique (x : nat) (l : list nat) : list nat :=
  match l with
  | [] => [x]
  | y :: l' =>
      if x <? y then x :: y :: l'
      else if x =? y then y :: l'
      else y :: insert_unique x l'
  end.

Definition unique (l : list nat) : list nat := foldr insert_unique [] l.

(** [x in a] and [np.isin(x, a)] for one value. *)
Definition contains (x : nat) (a : list nat) : bool := existsb (Nat.eqb x) a.

(** [np.intersect1d(a, b)]: the sorted distinct values found in both. *)
Definition intersect1d (a b : list nat) : list nat :=
  unique (filter (λ x, contains x b = true) a).

(** [a[i]] with the interpreter's bounds check. *)
Definition item {A} (a : list A) (i : nat) : result A := of_option (a !! i) IndexError.

(** [np.where(mask)[0]]: the positions holding [True], ascending. *)
Fixpoint where_from (i : nat) (mask : list bool) : list nat :=
  match mask with
  | [] => []
  | b :: rest => if b then i :: where_from (S i) rest else where_from (S i) rest
  end.

Definition where_true (mask : list bool) : list nat := where_from 0 mask.

(** *** Facts about the helpers *)

Lemma item_Ok {A} (a : list A) (i : nat) (x : A) : Np.item a i = Ok x ↔ a !! i = Some x.
Proof. unfold Np.item. destruct (a !! i); simpl; split; congruence. Qed.

Lemma np_contains_elem_of (x : nat) (a : list nat) : Np.contains x a = true ↔ x ∈ a.
Proof.
  unfold Np.contains. rewrite existsb_exists. split.
  - intros (y & Hy & Heq). apply Nat.eqb_eq in Heq. subst. by apply list_elem_of_In.
  - intros H. exists x. split; [by apply list_elem_of_In|apply Nat.eqb_refl].
Qed.

Lemma where_from_elem (mask : list bool) : ∀ i g,
  g ∈ Np.where_from i mask ↔ ∃ j, g = i + j ∧ mask !! j = Some true.
Proof.
  induction mask as [|b mask IH]; intros i g; simpl.
  - split; [by intros ?%elem_of_nil|]. by intros (j & _ & ?).
  - destruct b.
    + rewrite elem_of_cons, IH. split.
      * intros [->|(j & -> & Hj)]; [exists 0|exists (S j)]; split; try done; lia.
      * intros ([|j] & -> & Hj); [left; lia|right]. exists j. split; [lia|done].
    + rewrite IH. split.
      * intros (j & -> & Hj). exists (S j). split; [lia|done].
      * intros ([|j] & -> & Hj); [done|]. exists j. split; [lia|done].
Qed.

Lemma where_true_elem (mask : list bool) (g : nat) :
  g ∈ Np.where_true mask ↔ mask !! g = Some true.
Proof.
  unfold Np.where_true. rewrite where_from_elem. split.
  - by intros (j & -> & Hj).
  - intros H. by exists g.
Qed.

End Np.

(** ** Facts about binary64 arithmetic

    Derived from the specification of the primitive operations
    ([FloatAxioms]) by case analysis on the decoded operands. *)

Module F64.

Local Open Scope float_scope.

(** The shapes of a binary64 value that is neither NaN nor infinite. *)
Definition sf_zero (X : spec_float) : Prop := ∃ s, X = S754_zero s.
Definition sf_finite (X : spec_float) : Prop := sf_zero X ∨ ∃ s m e, X = S754_finite s m e.

Lemma Prim2SF_infinity : Prim2SF infinity = S754_infinity false.
Proof. reflexivity. Qed.

Lemma Prim2SF_zero : Prim2SF zero = S754_zero false.
Proof. reflexivity. Qed.

Lemma SFcompare_refl (X : spec_float) : X ≠ S754_nan → SFcompare X X = Some Eq.
Proof.
  destruct X as [s|s| |s m e]; intros H; try done; simpl.
  - by destruct s.
  - rewrite Z.compare_refl.
    change (Pos.compare_cont Eq m m) with (Pos.compare m m).
    rewrite Pos.compare_refl. by destruct s.
Qed.

Lemma SFcompare_Eq_finite s1 m1 e1 s2 m2 e2 :
  SFcompare (S754_finite s1 m1 e1) (S754_finite s2 m2 e2) = Some Eq →
  s1 = s2 ∧ m1 = m2 ∧ e1 = e2.
Proof.
  simpl. intros H. injection H as H.
  change (Pos.compare_cont Eq m1 m2) with (Pos.compare m1 m2) in H.
  destruct s1, s2; try done;
    destruct (Z.compare e1 e2) eqn:E; try done;
    apply Z.compare_eq in E; subst;
    destruct (Pos.compare m1 m2) eqn:E'; try done;
    apply Pos.compare_eq in E'; by subst.
Qed.

Lemma is_finite_spec (x : float) : is_finite x = true → sf_finite (Prim2SF x).
Proof.
  unfold is_finite, is_nan, is_infinity.
  rewrite !FloatAxioms.eqb_spec, abs_spec, Prim2SF_infinity.
  unfold sf_finite, sf_zero, SFeqb.
  destruct (Prim2SF x) as [s|s| |s m e] eqn:E.
  - intros _. left. by exists s.
  - simpl. by destruct s.
  - done.
  - intros _. right. by exists s, m, e.
Qed.

Lemma is_nonzero_spec (x : float) :
  is_finite x = true → is_zero x = false → ∃ s m e, Prim2SF x = S754_finite s m e.
Proof.
  intros Hf Hz. apply is_finite_spec in Hf as [[s Hs]|H]; [|done].
  unfold is_zero in Hz. rewrite FloatAxioms.eqb_spec, Prim2SF_zero, Hs in Hz. done.
Qed.

(** [x - y] is a zero when [x == y] are finite. *)
Lemma sub_eq_zero (x y : float) :
  is_finite x = true → (x =? y) = true → sf_zero (Prim2SF (x - y)).
Proof.
  intros Hf He. apply is_finite_spec in Hf.
  rewrite FloatAxioms.eqb_spec in He. rewrite sub_spec. unfold SFeqb in He.
  destruct (SFcompare (Prim2SF x) (Prim2SF y)) as [[| |]|] eqn:E; try done.
  unfold sf_zero.
  destruct Hf as [[s Hs]|(s & m & e & Hs)]; rewrite Hs in *.
  - destruct (Prim2SF y) as [s'|s'| |s' m' e']; simpl in E; try done.
    + simpl. destruct s, s'; eauto.
    + by destruct s'.
    + by destruct s'.
  - destruct (Prim2SF y) as [s'|s'| |s' m' e'].
    + simpl in E. by destruct s.
    + simpl in E. by destruct s'.
    + done.
    + apply SFcompare_Eq_finite in E as (-> & -> & ->).
      unfold SF64sub, SFsub. rewrite Z.sub_diag. simpl. eauto.
Qed.

Lemma sub_self_zero (x : float) : is_finite x = true → sf_zero (Prim2SF (x - x)).
Proof.
  intros Hf. apply sub_eq_zero; [done|].
  rewrite FloatAxioms.eqb_spec. unfold SFeqb. rewrite SFcompare_refl; [done|].
  apply is_finite_spec in Hf as [[s Hs]|(s & m & e & Hs)]; by rewrite Hs.
Qed.

Lemma mul_zero_r (d y : float) :
  is_finite d = true → sf_zero (Prim2SF y) → sf_zero (Prim2SF (d * y)).
Proof.
  intros Hd [s Hy]. apply is_finite_spec in Hd. rewrite mul_spec, Hy. unfold sf_zero.
  destruct Hd as [[s' ->]|(s' & m & e & ->)]; simpl; eauto.
Qed.

Lemma div_zero_l (x L : float) :
  sf_zero (Prim2SF x) → is_finite L = true → is_zero L = false →
  sf_zero (Prim2SF (x / L)).
Proof.
  intros [s Hx] Hf Hz. destruct (is_nonzero_spec L Hf Hz) as (s' & m & e & HL).
  rewrite div_spec, Hx, HL. simpl. unfold sf_zero. eauto.
Qed.

Lemma add_zero_r (a y : float) :
  is_finite a = true → sf_zero (Prim2SF y) → (a + y =? a) = true.
Proof.
  intros Ha [s Hy]. apply is_finite_spec in Ha.
  rewrite FloatAxioms.eqb_spec, add_spec, Hy. unfold SFeqb.
  destruct Ha as [[s' ->]|(s' & m & e & ->)].
  - simpl. by destruct s', s.
  - unfold SF64add, SFadd. by rewrite SFcompare_refl.
Qed.


(** Nothing is below [infinity + w]: relaxing an edge out of an unreached
    vertex never improves a distance. *)
Lemma ltb_infinity_add (w x : float) : (infinity + w <? x) = false.
Proof.
  rewrite FloatAxioms.ltb_spec, add_spec, Prim2SF_infinity. unfold SFltb.
  destruct (Prim2SF w) as [s|s| |s m e]; simpl; try done;
    try (destruct s; simpl; try done);
    destruct (Prim2SF x) as [s'|s'| |s' m' e']; simpl; try done; by destruct s'.
Qed.


(** *** The order of binary64 values

    [SFcompare] orders the values that are not NaN like the lexicographic
    order of a class number (-inf, negative, zero, positive, +inf) and,
    within the finite classes, of exponent and mantissa. *)

Definition key (X : spec_float) : Z * Z * Z :=
  match X with
  | S754_infinity true => (0, 0, 0)
  | S754_finite true m e => (1, - e, - Z.pos m)
  | S754_zero _ => (2, 0, 0)
  | S754_finite false m e => (3, e, Z.pos m)
  | S754_infinity false => (4, 0, 0)
  | S754_nan => (5, 0, 0)
  end%Z.

Definition klt (a b : Z * Z * Z) : Prop :=
  (a.1.1 < b.1.1 ∨ (a.1.1 = b.1.1 ∧ (a.1.2 < b.1.2 ∨ (a.1.2 = b.1.2 ∧ a.2 < b.2))))%Z.

Definition fkey (x : float) : Z * Z * Z := key (Prim2SF x).

Lemma klt_irrefl a : ¬ klt a a.
Proof. unfold klt. lia. Qed.

Lemma klt_trans a b c : klt a b → klt b c → klt a c.
Proof. unfold klt. lia. Qed.

Lemma klt_asym a b : klt a b → ¬ klt b a.
Proof. unfold klt. lia. Qed.

Lemma klt_total a b : klt a b ∨ a = b ∨ klt b a.
Proof.
  destruct a as [[a1 a2] a3], b as [[b1 b2] b3]. unfold klt. simpl.
  destruct (Z.lt_trichotomy a1 b1) as [?|[->|?]]; [left; lia| |right; right; lia].
  destruct (Z.lt_trichotomy a2 b2) as [?|[->|?]]; [left; lia| |right; right; lia].
  destruct (Z.lt_trichotomy a3 b3) as [?|[->|?]]; [left; lia| |right; right; lia].
  by right; left.
Qed.

Lemma SFcompare_key (X Y : spec_float) :
  X ≠ S754_nan → Y ≠ S754_nan →
  match SFcompare X Y with
  | Some Lt => klt (key X) (key Y)
  | Some Eq => key X = key Y
  | Some Gt => klt (key Y) (key X)
  | None => False
  end.
Proof.
  intros HX HY.
  destruct X as [s1|s1| |s1 m1 e1], Y as [s2|s2| |s2 m2 e2]; try done;
    try (destruct s1; simpl; unfold klt; simpl; first [done|lia]);
    try (destruct s2; simpl; unfold klt; simpl; first [done|lia]);
    try (destruct s1, s2; simpl; unfold klt; simpl; first [done|lia]).
  unfold SFcompare. change (Pos.compare_cont Eq m1 m2) with (Pos.compare m1 m2).
  destruct s1, s2; unfold klt; simpl; try lia;
    destruct (Z.compare_spec e1 e2); destruct (Pos.compare_spec m1 m2);
    simpl; subst; try done; lia.
Qed.

Lemma is_nan_spec (x : float) : is_nan x = false ↔ Prim2SF x ≠ S754_nan.
Proof.
  unfold is_nan. rewrite FloatAxioms.eqb_spec. unfold SFeqb. split.
  - intros H E. by rewrite E in H.
  - intros H. by rewrite SFcompare_refl.
Qed.

Lemma ltb_key (x y : float) :
  (x <? y) = true ↔ is_nan x = false ∧ is_nan y = false ∧ klt (fkey x) (fkey y).
Proof.
  rewrite FloatAxioms.ltb_spec, !is_nan_spec. unfold SFltb, fkey. split.
  - intros H.
    assert (Prim2SF x ≠ S754_nan ∧ Prim2SF y ≠ S754_nan) as [Hx Hy].
    { split; intros E; rewrite E in H; [done|]. by destruct (Prim2SF x). }
    pose proof (SFcompare_key _ _ Hx Hy) as K.
    by destruct (SFcompare (Prim2SF x) (Prim2SF y)) as [[]|].
  - intros (Hx & Hy & Hk). pose proof (SFcompare_key _ _ Hx Hy) as K.
    destruct (SFcompare (Prim2SF x) (Prim2SF y)) as [[]|]; try done.
    + rewrite K in Hk. by apply klt_irrefl in Hk.
    + by apply klt_asym in Hk.
Qed.

Lemma eqb_key (x y : float) :
  (x =? y) = true ↔ is_nan x = false ∧ is_nan y = false ∧ fkey x = fkey y.
Proof.
  rewrite FloatAxioms.eqb_spec, !is_nan_spec. unfold SFeqb, fkey. split.
  - intros H.
    assert (Prim2SF x ≠ S754_nan ∧ Prim2SF y ≠ S754_nan) as [Hx Hy].
    { split; intros E; rewrite E in H; [done|]. by destruct (Prim2SF x). }
    pose proof (SFcompare_key _ _ Hx Hy) as K.
    by destruct (SFcompare (Prim2SF x) (Prim2SF y)) as [[]|].
  - intros (Hx & Hy & Hk). pose proof (SFcompare_key _ _ Hx Hy) as K.
    destruct (SFcompare (Prim2SF x) (Prim2SF y)) as [[]|]; try done.
    + rewrite Hk in K. by apply klt_irrefl in K.
    + rewrite Hk in K. by apply klt_irrefl in K.
Qed.

Lemma leb_ltb_eqb (x y : float) : (x <=? y) = ((x <? y) || (x =? y)).
Proof.
  rewrite FloatAxioms.leb_spec, FloatAxioms.ltb_spec, FloatAxioms.eqb_spec.
  unfold SFleb, SFltb, SFeqb. by destruct (SFcompare _ _) as [[]|].
Qed.

Lemma leb_key (x y : float) :
  (x <=? y) = true ↔
  is_nan x = false ∧ is_nan y = false ∧ (klt (fkey x) (fkey y) ∨ fkey x = fkey y).
Proof.
  rewrite leb_ltb_eqb, orb_true_iff, ltb_key, eqb_key. tauto.
Qed.

End F64.

(** ** The Region Extractor's flood fill ([_extract_region_from_boundary]) *)

Module Region.

Section FloodFill.

Variable faces : list (list nat).
Variable boundary_edges : list (list nat).
Variable new_face_start_inds : list nat.
Variable neighbor_faces : list nat.

(** The state of the [while active_list] loop.  [active_list] is kept top
    first: [pop()] takes the head and [append] conses. *)
Record state : Type := State {
  visited_cells : list bool;
  active_list : list nat;
}.

(** The inner [for boundary_edge in boundary_edges] search with its
    [break] and [else]; [shared_edge] is indexed only inside the loop, and
    [shared_edge[1]] only when [shared_edge[0]] was found in the edge. *)
Fixpoint is_boundary_from (shared_edge : list nat) (edges : list (list nat)) : result bool :=
  match edges with
  | [] => Ok false
  | boundary_edge :: rest =>
      s0 ← Np.item shared_edge 0;
      if Np.contains s0 boundary_edge then
        s1 ← Np.item shared_edge 1;
        if Np.contains s1 boundary_edge then Ok true
        else is_boundary_from shared_edge rest
      else is_boundary_from shared_edge rest
  end.

Definition is_boundary (current_cell neighbor_cell : list nat) : result bool :=
  is_boundary_from (Np.intersect1d current_cell neighbor_cell) boundary_edges.

(** One turn of [for i in range(start_ind, end_ind)]. *)
Definition visit_neighbor (current_cell : list nat) (visited : list bool)
    (active : list nat) (i : nat) : result (list nat) :=
  neighbor_cell_ind ← Np.item neighbor_faces i;
  neighbor_cell ← Np.item faces neighbor_cell_ind;
  boundary ← is_boundary current_cell neighbor_cell;
  if (boundary : bool) then Ok active
  else
    seen ← Np.item visited neighbor_cell_ind;
    if (seen : bool) then Ok active else Ok (neighbor_cell_ind :: active).

Fixpoint visit_neighbors (current_cell : list nat) (visited : list bool)
    (active : list nat) (range : list nat) : result (list nat) :=
  match range with
  | [] => Ok active
  | i :: rest =>
      active' ← visit_neighbor current_cell visited active i;
      visit_neighbors current_cell visited active' rest
  end.

(** [range(start_ind, end_ind)]. *)
Definition py_range (start_ind end_ind : nat) : list nat :=
  seq start_ind (end_ind - start_ind).

(** The body of the [while] loop for the popped [current_cell_ind]. *)
Definition loop_body (current_cell_ind : nat) (visited : list bool) (active : list nat)
    : result state :=
  current_cell ← Np.item faces current_cell_ind;
  _ ← Np.item visited current_cell_ind;
  let visited := <[current_cell_ind := true]> visited in
  start_ind ← Np.item new_face_start_inds current_cell_ind;
  end_ind ← (if current_cell_ind + 1 <? length new_face_start_inds
             then Np.item new_face_start_inds (current_cell_ind + 1)
             else Ok (length neighbor_faces));
  active ← visit_neighbors current_cell visited active (py_range start_ind end_ind);
  Ok (State visited active).

(** The [while] loop run for at most [fuel] turns: [None] means the loop is
    still running after [fuel] turns. *)
Fixpoint flood_loop (fuel : nat) (st : state) : option (result (list bool)) :=
  match active_list st with
  | [] => Some (Ok (visited_cells st))
  | current_cell_ind :: active =>
      match fuel with
      | 0 => None
      | S fuel' =>
          match loop_body current_cell_ind (visited_cells st) active with
          | Raise e => Some (Raise e)
          | Ok st' => flood_loop fuel' st'
          end
      end
  end.

Definition initial_state (seed_ind : nat) : state :=
  State (replicate (length new_face_start_inds) false) [seed_ind].

(** [_extract_region_from_boundary], run for at most [fuel] turns of its
    loop. *)
Definition extract_region_from_boundary (fuel : nat) (seed_ind : nat)
    : option (result (list nat)) :=
  r ← flood_loop fuel (initial_state seed_ind);
  Some (visited ← r; Ok (Np.where_true visited)).

(** *** What the loop is measured against *)

(** Number of faces not yet visited. *)
Definition unvisited (visited : list bool) : nat :=
  length (filter (λ b, b = false) visited).

(** 1 when the face on top of the frontier is already visited. *)
Definition top_visited (st : state) : nat :=
  match active_list st with
  | f :: _ => match visited_cells st !! f with Some true => 1 | _ => 0 end
  | [] => 0
  end.

(** The work left: every turn pops one entry; a turn that pushes entries
    either visits a new face or is followed by one that does. *)
Definition potential (st : state) : nat :=
  length (active_list st)
  + 2 * length neighbor_faces * unvisited (visited_cells st)
  + length neighbor_faces * top_visited st.

(** The bound on the number of turns of the loop. *)
Definition iteration_bound : nat :=
  1 + 2 * length neighbor_faces * length new_face_start_inds.

(** [g] is listed as a neighbour of [f] in the adjacency arrays. *)
Definition adjacent (f g : nat) : Prop :=
  ∃ start_ind end_ind i,
    new_face_start_inds !! f = Some start_ind
    ∧ (if f + 1 <? length new_face_start_inds
       then new_face_start_inds !! (f + 1) = Some end_ind
       else end_ind = length neighbor_faces)
    ∧ start_ind ≤ i < end_ind
    ∧ neighbor_faces !! i = Some g.

(** The edge shared by two faces is an edge of the boundary loop: its two
    vertices (the first two common vertices) both lie on one row of
    [boundary_edges]. *)
Definition shared_edge_on_boundary (f g : nat) : Prop :=
  ∃ cf cg u v boundary_edge,
    faces !! f = Some cf ∧ faces !! g = Some cg
    ∧ Np.intersect1d cf cg !! 0 = Some u ∧ Np.intersect1d cf cg !! 1 = Some v
    ∧ boundary_edge ∈ boundary_edges ∧ u ∈ boundary_edge ∧ v ∈ boundary_edge.

(** One step of a chain of face adjacencies that crosses no boundary-loop
    edge. *)
Definition crosses_freely (f g : nat) : Prop :=
  adjacent f g ∧ ¬ shared_edge_on_boundary f g.


(** The visited faces are closed under free crossings, up to the faces that
    still wait on the frontier; the seed is visited or waits. *)
Definition closure_invariant (seed_ind : nat) (st : state) : Prop :=
  (visited_cells st !! seed_ind = Some true ∨ seed_ind ∈ active_list st)
  ∧ ∀ f g, visited_cells st !! f = Some true → crosses_freely f g →
           visited_cells st !! g = Some true ∨ g ∈ active_list st.

(** *** Facts about the loop *)

Lemma is_boundary_from_false (shared : list nat) (edges : list (list nat)) :
  is_boundary_from shared edges = Ok false →
  ∀ u v e, shared !! 0 = Some u → shared !! 1 = Some v → e ∈ edges →
           ¬ (u ∈ e ∧ v ∈ e).
Proof.
  induction edges as [|e0 edges IH]; intros H u v e Hu Hv He [Hue Hve].
  - by apply elem_of_nil in He.
  - simpl in H. apply Np.item_Ok in Hu, Hv. rewrite Hu in H. cbn [mbind result_bind bind] in H.
    apply elem_of_cons in He as [->|He].
    + apply Np.np_contains_elem_of in Hue, Hve. rewrite Hue, Hv in H.
      cbn [mbind result_bind bind] in H. by rewrite Hve in H.
    + apply Np.item_Ok in Hu, Hv.
      destruct (Np.contains u e0).
      * rewrite (proj2 (Np.item_Ok _ _ _) Hv) in H. cbn [mbind result_bind bind] in H.
        destruct (Np.contains v e0); [done|]. by eapply IH.
      * by eapply IH.
Qed.

Lemma visit_neighbor_Ok cell visited active i active' :
  visit_neighbor cell visited active i = Ok active' →
  i < length neighbor_faces ∧
  (active' = active ∨
   ∃ g cg, active' = g :: active ∧ neighbor_faces !! i = Some g
           ∧ visited !! g = Some false ∧ faces !! g = Some cg
           ∧ is_boundary cell cg = Ok false).
Proof.
  unfold visit_neighbor. intros H.
  apply bind_Ok in H as (g & Hg & H). apply Np.item_Ok in Hg.
  split; [by eapply lookup_lt_Some|].
  apply bind_Ok in H as (cg & Hcg & H). apply Np.item_Ok in Hcg.
  apply bind_Ok in H as (b & Hb & H).
  destruct b; [left; by inversion H|].
  apply bind_Ok in H as (seen & Hseen & H). apply Np.item_Ok in Hseen.
  destruct seen; [left; by inversion H|].
  right. exists g, cg. by inversion H.
Qed.

Lemma visit_neighbors_Ok cell visited range : ∀ active active',
  visit_neighbors cell visited active range = Ok active' →
  Forall (λ i, i < length neighbor_faces) range ∧
  ∃ pushed, active' = pushed ++ active ∧ length pushed ≤ length range
    ∧ Forall (λ g, visited !! g = Some false
                   ∧ ∃ i cg, i ∈ range ∧ neighbor_faces !! i = Some g
                             ∧ faces !! g = Some cg
                             ∧ is_boundary cell cg = Ok false) pushed.
Proof.
  induction range as [|i range IH]; intros active active' H; simpl in H.
  - inversion H; subst. split; [constructor|]. exists []. repeat split; [simpl; lia|constructor].
  - apply bind_Ok in H as (a1 & H1 & H).
    apply visit_neighbor_Ok in H1 as [Hi H1].
    destruct (IH _ _ H) as (Hall & pushed & -> & Hlen & Hp).
    split; [by constructor|].
    assert (Forall (λ g, visited !! g = Some false
                   ∧ ∃ i0 cg, i0 ∈ i :: range ∧ neighbor_faces !! i0 = Some g
                             ∧ faces !! g = Some cg
                             ∧ is_boundary cell cg = Ok false) pushed) as Hp'.
    { eapply Forall_impl; [exact Hp|]. intros g (? & i0 & cg & ? & ?).
      split; [done|]. exists i0, cg. split; [by right|done]. }
    destruct H1 as [->|(g & cg & -> & Hg & Hv & Hcg & Hb)].
    + exists pushed. repeat split; [simpl; lia|done].
    + exists (pushed ++ [g]). rewrite <- app_assoc. repeat split.
      * rewrite length_app. simpl. lia.
      * apply Forall_app. split; [done|]. constructor; [|constructor].
        split; [done|]. exists i, cg. split; [left|done].
Qed.

Lemma py_range_bound (start_ind end_ind : nat) :
  Forall (λ i, i < length neighbor_faces) (py_range start_ind end_ind) →
  length (py_range start_ind end_ind) ≤ length neighbor_faces.
Proof.
  unfold py_range. rewrite length_seq. intros H.
  destruct (decide (end_ind - start_ind = 0)) as [->|Hne]; [lia|].
  rewrite Forall_forall in H.
  assert (end_ind - 1 < length neighbor_faces); [|lia].
  apply H. apply elem_of_seq. lia.
Qed.

(** What one turn of the loop does: it pops [f], marks it visited and
    pushes neighbours that are unvisited and lie across an edge that is not
    on the boundary loop. *)
Lemma loop_body_Ok (f : nat) (visited : list bool) (active : list nat) (st' : state) :
  loop_body f visited active = Ok st' →
  ∃ b pushed,
    visited !! f = Some b
    ∧ visited_cells st' = <[f := true]> visited
    ∧ active_list st' = pushed ++ active
    ∧ length pushed ≤ length neighbor_faces
    ∧ Forall (λ g, visited_cells st' !! g = Some false ∧ crosses_freely f g) pushed.
Proof.
  unfold loop_body. intros H.
  apply bind_Ok in H as (cell & Hcell & H). apply Np.item_Ok in Hcell.
  apply bind_Ok in H as (b & Hb & H). apply Np.item_Ok in Hb.
  apply bind_Ok in H as (start_ind & Hs & H). apply Np.item_Ok in Hs.
  apply bind_Ok in H as (end_ind & He & H).
  apply bind_Ok in H as (active' & Ha & H). inversion H; subst; clear H. simpl.
  apply visit_neighbors_Ok in Ha as (Hrange & pushed & -> & Hlen & Hp).
  exists b, pushed. repeat split; try done.
  - etrans; [exact Hlen|]. by apply py_range_bound.
  - eapply Forall_impl; [exact Hp|]. intros g (Hv & i & cg & Hi & Hg & Hcg & Hbd).
    split; [done|]. split.
    + exists start_ind, end_ind, i. split; [done|]. split.
      * destruct (f + 1 <? length new_face_start_inds); [by apply Np.item_Ok|by inversion He].
      * split; [|done]. unfold py_range in Hi. apply elem_of_seq in Hi. lia.
    + intros (cf & cg' & u & v & e & Hcf & Hcg' & Hu & Hv' & He' & Hue & Hve).
      assert (cf = cell) as -> by congruence.
      assert (cg' = cg) as -> by congruence.
      by eapply is_boundary_from_false.
Qed.

Lemma unvisited_insert_true (visited : list bool) (f : nat) :
  visited !! f = Some false →
  S (unvisited (<[f := true]> visited)) = unvisited visited.
Proof.
  unfold unvisited. revert f. induction visited as [|b visited IH]; intros f H; [done|].
  destruct f as [|f]; simpl in H.
  - inversion H; subst. change (<[0:=true]> (false :: visited)) with (true :: visited).
    rewrite filter_cons_False by done. by rewrite filter_cons_True.
  - change (<[S f:=true]> (b :: visited)) with (b :: <[f:=true]> visited).
    destruct b.
    + rewrite !filter_cons_False by done. by apply IH.
    + rewrite !filter_cons_True by done. simpl. f_equal. by apply IH.
Qed.

Lemma unvisited_replicate (n : nat) : unvisited (replicate n false) = n.
Proof.
  unfold unvisited. induction n as [|n IH]; [done|].
  cbn [replicate]. rewrite filter_cons_True by done. simpl. by rewrite IH.
Qed.

(** Every turn of the loop lowers the potential. *)
Lemma potential_decreases (f : nat) (visited : list bool) (active : list nat) (st' : state) :
  loop_body f visited active = Ok st' →
  potential st' < potential (State visited (f :: active)).
Proof.
  intros H. apply loop_body_Ok in H as (b & pushed & Hf & Hv & Ha & Hlen & Hp).
  unfold potential, top_visited. cbn [active_list visited_cells].
  rewrite Hf, Ha, Hv, length_app.
  set (N := length neighbor_faces) in *.
  assert (match (pushed ++ active) with
          | g :: _ => match <[f := true]> visited !! g with Some true => 1 | _ => 0 end
          | [] => 0
          end ≤ (if decide (pushed = []) then 1 else 0)) as Htop.
  { destruct pushed as [|g pushed]; simpl.
    - destruct active; [lia|]. by repeat case_match; lia.
    - apply Forall_cons in Hp as [[Hg _] _]. rewrite Hv in Hg. by rewrite Hg. }
  destruct b.
  - rewrite list_insert_id by done. rewrite list_insert_id in Htop by done.
    destruct (decide (pushed = [])) as [->|Hne]; simpl in *; [nia|].
    nia.
  - rewrite <- (unvisited_insert_true visited f Hf).
    destruct (decide (pushed = [])) as [->|Hne]; simpl in *; nia.
Qed.

(** The loop stops within [fuel] turns as soon as [fuel] covers the
    potential. *)
Lemma flood_loop_fuel (fuel : nat) : ∀ st,
  potential st ≤ fuel → is_Some (flood_loop fuel st).
Proof.
  induction fuel as [|fuel IH]; intros [visited active] Hpot.
  - destruct active as [|f active]; [by eexists|].
    unfold potential in Hpot. simpl in Hpot. lia.
  - destruct active as [|f active]; [by eexists|]. simpl.
    destruct (loop_body f visited active) as [st'|e] eqn:E; [|by eexists].
    apply IH. apply potential_decreases in E. lia.
Qed.

Lemma potential_initial (seed_ind : nat) :
  potential (initial_state seed_ind) = iteration_bound.
Proof.
  unfold potential, initial_state, iteration_bound, top_visited.
  cbn [active_list visited_cells]. rewrite unvisited_replicate.
  destruct (replicate (length new_face_start_inds) false !! seed_ind) as [b|] eqn:E.
  - apply lookup_replicate in E as [-> _]. simpl. lia.
  - simpl. lia.
Qed.

Lemma flood_loop_more_fuel (n : nat) : ∀ m st r,
  flood_loop n st = Some r → n ≤ m → flood_loop m st = Some r.
Proof.
  induction n as [|n IH]; intros m [visited active] r H Hle.
  - destruct active; [|done]. by destruct m.
  - destruct active as [|f active]; [by destruct m|].
    destruct m as [|m]; [lia|]. simpl in *.
    destruct (loop_body f visited active); [|done]. apply IH; [done|lia].
Qed.

Lemma loop_body_monotone (f : nat) (visited : list bool) (active : list nat) (st' : state) :
  loop_body f visited active = Ok st' →
  ∀ i, visited !! i = Some true → visited_cells st' !! i = Some true.
Proof.
  intros H i Hi. apply loop_body_Ok in H as (b & pushed & Hf & -> & _).
  destruct (decide (f = i)) as [->|Hne].
  - rewrite list_lookup_insert_eq; [done|]. by eapply lookup_lt_Some.
  - by rewrite list_lookup_insert_ne.
Qed.





(** C9: the flood-fill loop stops within [iteration_bound] turns (more fuel
    changes nothing); each turn pops one face and pushes only faces that are
    unvisited, marks are never cleared, and the potential (frontier length
    plus a weight per unvisited face) falls at every turn. *)
Theorem flood_fill_terminates (seed_ind : nat) :
  (∃ r, extract_region_from_boundary iteration_bound seed_ind = Some r
        ∧ ∀ fuel, iteration_bound ≤ fuel →
                  extract_region_from_boundary fuel seed_ind = Some r)
  ∧ (∀ f visited active st',
       loop_body f visited active = Ok st' →
       (∃ pushed, active_list st' = pushed ++ active
                  ∧ Forall (λ g, visited_cells st' !! g = Some false) pushed)
       ∧ (∀ i, visited !! i = Some true → visited_cells st' !! i = Some true)
       ∧ unvisited (visited_cells st') ≤ unvisited visited
       ∧ potential st' < potential (State visited (f :: active))).
Proof.
  split.
  - destruct (flood_loop_fuel iteration_bound (initial_state seed_ind)) as [r Hr].
    { by rewrite potential_initial. }
    unfold extract_region_from_boundary. rewrite Hr. eexists. split; [done|].
    intros fuel Hle. by rewrite (flood_loop_more_fuel _ _ _ _ Hr Hle).
  - intros f visited active st' H. repeat split.
    + apply loop_body_Ok in H as (b & pushed & _ & _ & Ha & _ & Hp).
      exists pushed. split; [done|]. eapply Forall_impl; [exact Hp|]. by intros g [? _].
    + by eapply loop_body_monotone.
    + apply loop_body_Ok in H as (b & pushed & Hf & -> & _). destruct b.
      * by rewrite list_insert_id.
      * rewrite <- (unvisited_insert_true visited f Hf). lia.
    + by apply potential_decreases.
Qed.

(** *** The fill reaches every face it can *)

Lemma is_boundary_from_true (shared : list nat) (edges : list (list nat)) :
  is_boundary_from shared edges = Ok true →
  ∃ u v e, shared !! 0 = Some u ∧ shared !! 1 = Some v ∧ e ∈ edges ∧ u ∈ e ∧ v ∈ e.
Proof.
  induction edges as [|e0 edges IH]; intros H; [done|].
  cbn [is_boundary_from] in H.
  apply bind_Ok in H as (u & Hu & H). apply Np.item_Ok in Hu.
  assert (Hrest : is_boundary_from shared edges = Ok true →
                  ∃ u v e, shared !! 0 = Some u ∧ shared !! 1 = Some v
                           ∧ e ∈ e0 :: edges ∧ u ∈ e ∧ v ∈ e).
  { intros Hr. destruct (IH Hr) as (u' & v' & e & ? & ? & ? & ? & ?).
    exists u', v', e. split_and!; try done. by right. }
  destruct (Np.contains u e0) eqn:Eu; [|by apply Hrest].
  apply bind_Ok in H as (v & Hv & H). apply Np.item_Ok in Hv.
  destruct (Np.contains v e0) eqn:Ev; [|by apply Hrest].
  apply Np.np_contains_elem_of in Eu, Ev.
  exists u, v, e0. split_and!; try done. by left.
Qed.

Lemma visit_neighbor_grows cell visited active i active' :
  visit_neighbor cell visited active i = Ok active' →
  (∀ g, g ∈ active → g ∈ active')
  ∧ ∀ g, neighbor_faces !! i = Some g →
         ∃ cg, faces !! g = Some cg
               ∧ (is_boundary cell cg = Ok true
                  ∨ visited !! g = Some true ∨ g ∈ active').
Proof.
  unfold visit_neighbor. intros H.
  apply bind_Ok in H as (g0 & Hg0 & H). apply Np.item_Ok in Hg0.
  apply bind_Ok in H as (cg & Hcg & H). apply Np.item_Ok in Hcg.
  apply bind_Ok in H as (b & Hb & H).
  destruct b.
  - injection H as <-. split; [done|]. intros g Hg.
    assert (g = g0) as -> by congruence. exists cg. split; [done|by left].
  - apply bind_Ok in H as (seen & Hseen & H). apply Np.item_Ok in Hseen.
    destruct seen; injection H as <-.
    + split; [done|]. intros g Hg. assert (g = g0) as -> by congruence.
      exists cg. split; [done|]. right. by left.
    + split; [intros g Hg; by right|]. intros g Hg.
      assert (g = g0) as -> by congruence.
      exists cg. split; [done|]. right. right. by left.
Qed.

Lemma visit_neighbors_grows cell visited range : ∀ active active',
  visit_neighbors cell visited active range = Ok active' →
  (∀ g, g ∈ active → g ∈ active')
  ∧ ∀ i g, i ∈ range → neighbor_faces !! i = Some g →
           ∃ cg, faces !! g = Some cg
                 ∧ (is_boundary cell cg = Ok true
                    ∨ visited !! g = Some true ∨ g ∈ active').
Proof.
  induction range as [|i range IH]; intros active active' H; cbn [visit_neighbors] in H.
  - injection H as <-. split; [done|]. intros i g Hi. by apply elem_of_nil in Hi.
  - apply bind_Ok in H as (a1 & H1 & H).
    apply visit_neighbor_grows in H1 as [Hsub1 Hi].
    destruct (IH _ _ H) as [Hsub Hrest].
    split; [intros g Hg; by apply Hsub, Hsub1|].
    intros j g Hj Hg. apply elem_of_cons in Hj as [->|Hj]; [|by eapply Hrest].
    destruct (Hi g Hg) as (cg & Hcg & [Hb|[Hv|Ha]]); exists cg; split; try done.
    + by left.
    + right. by left.
    + right. right. by apply Hsub.
Qed.

(** After a turn of the loop every neighbour of the popped face across a
    free edge is visited or waits on the frontier. *)
Lemma loop_body_reaches (f : nat) (visited : list bool) (active : list nat) (st' : state) :
  loop_body f visited active = Ok st' →
  (∀ g, g ∈ active → g ∈ active_list st')
  ∧ ∀ g, crosses_freely f g →
         visited_cells st' !! g = Some true ∨ g ∈ active_list st'.
Proof.
  unfold loop_body. intros H.
  apply bind_Ok in H as (cell & Hcell & H). apply Np.item_Ok in Hcell.
  apply bind_Ok in H as (b & Hb & H). apply Np.item_Ok in Hb.
  apply bind_Ok in H as (start_ind & Hs & H). apply Np.item_Ok in Hs.
  apply bind_Ok in H as (end_ind & He & H).
  apply bind_Ok in H as (active' & Ha & H). injection H as <-.
  cbn [visited_cells active_list].
  apply visit_neighbors_grows in Ha as [Hsub Hall]. split; [done|].
  intros g [(s & e & i & Hs' & He' & Hi & Hg) Hfree].
  assert (s = start_ind) as -> by congruence.
  assert (e = end_ind) as ->.
  { destruct (f + 1 <? length new_face_start_inds).
    - apply Np.item_Ok in He. congruence.
    - by injection He as <-. }
  destruct (Hall i g) as (cg & Hcg & [Hbd|H]); [|done| |done].
  { unfold py_range. apply elem_of_seq. lia. }
  exfalso. apply Hfree. apply is_boundary_from_true in Hbd as (u & v & be & ? & ? & ? & ? & ?).
  by exists cell, cg, u, v, be.
Qed.

Lemma loop_body_closure (seed_ind f : nat) (visited : list bool) (active : list nat)
    (st' : state) :
  closure_invariant seed_ind (State visited (f :: active)) →
  loop_body f visited active = Ok st' →
  closure_invariant seed_ind st'.
Proof.
  intros [Hseed Hclosed] H. cbn [visited_cells active_list] in *.
  pose proof (loop_body_reaches _ _ _ _ H) as [Hsub Hreach].
  pose proof (loop_body_monotone _ _ _ _ H) as Hmono.
  apply loop_body_Ok in H as (b & pushed & Hf & Hv & Ha & _).
  assert (Hnow : visited_cells st' !! f = Some true).
  { rewrite Hv. apply list_lookup_insert_eq. by eapply lookup_lt_Some. }
  assert (Hkeep : ∀ g, visited !! g = Some true ∨ g ∈ f :: active →
                       visited_cells st' !! g = Some true ∨ g ∈ active_list st').
  { intros g [Hg|Hg]; [left; by apply Hmono|].
    apply elem_of_cons in Hg as [->|Hg]; [by left|right; by apply Hsub]. }
  split; [by apply Hkeep|].
  intros x g Hx Hfree. destruct (decide (x = f)) as [->|Hne]; [by apply Hreach|].
  apply Hkeep, (Hclosed x g); [|done].
  rewrite Hv, list_lookup_insert_ne in Hx; done.
Qed.

Lemma flood_loop_closure (seed_ind fuel : nat) : ∀ st visited,
  closure_invariant seed_ind st →
  flood_loop fuel st = Some (Ok visited) →
  ∀ g, rtc crosses_freely seed_ind g → visited !! g = Some true.
Proof.
  induction fuel as [|fuel IH]; intros [vis active] visited Hinv H.
  - destruct active; [|done]. cbn in H. injection H as <-.
    destruct Hinv as [Hseed Hclosed]. cbn [visited_cells active_list] in *.
    intros g Hg. apply (rtc_ind_r (R := crosses_freely) (λ g, vis !! g = Some true) seed_ind);
      [| |exact Hg].
    + destruct Hseed as [?|Hin]; [done|]. by apply elem_of_nil in Hin.
    + intros y z _ Hyz Hy.
      destruct (Hclosed _ _ Hy Hyz) as [?|Hin]; [done|]. by apply elem_of_nil in Hin.
  - destruct active as [|f active].
    + apply (IH (State vis []) visited Hinv). by destruct fuel.
    + cbn [flood_loop active_list visited_cells] in H.
      destruct (loop_body f vis active) as [st'|e] eqn:E; [|done].
      apply (IH st' visited); [|done]. by eapply loop_body_closure.
Qed.

Lemma initial_closure (seed_ind : nat) :
  closure_invariant seed_ind (initial_state seed_ind).
Proof.
  split; cbn [initial_state visited_cells active_list].
  - right. by left.
  - intros f g Hf. by apply lookup_replicate in Hf as [? _].
Qed.

(** A run of the fill that ends without an error returns every face that a
    chain of free crossings joins to the seed face, the seed face first of
    all: together with the chain property of the returned faces, the result
    is exactly the set of faces reachable from the seed without crossing the
    boundary loop. *)
Theorem flood_fill_reaches_every_free_face (fuel seed_ind : nat) (cells : list nat) :
  extract_region_from_boundary fuel seed_ind = Some (Ok cells) →
  seed_ind ∈ cells ∧ ∀ g, rtc crosses_freely seed_ind g → g ∈ cells.
Proof.
  unfold extract_region_from_boundary. intros H.
  destruct (flood_loop fuel (initial_state seed_ind)) as [[visited|e]|] eqn:E; [|done..].
  cbn in H. injection H as <-.
  assert (Hall : ∀ g, rtc crosses_freely seed_ind g → g ∈ Np.where_true visited).
  { intros g Hg. apply Np.where_true_elem.
    by apply (flood_loop_closure seed_ind fuel _ visited (initial_closure seed_ind) E). }
  split; [apply Hall, rtc_refl|exact Hall].
Qed.

Lemma where_from_sorted (mask : list bool) (i : nat) :
  StronglySorted lt (Np.where_from i mask)
  ∧ Forall (λ g, i ≤ g < i + length mask) (Np.where_from i mask).
Proof.
  revert i. induction mask as [|b mask IH]; intros i; cbn [Np.where_from].
  - split; constructor.
  - destruct (IH (S i)) as [Hs Hb].
    assert (Hb' : Forall (λ g, i ≤ g < i + length (b :: mask)) (Np.where_from (S i) mask)).
    { eapply Forall_impl; [exact Hb|]. cbn [length]. intros g. cbn. lia. }
    destruct b; [|done]. split.
    + constructor; [done|]. eapply Forall_impl; [exact Hb|]. intros g. cbn. lia.
    + constructor; [cbn [length]; lia|done].
Qed.

Lemma flood_loop_length (fuel : nat) : ∀ st visited,
  flood_loop fuel st = Some (Ok visited) →
  length visited = length (visited_cells st).
Proof.
  induction fuel as [|fuel IH]; intros [vis active] visited H.
  - destruct active; [|done]. cbn in H. by injection H as <-.
  - destruct active as [|f active].
    + cbn in H. by injection H as <-.
    + cbn [flood_loop active_list visited_cells] in H.
      destruct (loop_body f vis active) as [st'|e] eqn:E; [|done].
      rewrite (IH _ _ H). apply loop_body_Ok in E as (b & pushed & _ & -> & _).
      by rewrite length_insert.
Qed.

(** The returned face indices are in strictly ascending order, so without
    repetition, and each is below the number of faces that the adjacency
    arrays describe. *)
Theorem flood_fill_result_ascending (fuel seed_ind : nat) (cells : list nat) :
  extract_region_from_boundary fuel seed_ind = Some (Ok cells) →
  StronglySorted lt cells ∧ NoDup cells
  ∧ Forall (λ g, g < length new_face_start_inds) cells.
Proof.
  unfold extract_region_from_boundary. intros H.
  destruct (flood_loop fuel (initial_state seed_ind)) as [[visited|e]|] eqn:E; [|done..].
  cbn in H. injection H as <-.
  apply flood_loop_length in E. cbn [initial_state visited_cells] in E.
  rewrite length_replicate in E.
  destruct (where_from_sorted visited 0) as [Hs Hb]. fold (Np.where_true visited) in Hs, Hb.
  split_and!; [done| |].
  - clear Hb. induction Hs as [|g l _ IH Hg]; constructor; [|done].
    intros Hin. rewrite Forall_forall in Hg. specialize (Hg g Hin). lia.
  - eapply Forall_impl; [exact Hb|]. intros g. cbn. lia.
Qed.

End FloodFill.

(** A tetrahedron: four faces, each adjacent to the other three; the
    boundary loop is the vertex cycle 0-1-2 around face 0. *)
Definition tetra_faces : list (list nat) := [[0; 1; 2]; [0; 1; 3]; [0; 2; 3]; [1; 2; 3]].
Definition tetra_loop : list (list nat) := [[0; 1]; [1; 2]; [2; 0]].
Definition tetra_starts : list nat := [0; 3; 6; 9].
Definition tetra_neighbors : list nat := [1; 2; 3; 0; 2; 3; 0; 1; 3; 0; 1; 2].


(** Seeded inside the loop, the fill stays on face 0; seeded outside, it
    takes the three other faces. *)
Lemma tetra_regions :
  extract_region_from_boundary tetra_faces tetra_loop tetra_starts tetra_neighbors
    (iteration_bound tetra_starts tetra_neighbors) 0 = Some (Ok [0])
  ∧ extract_region_from_boundary tetra_faces tetra_loop tetra_starts tetra_neighbors
      (iteration_bound tetra_starts tetra_neighbors) 1 = Some (Ok [1; 2; 3]).
Proof. split; vm_compute; reflexivity. Qed.

Lemma flood_fill_reaches_every_free_face_witness :
  1 ∈ [1; 2; 3]
  ∧ ∀ g, rtc (crosses_freely tetra_faces tetra_loop tetra_starts tetra_neighbors) 1 g →
         g ∈ [1; 2; 3].
Proof.
  apply (flood_fill_reaches_every_free_face tetra_faces tetra_loop tetra_starts
           tetra_neighbors 16 1 [1; 2; 3]).
  vm_compute. reflexivity.
Defined.

Lemma flood_fill_result_ascending_witness :
  StronglySorted lt [1; 2; 3] ∧ NoDup [1; 2; 3]
  ∧ Forall (λ g, g < length tetra_starts) [1; 2; 3].
Proof.
  apply (flood_fill_result_ascending tetra_faces tetra_loop tetra_starts
           tetra_neighbors 16 1 [1; 2; 3]).
  vm_compute. reflexivity.
Defined.

End Region.

(** ** The Path Parameterizer ([parameterize_path]) *)

Module Parameterizer.

(** A vertex position; [mesh.points] is the list of positions by vertex
    index, taken as [float64] values. *)
Definition point : Type := float * float * float.

Record ParameterizedPath : Type := {
  inds : list nat;
  relative_lengths : list float;
}.

(** *** [_reorder_path_by_markers] *)

(** [np.where(path == x)[0]]. *)
Definition where_eq (path : list nat) (x : nat) : list nat :=
  Np.where_true (map (Nat.eqb x) path).

(** [np.roll(a, shift)] on a one-dimensional array; an array of shifts is
    added up first. *)
Definition roll {A} (a : list A) (shift : Z) : list A :=
  rotate (Z.to_nat ((- shift) `mod` Z.of_nat (length a))) a.

(** [np.where(path == x)[0][0]]. *)
Definition first_index (path : list nat) (x : nat) : result nat :=
  Np.item (where_eq path x) 0.

(** [np.argsort]: the positions of the keys in ascending key order, equal
    keys kept in their original order. *)
Fixpoint insert_by {K} (lt : K → K → bool) (x : K * nat) (l : list (K * nat))
    : list (K * nat) :=
  match l with
  | [] => [x]
  | y :: l' => if lt x.1 y.1 then x :: y :: l' else y :: insert_by lt x l'
  end.

Definition argsort {K} (lt : K → K → bool) (keys : list K) : list nat :=
  (foldl (λ acc x, insert_by lt x acc) [] (zip keys (seq 0 (length keys)))).*2.

Definition reorder_path_by_markers
    (path : list nat) (marker_inds : list nat) (marker_values : list float)
    : result (list nat * list nat) :=
  first_marker ← Np.item marker_inds 0;
  let relative_start_ind_location := where_eq path first_marker in
  let ordered_path := roll path (- Z.of_nat (sum_list relative_start_ind_location)) in
  relative_marker_inds ← mapM (first_index ordered_path) marker_inds;
  let marker_ind_order := argsort Nat.ltb relative_marker_inds in
  let marker_values_order := argsort PrimFloat.ltb marker_values in
  if bool_decide (marker_ind_order = marker_values_order)
  then Ok (ordered_path, relative_marker_inds)
  else
    let ordered_path := roll (reverse ordered_path) 1 in
    relative_marker_inds ← mapM (first_index ordered_path) marker_inds;
    Ok (ordered_path, relative_marker_inds).

(** *** [_parameterize_by_relative_length] *)

(** [1.0 in marker_values]. *)
Definition has_one (marker_values : list float) : bool :=
  existsb (λ v, (v =? 1)%float) marker_values.

(** Lines 225-230: the coordinates of the path, and the closing vertex and
    marker appended when no marker sits at 1.0. *)
Definition close_path (points : list point) (path relative_marker_inds : list nat)
    (marker_values : list float)
    : result (list nat * list nat * list float * list point) :=
  coordinates ← mapM (Np.item points) path;
  if has_one marker_values
  then Ok (path, relative_marker_inds, marker_values, coordinates)
  else
    first_vertex ← Np.item path 0;
    let path' := path ++ [first_vertex] in
    first_position ← Np.item coordinates 0;
    Ok (path', relative_marker_inds ++ [length path' - 1], marker_values ++ [1%float],
        coordinates ++ [first_position]).

(** [np.linalg.norm(b - a)] for one row. *)
Definition distance (a b : point) : float :=
  let '(ax, ay, az) := a in
  let '(bx, b_y, bz) := b in
  let dx := (bx - ax)%float in
  let dy := (b_y - ay)%float in
  let dz := (bz - az)%float in
  sqrt (dx * dx + dy * dy + dz * dz)%float.

(** [np.linalg.norm(coordinates[1:] - coordinates[:-1], axis=1)]. *)
Definition edge_lengths (coordinates : list point) : list float :=
  zip_with distance coordinates (drop 1 coordinates).

(** [np.cumsum]. *)
Fixpoint cumsum_from (total : float) (a : list float) : list float :=
  match a with
  | [] => []
  | x :: rest => (total + x)%float :: cumsum_from (total + x)%float rest
  end.

Definition cumsum (a : list float) : list float :=
  match a with
  | [] => []
  | x :: rest => x :: cumsum_from x rest
  end.

(** [np.insert(np.cumsum(edge_lengths), 0, 0.0)]. *)
Definition cumulative_lengths (coordinates : list point) : list float :=
  0%float :: cumsum (edge_lengths coordinates).

(** [a[start:stop]] for non-negative bounds. *)
Definition slice {A} (start stop : nat) (a : list A) : list A :=
  take (stop - start) (drop start a).

(** [a[start:stop] = values] for [values] of the slice's length: the
    entries of the slice are overwritten in place. *)
Definition set_slice {A} (start : nat) (values : list A) (a : list A) : list A :=
  take start a ++ take (length a - start) values ++ drop (start + length values) a.

(** The values of one marker-to-marker segment:
    [start_value + (end_value - start_value) * shifted / shifted[-1]]. *)
Definition rescale (start_value end_value total shifted : float) : float :=
  (start_value + ((end_value - start_value) * shifted) / total)%float.

Definition fill_segment (cumulative : list float) (relative_marker_inds : list nat)
    (marker_values : list float) (segmented_points : list float) (i : nat)
    : result (list float) :=
  start_ind ← Np.item relative_marker_inds i;
  end_ind ← Np.item relative_marker_inds (i + 1);
  start_value ← Np.item marker_values i;
  end_value ← Np.item marker_values (i + 1);
  origin ← Np.item cumulative start_ind;
  let shifted_cumulative_lengths :=
    map (λ c, (c - origin)%float) (slice start_ind (end_ind + 1) cumulative) in
  total ← of_option (last shifted_cumulative_lengths) IndexError;
  let relative_lengths :=
    map (rescale start_value end_value total) shifted_cumulative_lengths in
  Ok (set_slice start_ind relative_lengths segmented_points).

(** [for i in range(num_segments)]. *)
Fixpoint fill_segments (cumulative : list float) (relative_marker_inds : list nat)
    (marker_values : list float) (segmented_points : list float) (range : list nat)
    : result (list float) :=
  match range with
  | [] => Ok segmented_points
  | i :: rest =>
      segmented_points ← fill_segment cumulative relative_marker_inds marker_values
                            segmented_points i;
      fill_segments cumulative relative_marker_inds marker_values segmented_points rest
  end.

Definition parameterize_by_relative_length (points : list point)
    (path relative_marker_inds : list nat) (marker_values : list float)
    : result ParameterizedPath :=
  '(path, relative_marker_inds, marker_values, coordinates) ←
    close_path points path relative_marker_inds marker_values;
  let cumulative := cumulative_lengths coordinates in
  let segmented_points := replicate (length path) 0%float in
  let num_segments := length relative_marker_inds - 1 in
  segmented_points ← fill_segments cumulative relative_marker_inds marker_values
                        segmented_points (seq 0 num_segments);
  Ok {| inds := path; relative_lengths := segmented_points |}.

Definition parameterize_path (points : list point) (path marker_inds : list nat)
    (marker_values : list float) : result ParameterizedPath :=
  '(reordered_path, relative_marker_inds) ←
    reorder_path_by_markers path marker_inds marker_values;
  parameterize_by_relative_length points reordered_path relative_marker_inds marker_values.

(** *** What the parameterization is measured against *)









(** The unit square, walked 0-1-2-3. *)
Definition square : list point :=
  [(0, 0, 0); (1, 0, 0); (1, 1, 0); (0, 1, 0)]%float.

(** The largest marker target. *)
Definition largest (marker_values : list float) : float :=
  match marker_values with
  | [] => 0%float
  | v :: rest => foldl (λ m x, if (m <? x)%float then x else m) v rest
  end.

(** [np.roll(np.flip(path), 1)] seen from the path: the same start vertex,
    then the other vertices in the opposite direction. *)
Definition reversed_from_start (path : list nat) : list nat :=
  match path with
  | [] => []
  | first :: rest => first :: reverse rest
  end.

(** *** The order of the markers

    [np.argsort] is described through the pairs it sorts. *)

(** A pair of the array being sorted: a key with its position. *)
Definition entry_of {K} (keys : list K) (x : K * nat) : Prop := keys !! x.2 = Some x.1.

(** The comparison orders the keys of the array strictly and totally. *)
Definition strictly_ordered {K} (lt : K → K → bool) (keys : list K) : Prop :=
  (∀ i j x y, keys !! i = Some x → keys !! j = Some y → i ≠ j →
              lt x y = true ∨ lt y x = true)
  ∧ (∀ x y, x ∈ keys → y ∈ keys → lt x y = true → lt y x = false)
  ∧ (∀ x y z, x ∈ keys → y ∈ keys → z ∈ keys →
              lt x y = true → lt y z = true → lt x z = true).

(** The sorted pairs whose positions [argsort] returns. *)
Definition sorted_pairs {K} (lt : K → K → bool) (keys : list K) : list (K * nat) :=
  foldl (λ acc x, insert_by lt x acc) [] (zip keys (seq 0 (length keys))).

(** One pair has the smaller key. *)
Definition before {K} (lt : K → K → bool) (a b : K * nat) : Prop := lt a.1 b.1 = true.

(** The two arrays compare alike at every pair of positions. *)
Definition same_order {K1 K2} (lt1 : K1 → K1 → bool) (lt2 : K2 → K2 → bool)
    (keys1 : list K1) (keys2 : list K2) : Prop :=
  ∀ i j x1 y1 x2 y2,
    keys1 !! i = Some x1 → keys1 !! j = Some y1 →
    keys2 !! i = Some x2 → keys2 !! j = Some y2 →
    lt1 x1 y1 = lt2 x2 y2.

(** No two of the values are equal, and none is a NaN. *)
Fixpoint pairwise_distinct (values : list float) : bool :=
  match values with
  | [] => true
  | v :: rest =>
      forallb (λ w, (v <? w)%float || (w <? v)%float) rest && pairwise_distinct rest
  end.

(** The markers sit at the given positions of the path. *)
Definition located (path marker_inds positions : list nat) : Prop :=
  Forall2 (λ m p, path !! p = Some m) marker_inds positions.

(** The test of line 214: both arrays have the same argsort. *)
Definition orders_match (positions : list nat) (marker_values : list float) : Prop :=
  argsort Nat.ltb positions = argsort PrimFloat.ltb marker_values.

#[global] Instance orders_match_dec positions marker_values :
  Decision (orders_match positions marker_values).
Proof. unfold orders_match. apply _. Defined.

(** *** Facts about slices *)





(** *** Facts about the segment loop *)













(** A marker that is not at the end of an open path leaves the initial zeros
    behind it: the values rise to 1 and fall back to 0. *)
Lemma parameterize_path_zeros_after_last_marker :
  parameterize_path square [0; 1; 2; 3] [0; 2] [0; 1]%float
  = Ok {| inds := [0; 1; 2; 3]; relative_lengths := [0; 0.5; 1; 0]%float |}
  ∧ (1 <=? 0)%float = false.
Proof. split; vm_compute; reflexivity. Qed.

(** Rounding alone breaks the order: three vertices on a line, the last two
    one unit in the last place apart, with targets 0.3 and 0.9 at the first
    and third.  The second vertex gets 0.3 + (0.6000000000000001 * c) / L =
    0.9000000000000001, the third (a marker) exactly 0.9. *)
Lemma parameterize_path_rounding_breaks_order :
  ∃ pp x y,
    parameterize_path
      [(0, 0, 0); (0x1.e472220e19e8fp+1, 0, 0); (0x1.e472220e19e90p+1, 0, 0)]%float
      [0; 1; 2] [0; 2] [0.3; 0.9]%float = Ok pp
    ∧ relative_lengths pp !! 1 = Some x ∧ relative_lengths pp !! 2 = Some y
    ∧ (y =? 0.9)%float = true ∧ (x <=? y)%float = false.
Proof.
  eexists _, _, _. split; [vm_compute; reflexivity|].
  split; [reflexivity|]. split; [reflexivity|]. split; vm_compute; reflexivity.
Qed.

(** *** The closing step *)

Lemma largest_from_one (rest : list float) : ∀ m,
  (m <=? 1)%float = true → Forall (λ v, (v <=? 1)%float = true) rest →
  ((foldl (λ m x, if (m <? x)%float then x else m) m rest =? 1)%float = true
   ↔ (m =? 1)%float = true ∨ existsb (λ v, (v =? 1)%float) rest = true).
Proof.
  induction rest as [|x rest IH]; intros m Hm Hrest; simpl.
  - split; [by left|]. by intros [?|?].
  - apply Forall_cons in Hrest as [Hx Hrest]. rewrite orb_true_iff.
    pose proof Hm as Km. pose proof Hx as Kx.
    apply F64.leb_key in Km as (Nm & N1 & Km). apply F64.leb_key in Kx as (Nx & _ & Kx).
    destruct (m <? x)%float eqn:E.
    + rewrite (IH x Hx Hrest). split; [tauto|]. intros [Hm1|[?|?]]; [|tauto..]. exfalso.
      apply F64.eqb_key in Hm1 as (_ & _ & Hm1). apply F64.ltb_key in E as (_ & _ & E).
      rewrite Hm1 in E. destruct Kx as [Kx|Kx].
      * by apply F64.klt_asym in E.
      * rewrite Kx in E. by apply F64.klt_irrefl in E.
    + rewrite (IH m Hm Hrest). split; [tauto|]. intros [?|[Hx1|?]]; [tauto| |tauto]. left.
      apply F64.eqb_key. split; [done|]. split; [done|].
      apply F64.eqb_key in Hx1 as (_ & _ & Hx1).
      destruct Km as [Km|Km]; [|done]. exfalso.
      assert ((m <? x)%float = true); [|congruence].
      apply F64.ltb_key. split; [done|]. split; [done|]. by rewrite Hx1.
Qed.

Lemma largest_is_one (marker_values : list float) :
  marker_values ≠ [] → Forall (λ v, (v <=? 1)%float = true) marker_values →
  ((largest marker_values =? 1)%float = true ↔ has_one marker_values = true).
Proof.
  intros Hne Hall. destruct marker_values as [|v rest]; [done|].
  apply Forall_cons in Hall as [Hv Hrest].
  unfold largest, has_one. cbn [existsb]. rewrite orb_true_iff.
  by apply largest_from_one.
Qed.

(** C8: with marker targets no larger than 1, the path is closed (its first
    vertex appended with the same position, and a marker with target 1.0
    appended at the new last index) exactly when the largest target is not
    1.0; otherwise path, markers and coordinates go unchanged into the
    arc-length computation. *)
Theorem close_path_iff_largest_not_one
    (points : list point) (path rel : list nat) (marker_values : list float)
    (coordinates : list point) :
  marker_values ≠ [] → Forall (λ v, (v <=? 1)%float = true) marker_values →
  mapM (Np.item points) path = Ok coordinates →
  ((largest marker_values =? 1)%float = true →
   close_path points path rel marker_values = Ok (path, rel, marker_values, coordinates))
  ∧ ((largest marker_values =? 1)%float = false →
     ∀ first_vertex, path !! 0 = Some first_vertex →
       ∃ first_position,
         points !! first_vertex = Some first_position
         ∧ close_path points path rel marker_values
           = Ok (path ++ [first_vertex], rel ++ [length path],
                 marker_values ++ [1%float], coordinates ++ [first_position])).
Proof.
  intros Hne Hall Hc. pose proof (largest_is_one marker_values Hne Hall) as Hiff.
  unfold close_path. rewrite Hc. cbn [mbind result_bind bind]. split.
  - intros H. apply Hiff in H. by rewrite H.
  - intros H first_vertex Hp.
    destruct (has_one marker_values) eqn:E.
    { assert ((largest marker_values =? 1)%float = true) by (by apply Hiff). congruence. }
    apply mapM_Ok in Hc as [Hlen Hl].
    destruct (Hl 0 first_vertex Hp) as (first_position & Hfp & Hpt).
    apply Np.item_Ok in Hpt. exists first_position. split; [done|].
    rewrite (proj2 (Np.item_Ok _ _ _) Hp), (proj2 (Np.item_Ok _ _ _) Hfp).
    cbn [mbind result_bind bind]. rewrite length_app. simpl.
    by replace (length path + 1 - 1) with (length path) by lia.
Qed.

Lemma close_path_iff_largest_not_one_witness :
  ((largest [0; 0.25]%float =? 1)%float = true →
   close_path square [0; 1; 2; 3] [0; 1] [0; 0.25]%float
   = Ok ([0; 1; 2; 3], [0; 1], [0; 0.25]%float, square))
  ∧ ((largest [0; 0.25]%float =? 1)%float = false →
     ∀ first_vertex, [0; 1; 2; 3] !! 0 = Some first_vertex →
       ∃ first_position,
         square !! first_vertex = Some first_position
         ∧ close_path square [0; 1; 2; 3] [0; 1] [0; 0.25]%float
           = Ok ([0; 1; 2; 3] ++ [first_vertex], [0; 1] ++ [length [0; 1; 2; 3]],
                 [0; 0.25]%float ++ [1%float], square ++ [first_position])).
Proof.
  apply (close_path_iff_largest_not_one square [0; 1; 2; 3] [0; 1] [0; 0.25]%float square).
  - discriminate.
  - repeat constructor.
  - reflexivity.
Defined.

(** *** Facts about [argsort] *)

Section Argsort.
Context {K : Type} (lt : K → K → bool).

Lemma argsort_sorted_pairs keys : argsort lt keys = (sorted_pairs lt keys).*2.
Proof. reflexivity. Qed.

Lemma insert_by_perm x l : insert_by lt x l ≡ₚ x :: l.
Proof.
  induction l as [|y l IH]; cbn [insert_by]; [done|].
  destruct (lt x.1 y.1); [done|]. rewrite IH. apply Permutation_swap.
Qed.

Lemma foldl_insert_by_perm l acc :
  foldl (λ acc x, insert_by lt x acc) acc l ≡ₚ acc ++ l.
Proof.
  revert acc. induction l as [|x l IH]; intros acc; cbn [foldl].
  - by rewrite app_nil_r.
  - rewrite IH, insert_by_perm. by rewrite <- Permutation_middle.
Qed.

Lemma sorted_pairs_perm keys : sorted_pairs lt keys ≡ₚ zip keys (seq 0 (length keys)).
Proof. unfold sorted_pairs. by rewrite foldl_insert_by_perm. Qed.

Lemma elem_of_zip_seq (keys : list K) (start : nat) (x : K * nat) :
  x ∈ zip keys (seq start (length keys)) ↔
  start ≤ x.2 ∧ keys !! (x.2 - start) = Some x.1.
Proof.
  revert start. induction keys as [|k keys IH]; intros start; cbn [length seq zip zip_with].
  - rewrite elem_of_nil. split; [done|]. by intros [_ ?].
  - rewrite elem_of_cons, IH. destruct x as [y i]. cbn [fst snd]. split.
    + intros [E|[H1 H2]].
      * injection E as -> ->. split; [lia|]. by rewrite Nat.sub_diag.
      * split; [lia|]. replace (i - start) with (S (i - S start)) by lia. done.
    + intros [H1 H2]. destruct (decide (i = start)) as [->|Hne].
      * left. rewrite Nat.sub_diag in H2. cbn in H2. congruence.
      * right. split; [lia|]. replace (i - start) with (S (i - S start)) in H2 by lia.
        done.
Qed.

Lemma elem_of_sorted_pairs keys x : x ∈ sorted_pairs lt keys ↔ entry_of keys x.
Proof.
  rewrite sorted_pairs_perm, elem_of_zip_seq. unfold entry_of.
  rewrite Nat.sub_0_r. split; [by intros [_ ?]|]. intros H. split; [lia|done].
Qed.

Lemma argsort_perm keys : argsort lt keys ≡ₚ seq 0 (length keys).
Proof.
  rewrite argsort_sorted_pairs, sorted_pairs_perm.
  rewrite snd_zip; [done|]. rewrite length_seq. lia.
Qed.

Lemma length_argsort keys : length (argsort lt keys) = length keys.
Proof. by rewrite argsort_perm, length_seq. Qed.

Lemma NoDup_sorted_positions keys : NoDup (sorted_pairs lt keys).*2.
Proof.
  rewrite <- argsort_sorted_pairs, argsort_perm. apply NoDup_seq.
Qed.

Lemma insert_by_sorted keys x l :
  strictly_ordered lt keys → entry_of keys x → Forall (entry_of keys) l →
  x.2 ∉ l.*2 →
  StronglySorted (before lt) l → StronglySorted (before lt) (insert_by lt x l).
Proof.
  intros (Htot & Hasym & Htrans) Hx Hl Hnin Hs.
  induction Hs as [|y l Hs IH Hy]; cbn [insert_by].
  - repeat constructor.
  - apply Forall_cons in Hl as [Hy' Hl].
    rewrite fmap_cons, not_elem_of_cons in Hnin. destruct Hnin as [Hne Hnin].
    destruct (lt x.1 y.1) eqn:E.
    + constructor; [by constructor|]. constructor; [exact E|].
      rewrite Forall_forall in Hy, Hl. apply Forall_forall. intros z Hz.
      unfold before. eapply (Htrans _ y.1).
      * eapply list_elem_of_lookup_2, Hx.
      * eapply list_elem_of_lookup_2, Hy'.
      * eapply list_elem_of_lookup_2, (Hl z Hz).
      * exact E.
      * apply Hy, Hz.
    + constructor; [by apply IH|].
      rewrite insert_by_perm. constructor; [|exact Hy].
      destruct (Htot _ _ _ _ Hx Hy' Hne) as [H|H]; [congruence|exact H].
Qed.

Lemma foldl_insert_by_sorted keys l acc :
  strictly_ordered lt keys → Forall (entry_of keys) (acc ++ l) →
  NoDup (acc ++ l).*2 →
  StronglySorted (before lt) acc →
  StronglySorted (before lt) (foldl (λ acc x, insert_by lt x acc) acc l).
Proof.
  intros Hord. revert acc. induction l as [|x l IH]; intros acc Hent Hnd Hs; [done|].
  cbn [foldl]. apply IH.
  - rewrite insert_by_perm. cbn [app]. by rewrite Permutation_middle.
  - rewrite insert_by_perm. cbn [app]. by rewrite Permutation_middle.
  - rewrite Forall_app, Forall_cons in Hent. destruct Hent as (Ha & Hx & _).
    apply (insert_by_sorted keys); try done.
    rewrite fmap_app, fmap_cons in Hnd. apply NoDup_app in Hnd as (_ & Hnd & _).
    intros Hin. apply (Hnd _ Hin). left.
Qed.

Lemma sorted_pairs_sorted keys :
  strictly_ordered lt keys → StronglySorted (before lt) (sorted_pairs lt keys).
Proof.
  intros Hord. apply (foldl_insert_by_sorted keys); [done| | |constructor].
  - cbn [app]. apply Forall_forall. intros x Hx.
    apply elem_of_zip_seq in Hx as [_ Hx]. by rewrite Nat.sub_0_r in Hx.
  - cbn [app]. rewrite snd_zip by (rewrite length_seq; lia). apply NoDup_seq.
Qed.

Lemma StronglySorted_lookup {A} (R : A → A → Prop) l p q a b :
  StronglySorted R l → l !! p = Some a → l !! q = Some b → p < q → R a b.
Proof.
  intros Hs. revert p q. induction Hs as [|x l Hs IH Hx]; intros p q Hp Hq Hlt.
  - done.
  - destruct q as [|q]; [lia|]. destruct p as [|p].
    + cbn in Hp, Hq. injection Hp as ->. rewrite Forall_forall in Hx.
      apply Hx. by eapply list_elem_of_lookup_2.
    + cbn in Hp, Hq. apply (IH p q); [done..|lia].
Qed.

(** In a strictly ordered array a key is below another exactly when its
    position comes earlier in the argsort. *)
Lemma argsort_rank keys i j x y p q :
  strictly_ordered lt keys →
  keys !! i = Some x → keys !! j = Some y →
  argsort lt keys !! p = Some i → argsort lt keys !! q = Some j →
  lt x y = true ↔ p < q.
Proof.
  intros Hord Hi Hj Hp Hq.
  pose proof (sorted_pairs_sorted keys Hord) as Hs.
  rewrite argsort_sorted_pairs, list_lookup_fmap in Hp, Hq.
  destruct (sorted_pairs lt keys !! p) as [[x' i']|] eqn:Ep; [|done].
  destruct (sorted_pairs lt keys !! q) as [[y' j']|] eqn:Eq; [|done].
  cbn in Hp, Hq. injection Hp as ->. injection Hq as ->.
  assert (x' = x) as ->.
  { apply list_elem_of_lookup_2, elem_of_sorted_pairs in Ep. unfold entry_of in Ep.
    cbn in Ep. congruence. }
  assert (y' = y) as ->.
  { apply list_elem_of_lookup_2, elem_of_sorted_pairs in Eq. unfold entry_of in Eq.
    cbn in Eq. congruence. }
  destruct Hord as (Htot & Hasym & Htrans).
  assert (Hx : x ∈ keys) by by eapply list_elem_of_lookup_2.
  assert (Hy : y ∈ keys) by by eapply list_elem_of_lookup_2.
  split.
  - intros Hlt. destruct (Nat.lt_trichotomy p q) as [H|[->|H]]; [done| |].
    + assert (x = y ∧ i = j) as [-> ->] by (split; congruence).
      specialize (Hasym _ _ Hy Hy Hlt). congruence.
    + pose proof (StronglySorted_lookup _ _ _ _ _ _ Hs Eq Ep H) as Hb.
      unfold before in Hb. cbn in Hb. specialize (Hasym _ _ Hx Hy Hlt). congruence.
  - intros H. apply (StronglySorted_lookup _ _ _ _ _ _ Hs Ep Eq H).
Qed.

End Argsort.

Section ArgsortTwo.
Context {K1 K2 : Type} (lt1 : K1 → K1 → bool) (lt2 : K2 → K2 → bool).
Context (keys1 : list K1) (keys2 : list K2).

Lemma insert_by_same_order x1 x2 l1 l2 :
  same_order lt1 lt2 keys1 keys2 →
  entry_of keys1 x1 → entry_of keys2 x2 →
  Forall (entry_of keys1) l1 → Forall (entry_of keys2) l2 →
  x1.2 = x2.2 → l1.*2 = l2.*2 →
  (insert_by lt1 x1 l1).*2 = (insert_by lt2 x2 l2).*2.
Proof.
  intros Hsame Hx1 Hx2 Hl1. revert l2.
  induction Hl1 as [|y1 l1 Hy1 Hl1 IH]; intros l2 Hl2 Hx Hl.
  - destruct l2; [|done]. cbn. by rewrite Hx.
  - destruct Hl2 as [|y2 l2 Hy2 Hl2]; [done|].
    rewrite !fmap_cons in Hl. injection Hl as Hy Hl.
    cbn [insert_by].
    assert (lt1 x1.1 y1.1 = lt2 x2.1 y2.1) as ->.
    { unfold entry_of in *. apply (Hsame x1.2 y1.2); congruence. }
    destruct (lt2 x2.1 y2.1).
    + rewrite !fmap_cons. congruence.
    + rewrite !fmap_cons. f_equal; [done|]. by apply IH.
Qed.

Lemma foldl_insert_by_same_order l1 l2 acc1 acc2 :
  same_order lt1 lt2 keys1 keys2 →
  Forall (entry_of keys1) l1 → Forall (entry_of keys2) l2 →
  Forall (entry_of keys1) acc1 → Forall (entry_of keys2) acc2 →
  l1.*2 = l2.*2 → acc1.*2 = acc2.*2 →
  (foldl (λ acc x, insert_by lt1 x acc) acc1 l1).*2
  = (foldl (λ acc x, insert_by lt2 x acc) acc2 l2).*2.
Proof.
  intros Hsame Hl1. revert l2 acc1 acc2.
  induction Hl1 as [|x1 l1 Hx1 Hl1 IH]; intros l2 acc1 acc2 Hl2 Ha1 Ha2 Hl Ha.
  - by destruct l2.
  - destruct Hl2 as [|x2 l2 Hx2 Hl2]; [done|].
    rewrite !fmap_cons in Hl. injection Hl as Hx Hl.
    cbn [foldl]. apply IH; try done.
    + rewrite insert_by_perm. by constructor.
    + rewrite insert_by_perm. by constructor.
    + by apply insert_by_same_order.
Qed.

Lemma entries_zip_seq {K} (keys : list K) :
  Forall (entry_of keys) (zip keys (seq 0 (length keys))).
Proof.
  apply Forall_forall. intros x Hx.
  apply elem_of_zip_seq in Hx as [_ Hx]. by rewrite Nat.sub_0_r in Hx.
Qed.

(** Arrays that compare alike have the same argsort. *)
Lemma argsort_same_order :
  length keys1 = length keys2 → same_order lt1 lt2 keys1 keys2 →
  argsort lt1 keys1 = argsort lt2 keys2.
Proof.
  intros Hlen Hsame. unfold argsort.
  apply foldl_insert_by_same_order; try done; try apply entries_zip_seq.
  rewrite !snd_zip by (rewrite length_seq; lia). by rewrite Hlen.
Qed.

(** Strictly ordered arrays with the same argsort compare alike. *)
Lemma same_order_argsort :
  strictly_ordered lt1 keys1 → strictly_ordered lt2 keys2 →
  argsort lt1 keys1 = argsort lt2 keys2 → same_order lt1 lt2 keys1 keys2.
Proof.
  intros Hord1 Hord2 Heq i j x1 y1 x2 y2 Hi1 Hj1 Hi2 Hj2.
  assert (∃ p, argsort lt1 keys1 !! p = Some i) as [p Hp].
  { apply list_elem_of_lookup. rewrite argsort_perm. apply elem_of_seq.
    apply lookup_lt_Some in Hi1. lia. }
  assert (∃ q, argsort lt1 keys1 !! q = Some j) as [q Hq].
  { apply list_elem_of_lookup. rewrite argsort_perm. apply elem_of_seq.
    apply lookup_lt_Some in Hj1. lia. }
  pose proof (argsort_rank lt1 keys1 i j x1 y1 p q Hord1 Hi1 Hj1 Hp Hq) as H1.
  rewrite Heq in Hp, Hq.
  pose proof (argsort_rank lt2 keys2 i j x2 y2 p q Hord2 Hi2 Hj2 Hp Hq) as H2.
  destruct (lt1 x1 y1), (lt2 x2 y2); try done.
  - symmetry. apply H2, H1. done.
  - apply H1, H2. done.
Qed.

End ArgsortTwo.

Lemma strictly_ordered_positions (l : list nat) :
  NoDup l → strictly_ordered Nat.ltb l.
Proof.
  intros Hnd. split; [|split].
  - intros i j x y Hi Hj Hne.
    assert (x ≠ y) by (intros ->; by apply Hne, (NoDup_lookup l i j y)).
    rewrite !Nat.ltb_lt. lia.
  - intros x y _ _. rewrite Nat.ltb_lt, Nat.ltb_ge. lia.
  - intros x y z _ _ _. rewrite !Nat.ltb_lt. lia.
Qed.

Lemma pairwise_distinct_lookup values i j v w :
  pairwise_distinct values = true → i < j →
  values !! i = Some v → values !! j = Some w →
  (v <? w)%float = true ∨ (w <? v)%float = true.
Proof.
  revert i j. induction values as [|x values IH]; intros i j Hd Hlt Hi Hj; [done|].
  cbn [pairwise_distinct] in Hd. apply andb_true_iff in Hd as [Hx Hd].
  destruct j as [|j]; [lia|]. cbn in Hj. destruct i as [|i].
  - cbn in Hi. injection Hi as ->. rewrite forallb_forall in Hx.
    apply orb_true_iff, Hx. apply list_elem_of_In. by eapply list_elem_of_lookup_2.
  - cbn in Hi. apply (IH i j); [done|lia|done..].
Qed.

Lemma strictly_ordered_values (values : list float) :
  pairwise_distinct values = true → strictly_ordered PrimFloat.ltb values.
Proof.
  intros Hd. split; [|split].
  - intros i j x y Hi Hj Hne. destruct (Nat.lt_trichotomy i j) as [H|[->|H]]; [|done|].
    + by apply (pairwise_distinct_lookup values i j).
    + apply or_comm. by apply (pairwise_distinct_lookup values j i).
  - intros x y _ _ H. apply F64.ltb_key in H as (_ & _ & H).
    apply not_true_is_false. intros H'. apply F64.ltb_key in H' as (_ & _ & H').
    by apply (F64.klt_asym _ _ H).
  - intros x y z _ _ _ H1 H2.
    apply F64.ltb_key in H1 as (Hx & _ & H1). apply F64.ltb_key in H2 as (_ & Hz & H2).
    apply F64.ltb_key. split; [done|]. split; [done|]. by eapply F64.klt_trans.
Qed.

(** *** [_reorder_path_by_markers] *)

Lemma where_from_absent x l s : x ∉ l → Np.where_from s (map (Nat.eqb x) l) = [].
Proof.
  revert s. induction l as [|y l IH]; intros s Hnin; [done|].
  apply not_elem_of_cons in Hnin as [Hne Hnin]. cbn [map Np.where_from].
  destruct (Nat.eqb_spec x y) as [->|_]; [done|]. by apply IH.
Qed.

Lemma where_from_NoDup path x i s :
  NoDup path → path !! i = Some x → Np.where_from s (map (Nat.eqb x) path) = [s + i].
Proof.
  intros Hnd. revert i s. induction Hnd as [|y path Hnin Hnd IH]; intros i s Hi; [done|].
  cbn [map Np.where_from]. destruct i as [|i]; cbn in Hi.
  - injection Hi as ->. rewrite Nat.eqb_refl, where_from_absent by done.
    by rewrite Nat.add_0_r.
  - destruct (Nat.eqb_spec x y) as [->|_].
    + exfalso. apply Hnin. by eapply list_elem_of_lookup_2.
    + rewrite (IH i (S s) Hi). f_equal. lia.
Qed.

Lemma where_eq_NoDup path x i :
  NoDup path → path !! i = Some x → where_eq path x = [i].
Proof. intros Hnd Hi. unfold where_eq, Np.where_true. by rewrite (where_from_NoDup path x i). Qed.

Lemma first_index_NoDup path x i :
  NoDup path → path !! i = Some x → first_index path x = Ok i.
Proof. intros Hnd Hi. unfold first_index. by rewrite (where_eq_NoDup path x i). Qed.

Lemma mapM_first_index path marker_inds :
  NoDup path → Forall (λ m, m ∈ path) marker_inds →
  ∃ positions, mapM (first_index path) marker_inds = Ok positions
               ∧ located path marker_inds positions.
Proof.
  intros Hnd Hall. induction Hall as [|m marker_inds Hm Hall (positions & IH & Hloc)].
  - exists []. split; [done|constructor].
  - apply list_elem_of_lookup in Hm as [p Hp]. exists (p :: positions).
    split; [|by constructor].
    cbn [mapM]. rewrite (first_index_NoDup path m p Hnd Hp). cbn. by rewrite IH.
Qed.

Lemma roll_back {A} (l : list A) (i : nat) :
  i < length l → roll l (- Z.of_nat i) = drop i l ++ take i l.
Proof.
  intros Hi. unfold roll, rotate. rewrite Z.opp_involutive.
  rewrite Z.mod_small by lia. rewrite Nat2Z.id.
  by rewrite Nat.mod_small by done.
Qed.

Lemma roll_flip (l : list nat) : roll (reverse l) 1 = reversed_from_start l.
Proof.
  destruct l as [|x l]; [done|]. unfold roll, rotate.
  rewrite reverse_cons. rewrite length_app, length_reverse. cbn [length].
  assert (Z.to_nat (Z.opp 1 `mod` Z.of_nat (length l + 1)) = length l) as ->.
  { replace (Z.opp 1) with (Z.of_nat (length l) + (- 1) * Z.of_nat (length l + 1))%Z by lia.
    rewrite Z.mod_add by lia. rewrite Z.mod_small by lia. lia. }
  rewrite Nat.mod_small by lia.
  rewrite drop_app_length', take_app_length' by by rewrite length_reverse.
  done.
Qed.

Lemma located_NoDup path marker_inds positions :
  NoDup marker_inds → located path marker_inds positions → NoDup positions.
Proof.
  intros Hnd Hloc. induction Hloc as [|m p ms ps Hp Hloc IH]; [constructor|].
  apply NoDup_cons in Hnd as [Hnin Hnd]. constructor; [|by apply IH].
  intros Hin. apply Hnin. apply list_elem_of_lookup in Hin as [k Hk].
  destruct (Forall2_lookup_r _ _ _ _ _ Hloc Hk) as (m' & Hm' & Hpm').
  assert (m' = m) as -> by congruence. by eapply list_elem_of_lookup_2.
Qed.

Lemma same_order_bool (positions : list nat) (values : list float) :
  same_order Nat.ltb PrimFloat.ltb positions values ↔
  ∀ i j p q v w, positions !! i = Some p → positions !! j = Some q →
                 values !! i = Some v → values !! j = Some w →
                 (p < q ↔ (v <? w)%float = true).
Proof.
  unfold same_order. split; intros H i j p q v w Hp Hq Hv Hw.
  - rewrite <- (H i j p q v w) by done. by rewrite Nat.ltb_lt.
  - specialize (H i j p q v w Hp Hq Hv Hw). rewrite <- Nat.ltb_lt in H.
    destruct (p <? q), (v <? w)%float; try done; [symmetry|]; by apply H.
Qed.

(** C7: for a path without repeated vertices that contains every marker,
    [_reorder_path_by_markers] returns a path that starts at the first
    marker's vertex together with the markers' positions in it.  The path is
    the input rotated to that vertex when the argsort of the markers'
    positions in the rotated path equals the argsort of the target values,
    and otherwise that rotated path reversed with its start vertex kept.
    For distinct markers and pairwise distinct targets the two argsorts are
    equal exactly when positions and targets compare alike at every pair of
    markers. *)
Theorem reorder_path_by_markers_spec
    (path marker_inds : list nat) (marker_values : list float) (first_marker : nat) :
  NoDup path → Forall (λ m, m ∈ path) marker_inds →
  head marker_inds = Some first_marker →
  ∃ rotated positions ordered_path relative_marker_inds,
    reorder_path_by_markers path marker_inds marker_values
    = Ok (ordered_path, relative_marker_inds)
    ∧ Stitcher.rotation path rotated
    ∧ head rotated = Some first_marker
    ∧ located rotated marker_inds positions
    ∧ head ordered_path = Some first_marker
    ∧ located ordered_path marker_inds relative_marker_inds
    ∧ (orders_match positions marker_values → ordered_path = rotated)
    ∧ (¬ orders_match positions marker_values →
       ordered_path = reversed_from_start rotated)
    ∧ (NoDup marker_inds → length marker_values = length marker_inds →
       pairwise_distinct marker_values = true →
       (orders_match positions marker_values ↔
        ∀ i j p q v w,
          positions !! i = Some p → positions !! j = Some q →
          marker_values !! i = Some v → marker_values !! j = Some w →
          (p < q ↔ (v <? w)%float = true))).
Proof.
  intros Hnd Hall Hhead.
  destruct marker_inds as [|m0 markers]; [done|]. cbn in Hhead. injection Hhead as ->.
  pose proof Hall as Hall'. apply Forall_cons in Hall' as [Hm0 _].
  apply list_elem_of_lookup in Hm0 as [i0 Hi0].
  pose proof (lookup_lt_Some _ _ _ Hi0) as Hlt.
  set (rotated := drop i0 path ++ take i0 path).
  assert (Hrot : Stitcher.rotation path rotated).
  { exists (take i0 path), (drop i0 path). split; [by rewrite take_drop|done]. }
  assert (Hperm : rotated ≡ₚ path).
  { unfold rotated. rewrite Permutation_app_comm. by rewrite take_drop. }
  assert (Hnd' : NoDup rotated) by by rewrite Hperm.
  assert (Hall' : Forall (λ m, m ∈ rotated) (first_marker :: markers)).
  { eapply Forall_impl; [exact Hall|]. intros m Hm. cbn. by rewrite Hperm. }
  assert (Hhd : head rotated = Some first_marker).
  { unfold rotated. rewrite head_lookup, lookup_app_l by (rewrite length_drop; lia).
    rewrite lookup_drop. by rewrite Nat.add_0_r. }
  destruct (mapM_first_index rotated _ Hnd' Hall') as (positions & Hpos & Hloc).
  assert (Hrev : reversed_from_start rotated ≡ₚ rotated).
  { destruct rotated as [|x r]; [done|]. cbn. by rewrite reverse_Permutation. }
  assert (Hnd'' : NoDup (reversed_from_start rotated)) by by rewrite Hrev.
  assert (Hall'' : Forall (λ m, m ∈ reversed_from_start rotated) (first_marker :: markers)).
  { eapply Forall_impl; [exact Hall'|]. intros m Hm. cbn. by rewrite Hrev. }
  destruct (mapM_first_index _ _ Hnd'' Hall'') as (positions' & Hpos' & Hloc').
  assert (Hhd' : head (reversed_from_start rotated) = Some first_marker).
  { by destruct rotated. }
  assert (Hsem : NoDup (first_marker :: markers) →
                 length marker_values = length (first_marker :: markers) →
                 pairwise_distinct marker_values = true →
                 (orders_match positions marker_values ↔
                  ∀ i j p q v w,
                    positions !! i = Some p → positions !! j = Some q →
                    marker_values !! i = Some v → marker_values !! j = Some w →
                    (p < q ↔ (v <? w)%float = true))).
  { intros Hndm Hlen Hdist. rewrite <- same_order_bool. unfold orders_match. split.
    - apply same_order_argsort.
      + apply strictly_ordered_positions. by eapply located_NoDup.
      + by apply strictly_ordered_values.
    - apply argsort_same_order. apply Forall2_length in Hloc. congruence. }
  assert (Hrun : reorder_path_by_markers path (first_marker :: markers) marker_values
                 = if decide (orders_match positions marker_values)
                   then Ok (rotated, positions)
                   else Ok (reversed_from_start rotated, positions')).
  { unfold reorder_path_by_markers.
    cbn [Np.item lookup list_lookup of_option mbind result_bind bind].
    rewrite (where_eq_NoDup path first_marker i0 Hnd Hi0).
    assert (sum_list [i0] = i0) as -> by (cbn; lia). rewrite roll_back by done.
    fold rotated. rewrite Hpos. cbn [mbind result_bind bind].
    destruct (decide (orders_match positions marker_values)) as [Hm|Hm].
    - by rewrite bool_decide_true.
    - rewrite bool_decide_false by done. by rewrite roll_flip, Hpos'. }
  destruct (decide (orders_match positions marker_values)) as [Hm|Hm].
  - exists rotated, positions, rotated, positions.
    split_and!; done.
  - exists rotated, positions, (reversed_from_start rotated), positions'.
    split_and!; done.
Qed.

Lemma reorder_path_by_markers_spec_witness :
  ∃ rotated positions ordered_path relative_marker_inds,
    reorder_path_by_markers [4; 5; 6; 7; 8; 9] [6; 5; 9] [0; 0.75; 0.25]%float
    = Ok (ordered_path, relative_marker_inds)
    ∧ Stitcher.rotation [4; 5; 6; 7; 8; 9] rotated
    ∧ head rotated = Some 6
    ∧ located rotated [6; 5; 9] positions
    ∧ head ordered_path = Some 6
    ∧ located ordered_path [6; 5; 9] relative_marker_inds
    ∧ (orders_match positions [0; 0.75; 0.25]%float → ordered_path = rotated)
    ∧ (¬ orders_match positions [0; 0.75; 0.25]%float →
       ordered_path = reversed_from_start rotated)
    ∧ (NoDup [6; 5; 9] → length [0; 0.75; 0.25]%float = length [6; 5; 9] →
       pairwise_distinct [0; 0.75; 0.25]%float = true →
       (orders_match positions [0; 0.75; 0.25]%float ↔
        ∀ i j p q v w,
          positions !! i = Some p → positions !! j = Some q →
          [0; 0.75; 0.25]%float !! i = Some v → [0; 0.75; 0.25]%float !! j = Some w →
          (p < q ↔ (v <? w)%float = true))).
Proof.
  apply (reorder_path_by_markers_spec [4; 5; 6; 7; 8; 9] [6; 5; 9] [0; 0.75; 0.25]%float 6).
  - apply (bool_decide_unpack (NoDup [4; 5; 6; 7; 8; 9])). vm_compute. exact I.
  - repeat constructor; set_solver.
  - reflexivity.
Defined.

Lemma reorder_example_forward :
  reorder_path_by_markers [4; 5; 6; 7; 8; 9] [6; 5; 9] [0; 0.75; 0.25]%float
  = Ok ([6; 7; 8; 9; 4; 5], [0; 5; 3]).
Proof. vm_compute. reflexivity. Qed.

Lemma reorder_example_reversed :
  reorder_path_by_markers [4; 5; 6; 7; 8; 9] [6; 5; 9] [0; 0.25; 0.75]%float
  = Ok ([6; 5; 4; 9; 8; 7], [0; 1; 3]).
Proof. vm_compute. reflexivity. Qed.

(** *** The shape of the result, and markers off the path *)

Lemma length_set_slice_any {A} (start : nat) (values a : list A) :
  length (set_slice start values a) = length a.
Proof. unfold set_slice. rewrite !length_app, !length_take, length_drop. lia. Qed.

Lemma fill_segment_length (cumulative : list float) (rel : list nat)
    (vals seg seg' : list float) (i : nat) :
  fill_segment cumulative rel vals seg i = Ok seg' → length seg' = length seg.
Proof.
  unfold fill_segment. intros H.
  apply bind_Ok in H as (a & _ & H). apply bind_Ok in H as (b & _ & H).
  apply bind_Ok in H as (sv & _ & H). apply bind_Ok in H as (ev & _ & H).
  apply bind_Ok in H as (o & _ & H). apply bind_Ok in H as (t & _ & H).
  injection H as <-. apply length_set_slice_any.
Qed.

Lemma fill_segments_length (cumulative : list float) (rel : list nat) (vals : list float)
    (range : list nat) : ∀ seg seg',
  fill_segments cumulative rel vals seg range = Ok seg' → length seg' = length seg.
Proof.
  induction range as [|i range IH]; intros seg seg' H; cbn [fill_segments] in H.
  - by injection H as <-.
  - apply bind_Ok in H as (s1 & H1 & H). rewrite (IH _ _ H).
    by eapply fill_segment_length.
Qed.

(** On success [parameterize_path] returns one relative length per vertex;
    the vertices are the path as [_reorder_path_by_markers] returns it, with
    its first vertex repeated at the end exactly when no target is 1.0. *)
Theorem parameterize_path_shape (points : list point) (path marker_inds : list nat)
    (marker_values : list float) (pp : ParameterizedPath) :
  parameterize_path points path marker_inds marker_values = Ok pp →
  ∃ reordered_path relative_marker_inds,
    reorder_path_by_markers path marker_inds marker_values
    = Ok (reordered_path, relative_marker_inds)
    ∧ length (relative_lengths pp) = length (inds pp)
    ∧ (has_one marker_values = true → inds pp = reordered_path)
    ∧ (has_one marker_values = false →
       ∃ first_vertex, head reordered_path = Some first_vertex
                       ∧ inds pp = reordered_path ++ [first_vertex]).
Proof.
  unfold parameterize_path. intros H.
  apply bind_Ok in H as ([reordered rel] & Hre & H).
  exists reordered, rel. split; [done|].
  unfold parameterize_by_relative_length in H.
  apply bind_Ok in H as ([[[path' rel'] vals'] coords'] & Hclose & H).
  apply bind_Ok in H as (seg & Hseg & H). injection H as <-. cbn [inds relative_lengths].
  apply fill_segments_length in Hseg. rewrite length_replicate in Hseg.
  split; [done|].
  unfold close_path in Hclose. apply bind_Ok in Hclose as (coords & _ & Hclose).
  destruct (has_one marker_values).
  - split; [|done]. intros _. by injection Hclose as <- _ _ _.
  - split; [done|]. intros _.
    apply bind_Ok in Hclose as (v0 & Hv0 & Hclose). apply Np.item_Ok in Hv0.
    apply bind_Ok in Hclose as (p0 & _ & Hclose). injection Hclose as <- _ _ _.
    exists v0. split; [|done]. by rewrite head_lookup.
Qed.

Lemma parameterize_path_shape_witness :
  ∃ reordered_path relative_marker_inds,
    reorder_path_by_markers [0; 1; 2; 3] [0; 1] [0; 0.25]%float
    = Ok (reordered_path, relative_marker_inds)
    ∧ length [0; 0.25; 0.5; 0.75; 1]%float = length [0; 1; 2; 3; 0]
    ∧ (has_one [0; 0.25]%float = true → [0; 1; 2; 3; 0] = reordered_path)
    ∧ (has_one [0; 0.25]%float = false →
       ∃ first_vertex, head reordered_path = Some first_vertex
                       ∧ [0; 1; 2; 3; 0] = reordered_path ++ [first_vertex]).
Proof.
  apply (parameterize_path_shape square [0; 1; 2; 3] [0; 1] [0; 0.25]%float
           {| inds := [0; 1; 2; 3; 0];
              relative_lengths := [0; 0.25; 0.5; 0.75; 1]%float |}).
  vm_compute. reflexivity.
Defined.

Lemma first_index_Ok (path : list nat) (x : nat) :
  x ∈ path → ∃ i, first_index path x = Ok i.
Proof.
  intros Hx. apply list_elem_of_lookup in Hx as [g Hg].
  assert (Hin : g ∈ where_eq path x).
  { unfold where_eq. apply Np.where_true_elem. rewrite list_lookup_fmap, Hg. cbn.
    by rewrite Nat.eqb_refl. }
  unfold first_index, Np.item. destruct (where_eq path x) as [|i rest]; [|by exists i].
  by apply elem_of_nil in Hin.
Qed.

Lemma first_index_absent (path : list nat) (x : nat) :
  x ∉ path → first_index path x = Raise IndexError.
Proof.
  intros Hx. unfold first_index, where_eq, Np.where_true.
  by rewrite where_from_absent.
Qed.

Lemma mapM_first_index_Ok (path marker_inds : list nat) :
  Forall (λ m, m ∈ path) marker_inds →
  ∃ positions, mapM (first_index path) marker_inds = Ok positions.
Proof.
  induction 1 as [|m ms Hm _ [positions IH]]; [by exists []|].
  destruct (first_index_Ok path m Hm) as [i Hi].
  exists (i :: positions). cbn [mapM]. by rewrite Hi, IH.
Qed.

Lemma mapM_first_index_absent (path marker_inds : list nat) :
  ¬ Forall (λ m, m ∈ path) marker_inds →
  mapM (first_index path) marker_inds = Raise IndexError.
Proof.
  induction marker_inds as [|m ms IH]; intros H; [by destruct H|].
  cbn [mapM]. destruct (decide (m ∈ path)) as [Hm|Hm].
  - destruct (first_index_Ok path m Hm) as [i ->]. cbn.
    rewrite IH; [done|]. intros Hall. apply H. by constructor.
  - by rewrite first_index_absent.
Qed.

Lemma elem_of_roll (path : list nat) (shift : Z) (x : nat) :
  x ∈ roll path shift ↔ x ∈ path.
Proof. unfold roll. apply elem_of_rotate. Qed.

(** [_reorder_path_by_markers] succeeds exactly when there is a marker and
    every marker is a vertex of the path; otherwise it raises [IndexError]:
    from [marker_inds[0]] for an empty marker list, from
    [np.where(...)[0][0]] for a marker that is not on the path. *)
Theorem reorder_path_by_markers_needs_markers_on_path
    (path marker_inds : list nat) (marker_values : list float) :
  (marker_inds ≠ [] ∧ Forall (λ m, m ∈ path) marker_inds →
   ∃ r, reorder_path_by_markers path marker_inds marker_values = Ok r)
  ∧ (¬ (marker_inds ≠ [] ∧ Forall (λ m, m ∈ path) marker_inds) →
     reorder_path_by_markers path marker_inds marker_values = Raise IndexError).
Proof.
  unfold reorder_path_by_markers.
  destruct marker_inds as [|m0 ms]; [split; [by intros [? _]|done]|].
  cbn [Np.item lookup list_lookup of_option mbind result_bind bind].
  set (ordered := roll path _).
  assert (Hiff : ∀ l : list nat, (∀ x, x ∈ l ↔ x ∈ path) →
                      Forall (λ m, m ∈ l) (m0 :: ms) ↔ Forall (λ m, m ∈ path) (m0 :: ms)).
  { intros l Hl. rewrite !Forall_forall. split; intros H x Hx; apply Hl, H, Hx. }
  split.
  - intros [_ Hall].
    destruct (mapM_first_index_Ok ordered (m0 :: ms)) as [positions ->].
    { apply (Hiff ordered); [|done]. intros x. apply elem_of_roll. }
    cbn [mbind result_bind bind]. destruct (bool_decide _); [eexists; reflexivity|].
    destruct (mapM_first_index_Ok (roll (reverse ordered) 1) (m0 :: ms)) as [positions' ->].
    { apply (Hiff (roll (reverse ordered) 1)); [|done]. intros x.
      rewrite elem_of_roll, elem_of_reverse. apply elem_of_roll. }
    eexists. reflexivity.
  - intros Hno. rewrite (mapM_first_index_absent ordered); [reflexivity|].
    intros Hall. apply Hno. split; [done|].
    apply (Hiff ordered); [|done]. intros x. apply elem_of_roll.
Qed.

End Parameterizer.

(** ** The Coordinate Assigner: [compute_uacs_polyline]

    [construction_base.py], lines 258-295.  The arrays hold [float64]
    values; [np.isclose], [np.max], [np.min] and [np.concatenate] follow
    NumPy's definitions. *)

Module Assigner.

Record UACPath : Type := {
  inds : list nat;
  relative_lengths : list float;
  alpha : list float;
  beta : list float;
}.

(** [np.isclose(x, y)] with the default tolerances:
    [(abs(x - y) <= atol + rtol * abs(y)) & isfinite(y) | (x == y)]. *)
Definition rtol : float := 1e-05%float.
Definition atol : float := 1e-08%float.

Definition isclose (x y : float) : bool :=
  ((abs (x - y) <=? atol + rtol * abs y)%float && is_finite y) || (x =? y)%float.

(** [np.where(np.isclose(a, t))[0][0]]. *)
Definition first_close (a : list float) (t : float) : result nat :=
  Np.item (Np.where_true (map (λ x, isclose x t) a)) 0.

(** [np.maximum] and [np.minimum] on two values, and the reductions
    [np.max] and [np.min], which refuse an empty array. *)
Definition maximum (a b : float) : float :=
  if (b <=? a)%float || is_nan a then a else b.

Definition minimum (a b : float) : float :=
  if (a <=? b)%float || is_nan a then a else b.

Definition np_max (a : list float) : result float :=
  match a with
  | [] => Raise ValueError
  | x :: rest => Ok (foldl maximum x rest)
  end.

Definition np_min (a : list float) : result float :=
  match a with
  | [] => Raise ValueError
  | x :: rest => Ok (foldl minimum x rest)
  end.

(** [a[:-1]]. *)
Definition but_last {A} (a : list A) : list A := take (length a - 1) a.

(** [np.concatenate] of a list of arrays, which refuses an empty list. *)
Definition concatenate {A} (arrays : list (list A)) : result (list A) :=
  match arrays with
  | [] => Raise ValueError
  | _ => Ok (concat arrays)
  end.

(** What one turn of the loop appends to the four lists. *)
Record segment : Type := {
  seg_alpha : list float;
  seg_beta : list float;
  seg_inds : list nat;
  seg_lengths : list float;
}.

(** [start + (end - start) * (x - lo) / length_range], as lines 273-275
    compute it: the division first, then the product, then the sum. *)
Definition interpolate (start_uac end_uac lo length_range x : float) : float :=
  (start_uac + (end_uac - start_uac) * ((x - lo) / length_range))%float.

(** Lines 267-285: the body of the loop at segment [i]. *)
Definition segment_of (path : Parameterizer.ParameterizedPath)
    (segment_points : list float) (segment_uacs : list (float * float))
    (num_segments i : nat) : result segment :=
  point ← Np.item segment_points i;
  start_ind ← first_close (Parameterizer.relative_lengths path) point;
  next_point ← Np.item segment_points (i + 1);
  end_ind ← first_close (Parameterizer.relative_lengths path) next_point;
  let segment_inds := Parameterizer.slice start_ind (end_ind + 1) (Parameterizer.inds path) in
  start_uacs ← Np.item segment_uacs i;
  end_uacs ← Np.item segment_uacs (i + 1);
  let path_segment :=
    Parameterizer.slice start_ind (end_ind + 1) (Parameterizer.relative_lengths path) in
  hi ← np_max path_segment;
  lo ← np_min path_segment;
  let length_range := (hi - lo)%float in
  let alpha := map (interpolate start_uacs.1 end_uacs.1 lo length_range) path_segment in
  let beta := map (interpolate start_uacs.2 end_uacs.2 lo length_range) path_segment in
  if i <? num_segments - 1
  then Ok {| seg_alpha := but_last alpha; seg_beta := but_last beta;
             seg_inds := but_last segment_inds; seg_lengths := but_last path_segment |}
  else Ok {| seg_alpha := alpha; seg_beta := beta;
             seg_inds := segment_inds; seg_lengths := path_segment |}.

Definition compute_uacs_polyline (path : Parameterizer.ParameterizedPath)
    (segment_points : list float) (segment_uacs : list (float * float))
    : result UACPath :=
  let num_segments := length segment_points - 1 in
  segments ← mapM (segment_of path segment_points segment_uacs num_segments)
                  (seq 0 num_segments);
  ind_values ← concatenate (seg_inds <$> segments);
  relative_lengths ← concatenate (seg_lengths <$> segments);
  alpha_values ← concatenate (seg_alpha <$> segments);
  beta_values ← concatenate (seg_beta <$> segments);
  Ok {| inds := ind_values; relative_lengths := relative_lengths;
        alpha := alpha_values; beta := beta_values |}.


(** *** The exactness property *)

(** The anchor positions increase strictly. *)
Definition strictly_increasing_values (l : list float) : Prop :=
  ∀ i x y, l !! i = Some x → l !! (i + 1) = Some y → (x <? y)%float = true.

(** The property as the specification states it: wherever the output's
    relative length equals an anchor's position, the output's coordinates
    equal that anchor's coordinates. *)
Definition exact_at_every_anchor : Prop :=
  ∀ path segment_points segment_uacs out,
    strictly_increasing_values segment_points →
    compute_uacs_polyline path segment_points segment_uacs = Ok out →
    ∀ j x k t a b,
      relative_lengths out !! j = Some x →
      segment_points !! k = Some t → segment_uacs !! k = Some (a, b) →
      (x =? t)%float = true →
      ∃ al be, alpha out !! j = Some al ∧ beta out !! j = Some be
               ∧ (al =? a)%float = true ∧ (be =? b)%float = true.

(** The part of a span that the loop keeps: all of it for the last segment,
    all but its last entry otherwise. *)
Definition kept {A} (num_segments i : nat) (a : list A) : list A :=
  if i <? num_segments - 1 then but_last a else a.

(** What the loop appends at segment [i], in terms of the inputs. *)
Definition segment_spec (path : Parameterizer.ParameterizedPath)
    (segment_points : list float) (segment_uacs : list (float * float))
    (i : nat) (s : segment) : Prop :=
  let num_segments := length segment_points - 1 in
  ∃ t t' a b a' b' start_ind end_ind lo hi,
    segment_points !! i = Some t ∧ segment_points !! (i + 1) = Some t'
    ∧ segment_uacs !! i = Some (a, b) ∧ segment_uacs !! (i + 1) = Some (a', b')
    ∧ first_close (Parameterizer.relative_lengths path) t = Ok start_ind
    ∧ first_close (Parameterizer.relative_lengths path) t' = Ok end_ind
    ∧ let span := Parameterizer.slice start_ind (end_ind + 1)
                    (Parameterizer.relative_lengths path) in
      np_min span = Ok lo ∧ np_max span = Ok hi
      ∧ seg_lengths s = kept num_segments i span
      ∧ seg_inds s = kept num_segments i
                       (Parameterizer.slice start_ind (end_ind + 1) (Parameterizer.inds path))
      ∧ seg_alpha s = kept num_segments i (map (interpolate a a' lo (hi - lo)%float) span)
      ∧ seg_beta s = kept num_segments i (map (interpolate b b' lo (hi - lo)%float) span)
      ∧ ∀ x, head (seg_lengths s) = Some x →
             (x =? lo)%float = true → is_finite x = true →
             is_finite (hi - lo)%float = true → is_zero (hi - lo)%float = false →
             is_finite a = true → is_finite b = true →
             is_finite (a' - a)%float = true → is_finite (b' - b)%float = true →
             ∃ al be, head (seg_alpha s) = Some al ∧ head (seg_beta s) = Some be
                      ∧ (al =? a)%float = true ∧ (be =? b)%float = true.

(** A straight path with one vertex at each end. *)
Definition two_vertices : Parameterizer.ParameterizedPath :=
  {| Parameterizer.inds := [7; 8]; Parameterizer.relative_lengths := [0; 1]%float |}.

(** A path with a vertex just before the middle anchor. *)
Definition near_miss : Parameterizer.ParameterizedPath :=
  {| Parameterizer.inds := [7; 8; 9; 10];
     Parameterizer.relative_lengths := [0; 0.4999999; 0.5; 1]%float |}.

(** *** Facts *)

Lemma concatenate_Ok {A} (arrays : list (list A)) (a : list A) :
  concatenate arrays = Ok a → a = concat arrays.
Proof. destruct arrays; cbn; congruence. Qed.

Lemma but_last_map {A B} (f : A → B) (a : list A) :
  but_last (map f a) = map f (but_last a).
Proof. unfold but_last. rewrite length_map. symmetry. apply fmap_take. Qed.

Lemma head_but_last {A} (a : list A) (x : A) :
  head (but_last a) = Some x → head a = Some x.
Proof.
  unfold but_last. destruct a as [|y a]; [done|]. cbn [length].
  destruct (S (length a) - 1) eqn:E; [done|]. done.
Qed.

Lemma kept_map {A B} (f : A → B) (n i : nat) (a : list A) :
  kept n i (map f a) = map f (kept n i a).
Proof. unfold kept. destruct (i <? n - 1); [apply but_last_map|done]. Qed.

Lemma head_kept {A} (n i : nat) (a : list A) (x : A) :
  head (kept n i a) = Some x → head a = Some x.
Proof. unfold kept. destruct (i <? n - 1); [apply head_but_last|done]. Qed.

Lemma head_map {A B} (f : A → B) (a : list A) : head (map f a) = f <$> head a.
Proof. by destruct a. Qed.

Lemma interpolate_at_start (s e lo range x : float) :
  is_finite s = true → is_finite (e - s)%float = true → is_finite x = true →
  is_finite range = true → is_zero range = false → (x =? lo)%float = true →
  (interpolate s e lo range x =? s)%float = true.
Proof.
  intros Hs Hd Hx Hr Hr0 Heq. unfold interpolate.
  apply F64.add_zero_r; [done|]. apply F64.mul_zero_r; [done|].
  apply F64.div_zero_l; [|done..]. by apply F64.sub_eq_zero.
Qed.

Lemma segment_of_spec path segment_points segment_uacs i s :
  segment_of path segment_points segment_uacs (length segment_points - 1) i = Ok s →
  segment_spec path segment_points segment_uacs i s.
Proof.
  unfold segment_of. intros H.
  apply bind_Ok in H as (t & Ht & H). apply Np.item_Ok in Ht.
  apply bind_Ok in H as (start_ind & Hstart & H).
  apply bind_Ok in H as (t' & Ht' & H). apply Np.item_Ok in Ht'.
  apply bind_Ok in H as (end_ind & Hend & H).
  apply bind_Ok in H as ([a b] & Ha & H). apply Np.item_Ok in Ha.
  apply bind_Ok in H as ([a' b'] & Ha' & H). apply Np.item_Ok in Ha'.
  apply bind_Ok in H as (hi & Hhi & H).
  apply bind_Ok in H as (lo & Hlo & H).
  cbn [fst snd] in H.
  set (span := Parameterizer.slice start_ind (end_ind + 1)
                 (Parameterizer.relative_lengths path)) in *.
  assert (Hs : seg_lengths s = kept (length segment_points - 1) i span
               ∧ seg_inds s = kept (length segment_points - 1) i
                                (Parameterizer.slice start_ind (end_ind + 1)
                                   (Parameterizer.inds path))
               ∧ seg_alpha s = kept (length segment_points - 1) i
                                 (map (interpolate a a' lo (hi - lo)%float) span)
               ∧ seg_beta s = kept (length segment_points - 1) i
                                (map (interpolate b b' lo (hi - lo)%float) span)).
  { unfold kept. destruct (i <? length segment_points - 1 - 1);
      injection H as <-; done. }
  destruct Hs as (Hl & Hi & Hal & Hbe).
  exists t, t', a, b, a', b', start_ind, end_ind, lo, hi.
  split_and!; try done. cbv zeta. fold span. split_and!; try done.
  intros x Hx Heq Hfx Hfr Hr0 Hfa Hfb Hda Hdb.
  rewrite Hl in Hx. rewrite Hal, Hbe, !kept_map, !head_map, Hx. cbn.
  eexists _, _. split_and!; try done; by apply interpolate_at_start.
Qed.

(** C5 (amended): the output of [compute_uacs_polyline] is the concatenation
    of one piece per consecutive anchor pair; each piece is the span between
    the first vertices matched to the two anchors (within the tolerance of
    [np.isclose]), interpolated with the span's own minimum and range, and
    without its last vertex except for the last piece.  At the first vertex
    of every piece the two coordinates equal the coordinates of the anchor
    that starts the piece exactly, provided that vertex carries the span's
    minimum and the values involved are finite with a non-zero range. *)
Theorem compute_uacs_polyline_exact_at_segment_starts
    (path : Parameterizer.ParameterizedPath) (segment_points : list float)
    (segment_uacs : list (float * float)) (out : UACPath) :
  compute_uacs_polyline path segment_points segment_uacs = Ok out →
  ∃ segments,
    length segments = length segment_points - 1
    ∧ inds out = concat (seg_inds <$> segments)
    ∧ relative_lengths out = concat (seg_lengths <$> segments)
    ∧ alpha out = concat (seg_alpha <$> segments)
    ∧ beta out = concat (seg_beta <$> segments)
    ∧ ∀ i s, segments !! i = Some s →
             segment_spec path segment_points segment_uacs i s.
Proof.
  unfold compute_uacs_polyline. intros H.
  apply bind_Ok in H as (segments & Hsegs & H).
  apply bind_Ok in H as (ind_values & Hinds & H).
  apply bind_Ok in H as (lengths & Hlengths & H).
  apply bind_Ok in H as (alphas & Halpha & H).
  apply bind_Ok in H as (betas & Hbeta & H).
  injection H as <-. cbn [inds relative_lengths alpha beta].
  apply concatenate_Ok in Hinds, Hlengths, Halpha, Hbeta.
  apply mapM_Ok in Hsegs as [Hlen Hsegs]. rewrite length_seq in Hlen.
  exists segments. split_and!; try done.
  intros i s Hs.
  assert (Hi : i < length segment_points - 1).
  { rewrite <- Hlen. by eapply lookup_lt_Some. }
  destruct (Hsegs i i) as (s' & Hs' & Hrun).
  { by rewrite lookup_seq_lt. }
  assert (s' = s) as -> by congruence.
  by apply segment_of_spec.
Qed.

Lemma compute_uacs_polyline_exact_at_segment_starts_witness :
  ∃ segments,
    length segments = length [0; 0.5; 1]%float - 1
    ∧ [7; 8; 9; 10] = concat (seg_inds <$> segments)
    ∧ [0; 0.4999999; 0.5; 1]%float = concat (seg_lengths <$> segments)
    ∧ [0; 1; 1; 1]%float = concat (seg_alpha <$> segments)
    ∧ [0; 0; 1.9999996000575911e-07; 1]%float = concat (seg_beta <$> segments)
    ∧ ∀ i s, segments !! i = Some s →
             segment_spec near_miss [0; 0.5; 1]%float [(0, 0); (1, 0); (1, 1)]%float i s.
Proof.
  apply (compute_uacs_polyline_exact_at_segment_starts near_miss
           [0; 0.5; 1]%float [(0, 0); (1, 0); (1, 1)]%float
           {| inds := [7; 8; 9; 10];
              relative_lengths := [0; 0.4999999; 0.5; 1]%float;
              alpha := [0; 1; 1; 1]%float;
              beta := [0; 0; 1.9999996000575911e-07; 1]%float |}).
  vm_compute. reflexivity.
Defined.

(** C5 (counterexample): with anchors at 0 and 1 carrying the coordinates
    (0.3, 0) and (0.9, 0), the vertex at relative length 1 gets
    0.3 + (0.9 - 0.3) * 1 = 0.9000000000000001, not 0.9. *)
Lemma compute_uacs_polyline_misses_last_anchor : ¬ exact_at_every_anchor.
Proof.
  intros H.
  destruct (H two_vertices [0; 1]%float [(0.3, 0); (0.9, 0)]%float
              {| inds := [7; 8]; relative_lengths := [0; 1]%float;
                 alpha := [0.3; 0.3 + (0.9 - 0.3) * ((1 - 0) / (1 - 0))]%float;
                 beta := [0; 0]%float |}
              ltac:(intros [|[|i]] x y Hx Hy; cbn in Hx, Hy; try done;
                    injection Hx as <-; injection Hy as <-; reflexivity)
              ltac:(vm_compute; reflexivity)
              1 1%float 1 1%float 0.9%float 0%float
              eq_refl eq_refl eq_refl eq_refl)
    as (al & be & Hal & _ & Heq & _).
  cbn in Hal. injection Hal as <-. vm_compute in Heq. discriminate.
Qed.

(** A vertex just inside the tolerance of [np.isclose] is matched to the
    middle anchor in place of the vertex that sits on it: the vertex at
    relative length 0.5 does not get the anchor's coordinates (1, 0). *)
Lemma compute_uacs_polyline_matches_within_tolerance :
  compute_uacs_polyline near_miss [0; 0.5; 1]%float [(0, 0); (1, 0); (1, 1)]%float
  = Ok {| inds := [7; 8; 9; 10];
          relative_lengths := [0; 0.4999999; 0.5; 1]%float;
          alpha := [0; 1; 1; 1]%float;
          beta := [0; 0; 1.9999996000575911e-07; 1]%float |}.
Proof. vm_compute. reflexivity. Qed.

(** *** What a successful run needs, and the shape of its result *)

Lemma first_close_Ok (a : list float) (t : float) (j : nat) :
  first_close a t = Ok j → ∃ x, a !! j = Some x ∧ isclose x t = true.
Proof.
  unfold first_close. intros H. apply Np.item_Ok in H.
  apply list_elem_of_lookup_2, Np.where_true_elem in H.
  rewrite list_lookup_fmap in H. destruct (a !! j) as [x|]; [|done].
  exists x. split; [done|]. cbn in H. congruence.
Qed.

Lemma np_min_Ok (a : list float) (lo : float) : np_min a = Ok lo → a ≠ [].
Proof. by destruct a. Qed.

Lemma length_kept {A B} (n i : nat) (a : list A) (b : list B) :
  length a = length b → length (kept n i a) = length (kept n i b).
Proof.
  intros H. unfold kept, but_last. destruct (i <? n - 1); [|done].
  rewrite !length_take. lia.
Qed.

Lemma length_concat_fmap {S A B} (f : S → list A) (g : S → list B) (l : list S) :
  Forall (λ s, length (f s) = length (g s)) l →
  length (concat (f <$> l)) = length (concat (g <$> l)).
Proof.
  induction 1 as [|s l Hs _ IH]; [done|].
  rewrite !fmap_cons. cbn [concat]. rewrite !length_app. lia.
Qed.

Lemma compute_uacs_polyline_segments path segment_points segment_uacs out :
  compute_uacs_polyline path segment_points segment_uacs = Ok out →
  ∃ segments,
    segments ≠ [] ∧ length segments = length segment_points - 1
    ∧ inds out = concat (seg_inds <$> segments)
    ∧ relative_lengths out = concat (seg_lengths <$> segments)
    ∧ alpha out = concat (seg_alpha <$> segments)
    ∧ beta out = concat (seg_beta <$> segments)
    ∧ ∀ i s, segments !! i = Some s →
             segment_spec path segment_points segment_uacs i s.
Proof.
  unfold compute_uacs_polyline. intros H.
  apply bind_Ok in H as (segments & Hsegs & H).
  apply bind_Ok in H as (ind_values & Hinds & H).
  apply bind_Ok in H as (lengths & Hlengths & H).
  apply bind_Ok in H as (alphas & Halpha & H).
  apply bind_Ok in H as (betas & Hbeta & H).
  injection H as <-. cbn [inds relative_lengths alpha beta].
  assert (Hne : segments ≠ []) by (intros ->; done).
  apply concatenate_Ok in Hinds, Hlengths, Halpha, Hbeta.
  apply mapM_Ok in Hsegs as [Hlen Hsegs]. rewrite length_seq in Hlen.
  exists segments. split_and!; try done.
  intros i s Hs.
  assert (Hi : i < length segment_points - 1).
  { rewrite <- Hlen. by eapply lookup_lt_Some. }
  destruct (Hsegs i i) as (s' & Hs' & Hrun); [by rewrite lookup_seq_lt|].
  assert (s' = s) as -> by congruence.
  by apply segment_of_spec.
Qed.

(** The three computed arrays of the result have one length, and the vertex
    array has it too when the input path lists one relative length per
    vertex. *)
Theorem compute_uacs_polyline_arrays_aligned
    (path : Parameterizer.ParameterizedPath) (segment_points : list float)
    (segment_uacs : list (float * float)) (out : UACPath) :
  compute_uacs_polyline path segment_points segment_uacs = Ok out →
  length (alpha out) = length (relative_lengths out)
  ∧ length (beta out) = length (relative_lengths out)
  ∧ (length (Parameterizer.inds path) = length (Parameterizer.relative_lengths path) →
     length (inds out) = length (relative_lengths out)).
Proof.
  intros H.
  destruct (compute_uacs_polyline_segments _ _ _ _ H)
    as (segments & _ & _ & -> & -> & -> & -> & Hspec).
  assert (Hall : Forall (λ s, length (seg_alpha s) = length (seg_lengths s)
                              ∧ length (seg_beta s) = length (seg_lengths s)
                              ∧ (length (Parameterizer.inds path)
                                 = length (Parameterizer.relative_lengths path) →
                                 length (seg_inds s) = length (seg_lengths s))) segments).
  { apply Forall_forall. intros s Hs. apply list_elem_of_lookup in Hs as [i Hi].
    destruct (Hspec i s Hi)
      as (t & t' & a & b & a' & b' & start_ind & end_ind & lo & hi & _ & _ & _ & _ & _ & _
          & _ & _ & -> & -> & -> & -> & _).
    split_and!.
    - apply length_kept. by rewrite length_map.
    - apply length_kept. by rewrite length_map.
    - intros Hlen. apply length_kept. unfold Parameterizer.slice.
      rewrite !length_take, !length_drop. lia. }
  split_and!.
  - apply length_concat_fmap. eapply Forall_impl; [exact Hall|]. by intros s (? & _).
  - apply length_concat_fmap. eapply Forall_impl; [exact Hall|]. by intros s (_ & ? & _).
  - intros Hlen. apply length_concat_fmap. eapply Forall_impl; [exact Hall|].
    intros s (_ & _ & Hs). by apply Hs.
Qed.

Lemma compute_uacs_polyline_arrays_aligned_witness :
  length [0; 1; 1; 1]%float = length [0; 0.4999999; 0.5; 1]%float
  ∧ length [0; 0; 1.9999996000575911e-07; 1]%float = length [0; 0.4999999; 0.5; 1]%float
  ∧ (length (Parameterizer.inds near_miss)
     = length (Parameterizer.relative_lengths near_miss) →
     length [7; 8; 9; 10] = length [0; 0.4999999; 0.5; 1]%float).
Proof.
  apply (compute_uacs_polyline_arrays_aligned near_miss
           [0; 0.5; 1]%float [(0, 0); (1, 0); (1, 1)]%float
           {| inds := [7; 8; 9; 10];
              relative_lengths := [0; 0.4999999; 0.5; 1]%float;
              alpha := [0; 1; 1; 1]%float;
              beta := [0; 0; 1.9999996000575911e-07; 1]%float |}).
  vm_compute. reflexivity.
Defined.

(** A run succeeds only if there are at least two anchors, no fewer anchor
    coordinates than anchors, every anchor position is within the tolerance
    of [np.isclose] of some vertex's relative length, and the first vertices
    matched to consecutive anchors do not run backwards along the path. *)
Theorem compute_uacs_polyline_needs_matched_anchors
    (path : Parameterizer.ParameterizedPath) (segment_points : list float)
    (segment_uacs : list (float * float)) (out : UACPath) :
  compute_uacs_polyline path segment_points segment_uacs = Ok out →
  2 ≤ length segment_points
  ∧ length segment_points ≤ length segment_uacs
  ∧ (∀ k t, segment_points !! k = Some t →
            ∃ j x, first_close (Parameterizer.relative_lengths path) t = Ok j
                   ∧ Parameterizer.relative_lengths path !! j = Some x
                   ∧ isclose x t = true)
  ∧ (∀ k t t' j j',
       segment_points !! k = Some t → segment_points !! (k + 1) = Some t' →
       first_close (Parameterizer.relative_lengths path) t = Ok j →
       first_close (Parameterizer.relative_lengths path) t' = Ok j' →
       j ≤ j').
Proof.
  intros H.
  destruct (compute_uacs_polyline_segments _ _ _ _ H)
    as (segments & Hne & Hlen & _ & _ & _ & _ & Hspec).
  assert (Hpos : 0 < length segments) by (destruct segments; [done|cbn; lia]).
  assert (Hseg : ∀ i, i < length segment_points - 1 →
                      ∃ s, segment_spec path segment_points segment_uacs i s).
  { intros i Hi. destruct (lookup_lt_is_Some_2 segments i) as [s Hs]; [lia|].
    exists s. by apply Hspec. }
  split_and!.
  - lia.
  - destruct (Hseg (length segment_points - 2)) as (s & Hs); [lia|].
    destruct Hs as (t & t' & a & b & a' & b' & si & ei & lo & hi & _ & _ & _ & Hu & _).
    apply lookup_lt_Some in Hu. lia.
  - intros k t Hk. pose proof (lookup_lt_Some _ _ _ Hk) as Hlt.
    destruct (decide (k < length segment_points - 1)) as [Hin|Hlast].
    + destruct (Hseg k Hin)
        as (s & t0 & t' & a & b & a' & b' & si & ei & lo & hi & Ht & _ & _ & _ & Hs & _).
      assert (t0 = t) as -> by congruence.
      destruct (first_close_Ok _ _ _ Hs) as (x & Hx & Hc). by exists si, x.
    + destruct (Hseg (k - 1))
        as (s & t0 & t' & a & b & a' & b' & si & ei & lo & hi & _ & Ht & _ & _ & _ & He & _);
        [lia|].
      replace (k - 1 + 1) with k in Ht by lia.
      assert (t' = t) as -> by congruence.
      destruct (first_close_Ok _ _ _ He) as (x & Hx & Hc). by exists ei, x.
  - intros k t t' j j' Hk Hk' Hj Hj'.
    assert (Hin : k < length segment_points - 1).
    { apply lookup_lt_Some in Hk'. lia. }
    destruct (Hseg k Hin)
      as (s & t0 & t0' & a & b & a' & b' & si & ei & lo & hi & Ht & Ht' & _ & _ & Hs & He
          & Hmin & _).
    assert (si = j) as -> by congruence. assert (ei = j') as -> by congruence.
    apply np_min_Ok in Hmin. unfold Parameterizer.slice in Hmin.
    destruct (decide (j ≤ j')) as [|Hgt]; [done|].
    exfalso. apply Hmin. replace (j' + 1 - j) with 0 by lia. done.
Qed.

Lemma compute_uacs_polyline_needs_matched_anchors_witness :
  2 ≤ length [0; 0.5; 1]%float
  ∧ length [0; 0.5; 1]%float ≤ length [(0, 0); (1, 0); (1, 1)]%float
  ∧ (∀ k t, [0; 0.5; 1]%float !! k = Some t →
            ∃ j x, first_close (Parameterizer.relative_lengths near_miss) t = Ok j
                   ∧ Parameterizer.relative_lengths near_miss !! j = Some x
                   ∧ isclose x t = true)
  ∧ (∀ k t t' j j',
       [0; 0.5; 1]%float !! k = Some t → [0; 0.5; 1]%float !! (k + 1) = Some t' →
       first_close (Parameterizer.relative_lengths near_miss) t = Ok j →
       first_close (Parameterizer.relative_lengths near_miss) t' = Ok j' →
       j ≤ j').
Proof.
  apply (compute_uacs_polyline_needs_matched_anchors near_miss
           [0; 0.5; 1]%float [(0, 0); (1, 0); (1, 1)]%float
           {| inds := [7; 8; 9; 10];
              relative_lengths := [0; 0.4999999; 0.5; 1]%float;
              alpha := [0; 1; 1; 1]%float;
              beta := [0; 0; 1.9999996000575911e-07; 1]%float |}).
  vm_compute. reflexivity.
Defined.

(** *** The stretch of the path that is returned *)

Lemma slice_app {A} (a b c : nat) (l : list A) :
  a ≤ b → b ≤ c →
  Parameterizer.slice a b l ++ Parameterizer.slice b c l = Parameterizer.slice a c l.
Proof.
  intros Hab Hbc. unfold Parameterizer.slice.
  replace (drop b l) with (drop (b - a) (drop a l)) by (rewrite drop_drop; f_equal; lia).
  rewrite take_take_drop. f_equal. lia.
Qed.

Lemma but_last_slice {A} (s e : nat) (l : list A) :
  s ≤ e → e < length l →
  but_last (Parameterizer.slice s (e + 1) l) = Parameterizer.slice s e l.
Proof.
  intros Hse He. unfold but_last, Parameterizer.slice.
  rewrite length_take, length_drop, take_take. f_equal. lia.
Qed.

(** Pieces cut between consecutive positions, each without its last entry
    except the last one, make up the stretch from the first position to the
    last. *)
Lemma concat_kept_slices {A} (a : list A) (starts : list nat) (chunks : list (list A))
    (n : nat) :
  length chunks = n → 1 ≤ n →
  (∀ i, i < n → ∃ s e, starts !! i = Some s ∧ starts !! (i + 1) = Some e
                       ∧ s ≤ e ∧ e < length a
                       ∧ chunks !! i = Some (kept n i (Parameterizer.slice s (e + 1) a))) →
  ∃ s0 e, starts !! 0 = Some s0 ∧ starts !! n = Some e
          ∧ concat chunks = Parameterizer.slice s0 (e + 1) a.
Proof.
  intros Hlen Hn Hall.
  destruct (Hall 0) as (s0 & e0 & Hs0 & _); [lia|].
  assert (Hpre : ∀ m, m ≤ n - 1 →
            ∃ sm, starts !! m = Some sm ∧ s0 ≤ sm
                  ∧ concat (take m chunks) = Parameterizer.slice s0 sm a).
  { induction m as [|m IH]; intros Hm.
    - exists s0. split_and!; [done..|]. unfold Parameterizer.slice.
      by rewrite Nat.sub_diag.
    - destruct IH as (sm & Hsm & Hle & Hc); [lia|].
      destruct (Hall m) as (s & e & Hs & He & Hse & Hea & Hchunk); [lia|].
      assert (s = sm) as -> by congruence.
      exists e. replace (m + 1) with (S m) in He by lia. split_and!; [done|lia|].
      rewrite (take_S_r _ _ _ Hchunk), concat_app, Hc. cbn [concat].
      rewrite app_nil_r. unfold kept.
      destruct (Nat.ltb_spec m (n - 1)); [|lia].
      rewrite but_last_slice by done. by apply slice_app. }
  destruct (Hpre (n - 1)) as (sm & Hsm & Hle & Hc); [lia|].
  destruct (Hall (n - 1)) as (s & e & Hs & He & Hse & Hea & Hchunk); [lia|].
  assert (s = sm) as -> by congruence.
  replace (n - 1 + 1) with n in He by lia.
  exists s0, e. split_and!; [done..|].
  rewrite <- (take_drop (n - 1) chunks), concat_app, Hc.
  assert (drop (n - 1) chunks = [kept n (n - 1) (Parameterizer.slice sm (e + 1) a)]) as ->.
  { apply list_eq. intros [|j].
    - rewrite lookup_drop, Nat.add_0_r. by rewrite Hchunk.
    - rewrite lookup_drop. cbn. apply lookup_ge_None. lia. }
  cbn [concat]. rewrite app_nil_r. unfold kept.
  destruct (Nat.ltb_spec (n - 1) (n - 1)); [lia|]. apply slice_app; lia.
Qed.

(** The result holds the stretch of the path from the first vertex matched
    to the first anchor up to the first vertex matched to the last anchor:
    every vertex of the stretch once, in path order, with its relative
    length.  The vertices are the stretch when the path lists one relative
    length per vertex. *)
Theorem compute_uacs_polyline_returns_the_stretch
    (path : Parameterizer.ParameterizedPath) (segment_points : list float)
    (segment_uacs : list (float * float)) (out : UACPath) :
  compute_uacs_polyline path segment_points segment_uacs = Ok out →
  ∃ first_point last_point first_ind last_ind,
    head segment_points = Some first_point ∧ last segment_points = Some last_point
    ∧ first_close (Parameterizer.relative_lengths path) first_point = Ok first_ind
    ∧ first_close (Parameterizer.relative_lengths path) last_point = Ok last_ind
    ∧ relative_lengths out
      = Parameterizer.slice first_ind (last_ind + 1) (Parameterizer.relative_lengths path)
    ∧ (length (Parameterizer.inds path) = length (Parameterizer.relative_lengths path) →
       inds out = Parameterizer.slice first_ind (last_ind + 1) (Parameterizer.inds path)).
Proof.
  intros H.
  destruct (compute_uacs_polyline_segments _ _ _ _ H)
    as (segments & Hne & Hlen & -> & -> & _ & _ & Hspec).
  set (rl := Parameterizer.relative_lengths path) in *.
  set (n := length segment_points - 1) in *.
  assert (Hn : 1 ≤ n) by (destruct segments; [done|cbn in Hlen; lia]).
  assert (Hseg : ∀ i, i < n →
            ∃ s t t' si ei,
              segments !! i = Some s
              ∧ segment_points !! i = Some t ∧ segment_points !! (i + 1) = Some t'
              ∧ first_close rl t = Ok si ∧ first_close rl t' = Ok ei
              ∧ si ≤ ei ∧ ei < length rl
              ∧ seg_lengths s = kept n i (Parameterizer.slice si (ei + 1) rl)
              ∧ seg_inds s = kept n i (Parameterizer.slice si (ei + 1)
                                         (Parameterizer.inds path))).
  { intros i Hi. destruct (lookup_lt_is_Some_2 segments i) as [s Hs]; [lia|].
    destruct (Hspec i s Hs)
      as (t & t' & a & b & a' & b' & si & ei & lo & hi & Ht & Ht' & _ & _ & Hsi & Hei
          & Hmin & _ & Hl & Hi' & _).
    exists s, t, t', si, ei. split_and!; try done.
    - apply np_min_Ok in Hmin. unfold Parameterizer.slice in Hmin.
      destruct (decide (si ≤ ei)) as [|Hgt]; [done|].
      exfalso. apply Hmin. replace (ei + 1 - si) with 0 by lia. done.
    - destruct (first_close_Ok _ _ _ Hei) as (x & Hx & _). by eapply lookup_lt_Some. }
  (* the first matches of all anchors, as a list *)
  assert (Hmatch : ∀ k, k < n + 1 → ∃ t j, segment_points !! k = Some t
                                           ∧ first_close rl t = Ok j).
  { intros k Hk. destruct (decide (k < n)) as [Hlt|Hge].
    - destruct (Hseg k Hlt) as (s & t & t' & si & ei & _ & Ht & _ & Hsi & _). by exists t, si.
    - destruct (Hseg (k - 1)) as (s & t & t' & si & ei & _ & _ & Ht' & _ & Hei & _); [lia|].
      replace (k - 1 + 1) with k in Ht' by lia. by exists t', ei. }
  set (starts := omap (λ t, match first_close rl t with Ok j => Some j | Raise _ => None end)
                      segment_points).
  assert (Hstarts : ∀ k t j, segment_points !! k = Some t → first_close rl t = Ok j →
                             starts !! k = Some j).
  { assert (Hsame : starts = (λ t, match first_close rl t with Ok j => j | Raise _ => 0 end)
                               <$> segment_points).
    { unfold starts.
      assert (Hall : Forall (λ t, ∃ j, first_close rl t = Ok j) segment_points).
      { apply Forall_forall. intros t Ht. apply list_elem_of_lookup in Ht as [k Hk].
        destruct (Hmatch k) as (t' & j & Hk' & Hj).
        { apply lookup_lt_Some in Hk. unfold n. lia. }
        exists j. congruence. }
      clear -Hall. induction Hall as [|t ts [j Hj] _ IH]; [done|].
      cbn [omap list_omap]. rewrite fmap_cons, Hj. cbn. f_equal. exact IH. }
    intros k t j Hk Hj. rewrite Hsame, list_lookup_fmap, Hk. cbn. by rewrite Hj. }
  assert (Hchain : ∀ (A : Type) (a : list A) (f : segment → list A),
            length a = length rl →
            (∀ i s si ei, segments !! i = Some s → starts !! i = Some si →
                          starts !! (i + 1) = Some ei →
                          f s = kept n i (Parameterizer.slice si (ei + 1) a)) →
            ∃ s0 e, starts !! 0 = Some s0 ∧ starts !! n = Some e
                    ∧ concat (f <$> segments) = Parameterizer.slice s0 (e + 1) a).
  { intros A a f Hla Hf. apply concat_kept_slices; [by rewrite length_fmap|done|].
    intros i Hi.
    destruct (Hseg i Hi) as (s & t & t' & si & ei & Hs & Ht & Ht' & Hsi & Hei & Hle & Hlt & _).
    pose proof (Hstarts _ _ _ Ht Hsi) as H1. pose proof (Hstarts _ _ _ Ht' Hei) as H2.
    exists si, ei. split_and!; [done|done|done|lia|].
    rewrite list_lookup_fmap, Hs. cbn. f_equal. by apply Hf. }
  destruct (Hmatch 0) as (t0 & j0 & Ht0 & Hj0); [lia|].
  destruct (Hmatch n) as (tn & jn & Htn & Hjn); [lia|].
  exists t0, tn, j0, jn.
  pose proof (Hstarts _ _ _ Ht0 Hj0) as Hs0. pose proof (Hstarts _ _ _ Htn Hjn) as Hsn.
  split_and!; [by rewrite head_lookup| |done|done| |].
  - rewrite last_lookup. replace (pred (length segment_points)) with n by (unfold n; lia).
    done.
  - destruct (Hchain float rl seg_lengths eq_refl) as (s0 & e & H0 & He & ->).
    { intros i s si ei Hs Hsi Hei.
      destruct (Hseg i) as (s' & t & t' & si' & ei' & Hs' & Ht & Ht' & Hsi' & Hei' & _ & _
                             & Hl & _).
      { rewrite <- Hlen. by eapply lookup_lt_Some. }
      assert (s' = s) as -> by congruence.
      pose proof (Hstarts _ _ _ Ht Hsi'). pose proof (Hstarts _ _ _ Ht' Hei').
      assert (si' = si) as -> by congruence. assert (ei' = ei) as -> by congruence. done. }
    assert (s0 = j0) as -> by congruence. assert (e = jn) as -> by congruence. done.
  - intros Hli. destruct (Hchain nat (Parameterizer.inds path) seg_inds Hli)
      as (s0 & e & H0 & He & ->).
    { intros i s si ei Hs Hsi Hei.
      destruct (Hseg i) as (s' & t & t' & si' & ei' & Hs' & Ht & Ht' & Hsi' & Hei' & _ & _
                             & _ & Hl).
      { rewrite <- Hlen. by eapply lookup_lt_Some. }
      assert (s' = s) as -> by congruence.
      pose proof (Hstarts _ _ _ Ht Hsi'). pose proof (Hstarts _ _ _ Ht' Hei').
      assert (si' = si) as -> by congruence. assert (ei' = ei) as -> by congruence. done. }
    assert (s0 = j0) as -> by congruence. assert (e = jn) as -> by congruence. done.
Qed.

Lemma compute_uacs_polyline_returns_the_stretch_witness :
  ∃ first_point last_point first_ind last_ind,
    head [0; 0.5; 1]%float = Some first_point ∧ last [0; 0.5; 1]%float = Some last_point
    ∧ first_close (Parameterizer.relative_lengths near_miss) first_point = Ok first_ind
    ∧ first_close (Parameterizer.relative_lengths near_miss) last_point = Ok last_ind
    ∧ [0; 0.4999999; 0.5; 1]%float
      = Parameterizer.slice first_ind (last_ind + 1)
          (Parameterizer.relative_lengths near_miss)
    ∧ (length (Parameterizer.inds near_miss)
       = length (Parameterizer.relative_lengths near_miss) →
       [7; 8; 9; 10] = Parameterizer.slice first_ind (last_ind + 1)
                         (Parameterizer.inds near_miss)).
Proof.
  apply (compute_uacs_polyline_returns_the_stretch near_miss
           [0; 0.5; 1]%float [(0, 0); (1, 0); (1, 1)]%float
           {| inds := [7; 8; 9; 10];
              relative_lengths := [0; 0.4999999; 0.5; 1]%float;
              alpha := [0; 1; 1; 1]%float;
              beta := [0; 0; 1.9999996000575911e-07; 1]%float |}).
  vm_compute. reflexivity.
Defined.

End Assigner.

(** ** The Constrained Path Router: [construct_shortest_path_between_subsets]

    [construction_base.py], lines 80-109.  The mesh enters through its
    unique edges and their lengths. *)

Module Router.

(** An edge of the surface mesh, as a row of [tm_mesh.edges_unique]. *)
Definition edge : Type := (nat * nat)%type.

(** [np.isin(edges, set).any(axis=1)] and [.all(axis=1)] for one row. *)
Definition touches (set : list nat) (e : edge) : bool :=
  Np.contains e.1 set || Np.contains e.2 set.

Definition inside (set : list nat) (e : edge) : bool :=
  Np.contains e.1 set && Np.contains e.2 set.

(** [np.delete(a, inds, axis=0)] for row indices within the array. *)
Fixpoint delete_from {A} (i : nat) (a : list A) (inds : list nat) : list A :=
  match a with
  | [] => []
  | x :: rest =>
      if Np.contains i inds then delete_from (S i) rest inds
      else x :: delete_from (S i) rest inds
  end.

Definition delete {A} (a : list A) (inds : list nat) : list A := delete_from 0 a inds.

(** [np.argmin] of the flattened array: the first position of the minimum,
    a NaN counting as the minimum; an empty array is refused. *)
Definition argmin_step (best : nat * float) (x : nat * float) : nat * float :=
  if is_nan best.2 then best
  else if is_nan x.2 || (x.2 <? best.2)%float then x
  else best.

Definition argmin (a : list float) : result nat :=
  match a with
  | [] => Raise ValueError
  | x :: rest => Ok (foldl argmin_step (0, x) (zip (seq 1 (length rest)) rest)).1
  end.

(** [np.unravel_index(k, (rows, columns))]. *)
Definition unravel_index (k columns : nat) : nat * nat := (k / columns, k mod columns).

(** *** The graph library

    [ig.Graph(edges, directed=False)] has the vertices [0 .. max id]; the
    weighted single-source search is a label-correcting one: a vertex's
    distance starts at infinity, and an edge lowers it whenever the distance
    of its other end plus the edge's weight is smaller, which also records
    that other end as the vertex's parent. *)

Record graph : Type := {
  vcount : nat;
  es : list edge;
}.

Definition Graph (edges : list edge) : graph :=
  {| vcount := foldr (λ e n, S (e.1 `max` e.2) `max` n) 0 edges; es := edges |}.

Record search : Type := {
  dist : list float;
  parent : list (option nat);
}.

Definition relax (u v : nat) (w : float) (st : search) : search :=
  match dist st !! u, dist st !! v with
  | Some du, Some dv =>
      if (du + w <? dv)%float
      then {| dist := <[v := (du + w)%float]> (dist st);
              parent := <[v := Some u]> (parent st) |}
      else st
  | _, _ => st
  end.

Definition relax_edge (st : search) (ew : edge * float) : search :=
  relax ew.1.2 ew.1.1 ew.2 (relax ew.1.1 ew.1.2 ew.2 st).

Definition relax_all (g : graph) (weights : list float) (st : search) : search :=
  foldl relax_edge st (zip (es g) weights).

Definition start_search (g : graph) (source : nat) : search :=
  {| dist := <[source := 0%float]> (replicate (vcount g) infinity);
     parent := replicate (vcount g) None |}.

Definition run_search (g : graph) (weights : list float) (source : nat) : search :=
  Nat.iter (vcount g) (relax_all g weights) (start_search g source).

(** A vertex id is checked against the graph. *)
Definition vertex (g : graph) (v : nat) : result nat :=
  if v <? vcount g then Ok v else Raise ValueError.

(** [graph.distances(source, target, weights)]: one row per source. *)
Definition distances (g : graph) (source target : list nat) (weights : list float)
    : result (list (list float)) :=
  mapM (λ s, s ← vertex g s;
             mapM (λ t, t ← vertex g t;
                        Np.item (dist (run_search g weights s)) t) target) source.

(** The path to [v] read off the parents, the empty path when [v] was never
    reached. *)
Fixpoint walk (fuel : nat) (parents : list (option nat)) (source v : nat)
    (acc : list nat) : list nat :=
  match fuel with
  | 0 => []
  | S fuel' =>
      if v =? source then v :: acc
      else match parents !! v with
           | Some (Some u) => walk fuel' parents source u (v :: acc)
           | _ => []
           end
  end.

(** [graph.get_shortest_paths(v, to=w, weights)[0]]. *)
Definition get_shortest_paths (g : graph) (v to : nat) (weights : list float)
    : result (list nat) :=
  v ← vertex g v;
  to ← vertex g to;
  Ok (walk (vcount g) (parent (run_search g weights v)) v to []).

(** *** [construct_shortest_path_between_subsets]

    [edges] and [edge_lengths] stand for [tm_mesh.edges_unique] and
    [tm_mesh.edges_unique_length]. *)
Definition construct_shortest_path_between_subsets
    (edges : list edge) (edge_lengths : list float)
    (subset_one subset_two inadmissible_contact_set inadmissible_along_set : list nat)
    : result (list nat) :=
  let inadmissible_contact_edges :=
    Np.where_true (map (touches inadmissible_contact_set) edges) in
  let inadmissible_along_edges :=
    Np.where_true (map (inside inadmissible_along_set) edges) in
  let inadmissible_edges :=
    Np.unique (inadmissible_contact_edges ++ inadmissible_along_edges) in
  let admissible_edges := delete edges inadmissible_edges in
  let admissible_edges_lengths := delete edge_lengths inadmissible_edges in
  let graph := Graph admissible_edges in
  distances ← distances graph subset_one subset_two admissible_edges_lengths;
  flat_index ← argmin (concat distances);
  let rel_start_point := (unravel_index flat_index (length subset_two)).1 in
  let rel_end_point := (unravel_index flat_index (length subset_two)).2 in
  start_vertex ← Np.item subset_one rel_start_point;
  end_vertex ← Np.item subset_two rel_end_point;
  get_shortest_paths graph start_vertex end_vertex admissible_edges_lengths.

(** *** What the router is expected to do *)

(** An edge that survives the filter: it touches no vertex of the contact
    set and does not run inside the along set. *)
Definition admissible (inadmissible_contact_set inadmissible_along_set : list nat)
    (e : edge) : bool :=
  negb (touches inadmissible_contact_set e) && negb (inside inadmissible_along_set e).

(** The edges of the mesh that survive the filter. *)
Definition filtered (edges : list edge)
    (inadmissible_contact_set inadmissible_along_set : list nat) : list edge :=
  filter (λ e, admissible inadmissible_contact_set inadmissible_along_set e = true) edges.

(** Two vertices joined by an edge of the list, in either direction. *)
Definition joined (edges : list edge) (u v : nat) : Prop :=
  (u, v) ∈ edges ∨ (v, u) ∈ edges.

(** No path of admissible edges joins a vertex of one subset to a vertex of
    the other. *)
Definition disconnected (edges : list edge)
    (subset_one subset_two inadmissible_contact_set inadmissible_along_set : list nat)
    : Prop :=
  ∀ u v, u ∈ subset_one → v ∈ subset_two →
         ¬ rtc (joined (filtered edges inadmissible_contact_set inadmissible_along_set)) u v.

(** Consecutive vertices of the path are joined by an edge of the list. *)
Fixpoint chain (edges : list edge) (path : list nat) : Prop :=
  match path with
  | u :: (v :: _) as rest => joined edges u v ∧ chain edges rest
  | _ => True
  end.

(** What the search keeps true: both arrays have one entry per vertex, a
    vertex with a distance other than infinity can be reached from the
    source, and a recorded parent is a neighbour that can be reached. *)
Definition search_invariant (g : graph) (source : nat) (st : search) : Prop :=
  length (dist st) = vcount g
  ∧ length (parent st) = vcount g
  ∧ (∀ v d, dist st !! v = Some d → d = infinity ∨ rtc (joined (es g)) source v)
  ∧ (∀ v u, parent st !! v = Some (Some u) →
            joined (es g) u v ∧ rtc (joined (es g)) source u).

(** A strip of four vertices in a row. *)
Definition strip : list edge := [(0, 1); (1, 2); (2, 3)].

(** *** Facts about the helpers *)

Lemma elem_of_insert_unique (x y : nat) (l : list nat) :
  y ∈ Np.insert_unique x l ↔ y = x ∨ y ∈ l.
Proof.
  induction l as [|z l IH]; cbn [Np.insert_unique].
  - rewrite list_elem_of_singleton, elem_of_nil. tauto.
  - destruct (Nat.ltb_spec x z).
    + by rewrite elem_of_cons.
    + destruct (Nat.eqb_spec x z) as [->|Hne].
      * rewrite elem_of_cons. tauto.
      * rewrite !elem_of_cons, IH. tauto.
Qed.

Lemma elem_of_unique (y : nat) (l : list nat) : y ∈ Np.unique l ↔ y ∈ l.
Proof.
  induction l as [|x l IH]; cbn [Np.unique foldr]; [done|].
  fold (Np.unique l). by rewrite elem_of_insert_unique, elem_of_cons, IH.
Qed.

Lemma delete_from_filter {A} (keep : A → bool) (a : list A) (inds : list nat) (i : nat) :
  (∀ j x, a !! j = Some x → Np.contains (i + j) inds = negb (keep x)) →
  delete_from i a inds = filter (λ x, keep x = true) a.
Proof.
  revert i. induction a as [|x a IH]; intros i H; [done|].
  cbn [delete_from]. pose proof (H 0 x eq_refl) as H0. rewrite Nat.add_0_r in H0.
  assert (Hrest : delete_from (S i) a inds = filter (λ x, keep x = true) a).
  { apply IH. intros j y Hy. rewrite <- (H (S j) y Hy). f_equal. lia. }
  rewrite H0, Hrest. destruct (keep x) eqn:E; cbn [negb].
  - by rewrite filter_cons_True.
  - rewrite filter_cons_False; [done|]. by rewrite E.
Qed.

(** The rows that [np.delete] leaves are the admissible edges, in order. *)
Lemma admissible_edges_filtered (edges : list edge)
    (inadmissible_contact_set inadmissible_along_set : list nat) :
  delete edges
    (Np.unique (Np.where_true (map (touches inadmissible_contact_set) edges)
                ++ Np.where_true (map (inside inadmissible_along_set) edges)))
  = filtered edges inadmissible_contact_set inadmissible_along_set.
Proof.
  unfold delete, filtered. apply delete_from_filter. intros j e He. cbn [Nat.add].
  unfold admissible. rewrite negb_andb, !negb_involutive.
  apply eq_true_iff_eq. rewrite Np.np_contains_elem_of, elem_of_unique, elem_of_app.
  rewrite !Np.where_true_elem, !list_lookup_fmap, He. cbn.
  rewrite orb_true_iff. split; intros [H|H]; (left + right); congruence.
Qed.

Lemma mapM_Ok_map {A B} (f : A → result B) (g : A → B) (l : list A) :
  Forall (λ x, f x = Ok (g x)) l → mapM f l = Ok (map g l).
Proof.
  induction 1 as [|x l Hx _ IH]; [done|]. cbn [mapM map]. by rewrite Hx, IH.
Qed.

Lemma argmin_step_infinity (l : list (nat * float)) :
  Forall (λ x, x.2 = infinity) l → foldl argmin_step (0, infinity) l = (0, infinity).
Proof.
  induction 1 as [|[i x] l Hx _ IH]; [done|]. cbn in Hx. subst x. cbn [foldl].
  by replace (argmin_step (0, infinity) (i, infinity)) with (0, infinity) by reflexivity.
Qed.

Lemma argmin_all_infinity (a : list float) :
  a ≠ [] → Forall (λ x, x = infinity) a → argmin a = Ok 0.
Proof.
  intros Hne Hall. destruct a as [|x rest]; [done|].
  apply Forall_cons in Hall as [-> Hall]. unfold argmin.
  rewrite argmin_step_infinity; [done|].
  apply Forall_forall. intros [i y] Hin. apply elem_of_zip_r in Hin. cbn in *.
  rewrite Forall_forall in Hall. by apply Hall.
Qed.

(** *** The search *)

Lemma joined_sym (edges : list edge) (u v : nat) : joined edges u v → joined edges v u.
Proof. unfold joined. tauto. Qed.

Lemma relax_invariant (g : graph) (source u v : nat) (w : float) (st : search) :
  joined (es g) u v →
  search_invariant g source st → search_invariant g source (relax u v w st).
Proof.
  intros Huv (Hld & Hlp & Hd & Hp). unfold relax.
  destruct (dist st !! u) as [du|] eqn:Eu; [|done].
  destruct (dist st !! v) as [dv|] eqn:Ev; [|done].
  destruct (du + w <? dv)%float eqn:E; [|done].
  assert (Hu : rtc (joined (es g)) source u).
  { destruct (Hd u du Eu) as [->|H]; [|done]. by rewrite F64.ltb_infinity_add in E. }
  split_and!; cbn [dist parent].
  - by rewrite length_insert.
  - by rewrite length_insert.
  - intros x d Hx. destruct (decide (x = v)) as [->|Hne].
    + right. eapply rtc_r; [exact Hu|done].
    + rewrite list_lookup_insert_ne in Hx by done. by apply Hd.
  - intros x y Hx. destruct (decide (x = v)) as [->|Hne].
    + rewrite list_lookup_insert_eq in Hx by (rewrite Hlp, <- Hld; by eapply lookup_lt_Some).
      by injection Hx as <-.
    + rewrite list_lookup_insert_ne in Hx by done. by apply Hp.
Qed.

Lemma relax_all_invariant (g : graph) (weights : list float) (source : nat) (st : search) :
  search_invariant g source st → search_invariant g source (relax_all g weights st).
Proof.
  unfold relax_all.
  assert (Hin : Forall (λ ew, ew.1 ∈ es g) (zip (es g) weights)).
  { apply Forall_forall. intros [e w] H. by apply elem_of_zip_l in H. }
  revert st. induction Hin as [|[[a b] w] l Hew _ IH]; intros st Hst; [done|].
  cbn [foldl]. apply IH. unfold relax_edge. cbn [fst snd] in *.
  apply relax_invariant; [by right|]. apply relax_invariant; [by left|done].
Qed.

Lemma start_search_invariant (g : graph) (source : nat) :
  search_invariant g source (start_search g source).
Proof.
  unfold start_search. split_and!; cbn [dist parent].
  - by rewrite length_insert, length_replicate.
  - by rewrite length_replicate.
  - intros v d Hv. destruct (decide (v = source)) as [->|Hne]; [by right|].
    rewrite list_lookup_insert_ne in Hv by done.
    apply lookup_replicate in Hv as [-> _]. by left.
  - intros v u Hv. by apply lookup_replicate in Hv as [? _].
Qed.

Lemma run_search_invariant (g : graph) (weights : list float) (source : nat) :
  search_invariant g source (run_search g weights source).
Proof.
  unfold run_search. generalize (vcount g) at 1. intros n.
  induction n as [|n IH]; cbn [Nat.iter].
  - apply start_search_invariant.
  - by apply relax_all_invariant.
Qed.

Lemma vertex_Ok (g : graph) (v : nat) : v < vcount g → vertex g v = Ok v.
Proof. intros H. unfold vertex. by destruct (Nat.ltb_spec v (vcount g)); [|lia]. Qed.

Lemma vertex_inv (g : graph) (v v' : nat) : vertex g v = Ok v' → v' = v ∧ v < vcount g.
Proof.
  unfold vertex. destruct (Nat.ltb_spec v (vcount g)); [|done]. intros E. by injection E as <-.
Qed.

(** The distance to a vertex that cannot be reached is infinity. *)
Lemma distance_unreachable (g : graph) (weights : list float) (s t : nat) :
  t < vcount g → ¬ rtc (joined (es g)) s t →
  Np.item (dist (run_search g weights s)) t = Ok infinity.
Proof.
  intros Ht Hno. destruct (run_search_invariant g weights s) as (Hld & _ & Hd & _).
  destruct (lookup_lt_is_Some_2 (dist (run_search g weights s)) t) as [d Hdt]; [lia|].
  apply Np.item_Ok. destruct (Hd t d Hdt) as [->|H]; done.
Qed.

(** A path read off the parents is empty, or runs from the source to the
    vertex asked for along edges of the graph. *)
Lemma walk_chain (g : graph) (parents : list (option nat)) (source : nat) :
  (∀ v u, parents !! v = Some (Some u) → joined (es g) u v) →
  ∀ fuel v acc,
    chain (es g) (v :: acc) →
    walk fuel parents source v acc = []
    ∨ ∃ pre, walk fuel parents source v acc = source :: pre ++ acc
             ∧ chain (es g) (source :: pre ++ acc)
             ∧ last (source :: pre) = Some v.
Proof.
  intros Hp. induction fuel as [|fuel IH]; intros v acc Hc; [by left|].
  cbn [walk]. destruct (Nat.eqb_spec v source) as [->|Hne].
  - right. exists []. done.
  - destruct (parents !! v) as [[u|]|] eqn:E; [|by left..].
    destruct (IH u (v :: acc)) as [->|(pre & -> & Hch & Hl)]; [|by left|].
    { split; [by apply Hp|done]. }
    right. exists (pre ++ [v]). rewrite <- !app_assoc. cbn [app].
    split_and!; [done..|]. rewrite app_comm_cons. apply last_snoc.
Qed.

Lemma strip_cut_disconnected : disconnected strip [0] [3] [] [1; 2].
Proof.
  intros u v Hu Hv Hreach.
  apply list_elem_of_singleton in Hu as ->. apply list_elem_of_singleton in Hv as ->.
  assert (Hle : ∀ x y, rtc (joined (filtered strip [] [1; 2])) x y → x ≤ 1 → y ≤ 1).
  { induction 1 as [|x y z Hxy _ IH]; [done|]. intros Hx. apply IH.
    replace (filtered strip [] [1; 2]) with [(0, 1); (2, 3)] in Hxy by reflexivity.
    destruct Hxy as [H|H];
      apply elem_of_cons in H as [H|H]; try (injection H as -> ->; lia);
      apply list_elem_of_singleton in H; injection H as -> ->; lia. }
  specialize (Hle 0 3 Hreach). lia.
Qed.

(** When no path of admissible edges joins the two subsets, the router
    raises nothing: every distance is infinity, [np.argmin] picks the first
    pair, and the search returns the empty path for it.  The subsets are not
    empty and their vertices are vertices of the filtered graph. *)
Theorem router_returns_empty_path_when_disconnected
    (edges : list edge) (edge_lengths : list float)
    (subset_one subset_two inadmissible_contact_set inadmissible_along_set : list nat) :
  subset_one ≠ [] → subset_two ≠ [] →
  Forall (λ v, v < vcount (Graph (filtered edges inadmissible_contact_set
                                    inadmissible_along_set)))
         (subset_one ++ subset_two) →
  disconnected edges subset_one subset_two inadmissible_contact_set
    inadmissible_along_set →
  construct_shortest_path_between_subsets edges edge_lengths subset_one subset_two
    inadmissible_contact_set inadmissible_along_set = Ok [].
Proof.
  intros Hne1 Hne2 Hvalid Hdis. unfold construct_shortest_path_between_subsets.
  rewrite admissible_edges_filtered.
  set (g := Graph (filtered edges inadmissible_contact_set inadmissible_along_set)) in *.
  set (w := delete edge_lengths _).
  apply Forall_app in Hvalid as [Hv1 Hv2]. rewrite Forall_forall in Hv1, Hv2.
  assert (Hd : distances g subset_one subset_two w
               = Ok (map (λ _, map (λ _, infinity) subset_two) subset_one)).
  { unfold distances. apply mapM_Ok_map, Forall_forall. intros s Hs.
    rewrite vertex_Ok by by apply Hv1. cbn [mbind result_bind bind].
    apply mapM_Ok_map, Forall_forall. intros t Ht.
    rewrite vertex_Ok by by apply Hv2. cbn [mbind result_bind bind].
    apply distance_unreachable; [by apply Hv2|]. by apply Hdis. }
  rewrite Hd. cbn [mbind result_bind bind].
  destruct subset_one as [|u0 rest_one]; [done|].
  destruct subset_two as [|v0 rest_two]; [done|].
  rewrite argmin_all_infinity.
  2:{ done. }
  2:{ apply Forall_concat, Forall_forall. intros row Hrow.
      apply list_elem_of_fmap in Hrow as (s & -> & _).
      apply Forall_forall. intros d Hx. by apply list_elem_of_fmap in Hx as (t & -> & _). }
  cbn [mbind result_bind bind]. unfold unravel_index. cbn [fst snd].
  rewrite Nat.Div0.div_0_l, Nat.Div0.mod_0_l.
  cbn [Np.item lookup list_lookup of_option mbind result_bind bind].
  unfold get_shortest_paths.
  assert (Hu0 : u0 < vcount g) by (apply Hv1; left).
  assert (Hv0 : v0 < vcount g) by (apply Hv2; left).
  rewrite !vertex_Ok by done. cbn [mbind result_bind bind]. f_equal.
  assert (Hno : ¬ rtc (joined (es g)) u0 v0) by (apply Hdis; left).
  destruct (vcount g) as [|n] eqn:En; [done|]. cbn [walk].
  destruct (Nat.eqb_spec v0 u0) as [->|_]; [by destruct Hno|].
  destruct (parent (run_search g w u0) !! v0) as [[u|]|] eqn:E; [|done..].
  exfalso. apply Hno.
  destruct (run_search_invariant g w u0) as (_ & _ & _ & Hp).
  destruct (Hp v0 u E) as [Hj Hr]. by eapply rtc_r.
Qed.

Lemma router_returns_empty_path_when_disconnected_witness :
  construct_shortest_path_between_subsets strip [1; 1; 1]%float [0] [3] [] [1; 2] = Ok [].
Proof.
  apply router_returns_empty_path_when_disconnected.
  - done.
  - done.
  - repeat constructor.
  - exact strip_cut_disconnected.
Defined.

(** A path that the router returns starts in the first subset, ends in the
    second, and runs along admissible edges only: no edge of it touches the
    contact set or lies inside the along set. *)
Theorem router_path_runs_along_admissible_edges
    (edges : list edge) (edge_lengths : list float)
    (subset_one subset_two inadmissible_contact_set inadmissible_along_set : list nat)
    (path : list nat) :
  construct_shortest_path_between_subsets edges edge_lengths subset_one subset_two
    inadmissible_contact_set inadmissible_along_set = Ok path →
  path ≠ [] →
  (∃ u, head path = Some u ∧ u ∈ subset_one)
  ∧ (∃ v, last path = Some v ∧ v ∈ subset_two)
  ∧ chain (filtered edges inadmissible_contact_set inadmissible_along_set) path.
Proof.
  unfold construct_shortest_path_between_subsets. rewrite admissible_edges_filtered.
  set (g := Graph (filtered edges inadmissible_contact_set inadmissible_along_set)).
  set (w := delete edge_lengths _).
  intros H Hne.
  apply bind_Ok in H as (d & _ & H). apply bind_Ok in H as (k & _ & H).
  apply bind_Ok in H as (u & Hu & H). apply bind_Ok in H as (v & Hv & H).
  apply Np.item_Ok, list_elem_of_lookup_2 in Hu, Hv.
  unfold get_shortest_paths in H.
  apply bind_Ok in H as (u' & Hu' & H). apply vertex_inv in Hu' as [-> _].
  apply bind_Ok in H as (v' & Hv' & H). apply vertex_inv in Hv' as [-> _].
  injection H as H.
  change (walk (vcount g) (parent (run_search g w u)) u v [] = path) in H.
  destruct (run_search_invariant g w u) as (_ & _ & _ & Hp).
  destruct (walk_chain g (parent (run_search g w u)) u
              (λ x y Hxy, proj1 (Hp x y Hxy)) (vcount g) v [] I)
    as [E|(pre & E & Hch & Hl)]; [congruence|].
  rewrite app_nil_r in E, Hch. rewrite E in H. subst path.
  split_and!; [by exists u|by exists v|done].
Qed.

Lemma router_path_runs_along_admissible_edges_witness :
  (∃ u, head [1; 0] = Some u ∧ u ∈ [1; 2])
  ∧ (∃ v, last [1; 0] = Some v ∧ v ∈ [0])
  ∧ chain (filtered strip [3] []) [1; 0].
Proof.
  apply (router_path_runs_along_admissible_edges strip [1; 1; 1]%float
           [1; 2] [0] [3] [] [1; 0]).
  - vm_compute. reflexivity.
  - done.
Defined.

End Router.

(** ** The arrays prepared for the flood fill: [extract_region_from_boundary]

    [construction_base.py], lines 127-135: the face adjacency of the mesh,
    listed in both directions and grouped by face, and the edges of the
    boundary loop.  [tm_mesh.face_adjacency] and the loop are inputs. *)

Module Adjacency.

(** [np.flip(face_adjacency, axis=1)] on one row of [tm_mesh.face_adjacency],
    two faces that share an edge. *)
Definition flip (r : nat * nat) : nat * nat := (r.2, r.1).

(** [np.vstack([face_adjacency, face_adjacency_flipped])]. *)
Definition face_adjacency_complete (face_adjacency : list (nat * nat)) : list (nat * nat) :=
  face_adjacency ++ map flip face_adjacency.

(** [a[mask]] for an index array. *)
Definition take_rows {A} (a : list A) (mask : list nat) : result (list A) :=
  mapM (Np.item a) mask.

(** The position of the first occurrence of [u] in [a]. *)
Definition first_occurrence (a : list nat) (u : nat) : nat :=
  match list_find (λ x, x = u) a with
  | Some (i, _) => i
  | None => 0
  end.

(** The second result of [np.unique(a, return_index=True)]: for every
    distinct value, in ascending order, the position of its first
    occurrence. *)
Definition unique_index (a : list nat) : list nat :=
  map (first_occurrence a) (Np.unique a).

(** Lines 127-133 of [extract_region_from_boundary]: the adjacency arrays
    handed to the flood fill, [(new_face_start_inds, neighbor_faces)].
    [np.argsort] leaves the order of equal keys to the sorting algorithm;
    the stable order is taken here, and what is stated about the arrays is
    which faces lie in a face's range, not their order. *)
Definition adjacency_arrays (face_adjacency : list (nat * nat)) : result (list nat * list nat) :=
  let face_adjacency_complete := face_adjacency_complete face_adjacency in
  let sorting_mask := Parameterizer.argsort Nat.ltb (map fst face_adjacency_complete) in
  face_adjacency_sorted ← take_rows face_adjacency_complete sorting_mask;
  let new_face_start_inds := unique_index (map fst face_adjacency_sorted) in
  let neighbor_faces := map snd face_adjacency_sorted in
  Ok (new_face_start_inds, neighbor_faces).

(** Lines 134-135: the rows [[b[k], b[k + 1]]] of consecutive loop vertices
    and the closing row [[b[-1], b[0]]]. *)
Definition boundary_edges (boundary_inds : list nat) : result (list (list nat)) :=
  let boundary_edges :=
    zip_with (λ a b, [a; b]) (Stitcher.but_last boundary_inds) (drop 1 boundary_inds) in
  final ← Stitcher.last_item boundary_inds;
  first ← Np.item boundary_inds 0;
  Ok (boundary_edges ++ [[final; first]]).

(** [u] is followed by [v] on the closed loop. *)
Definition follows (boundary_inds : list nat) (u v : nat) : Prop :=
  ∃ k, boundary_inds !! k = Some u
       ∧ boundary_inds !! (S k mod length boundary_inds) = Some v.

(** The rows are in ascending order of their first face. *)
Definition by_first (a b : nat * nat) : Prop := a.1 ≤ b.1.

(** The number of rows whose first face is below [f]. *)
Definition rows_below (f : nat) (rows : list (nat * nat)) : nat :=
  length (filter (λ r, r.1 < f) rows).

(** Two triangles of a strip of three, listed with their neighbours. *)
Definition strip_adjacency : list (nat * nat) := [(0, 1); (1, 2)].

(** *** The sorted rows *)

(** Pairs of a key and its position, in ascending key order. *)
Definition by_key (a b : nat * nat) : Prop := a.1 ≤ b.1.

Lemma insert_by_ascending (x : nat * nat) (l : list (nat * nat)) :
  StronglySorted by_key l → StronglySorted by_key (Parameterizer.insert_by Nat.ltb x l).
Proof.
  induction 1 as [|y l Hs IH Hy]; cbn [Parameterizer.insert_by].
  - repeat constructor.
  - destruct (Nat.ltb_spec x.1 y.1) as [Hlt|Hge].
    + constructor; [by constructor|]. constructor; [unfold by_key; lia|].
      eapply Forall_impl; [exact Hy|]. unfold by_key. intros z. cbn. lia.
    + constructor; [done|]. rewrite Parameterizer.insert_by_perm.
      constructor; [done|exact Hy].
Qed.

Lemma sorted_pairs_ascending (keys : list nat) :
  StronglySorted by_key (Parameterizer.sorted_pairs Nat.ltb keys).
Proof.
  unfold Parameterizer.sorted_pairs.
  generalize (zip keys (seq 0 (length keys))). intros l.
  assert (H : StronglySorted by_key []) by constructor. revert H.
  generalize (@nil (nat * nat)). induction l as [|x l IH]; intros acc Hacc; [done|].
  cbn [foldl]. by apply IH, insert_by_ascending.
Qed.

Lemma StronglySorted_fmap_inv {A B} (R : relation A) (R' : relation B) (f : A → B)
    (l : list A) :
  (∀ x y, R x y → R' (f x) (f y)) → StronglySorted R l → StronglySorted R' (f <$> l).
Proof.
  intros Hf. induction 1 as [|x l _ IH Hx]; [constructor|].
  rewrite fmap_cons. constructor; [done|].
  apply Forall_fmap. eapply Forall_impl; [exact Hx|]. intros y. apply Hf.
Qed.

(** The sorted array exists and holds the rows of the complete adjacency,
    in ascending order of their first face. *)
Lemma take_rows_sorted (rows : list (nat * nat)) :
  ∃ sorted,
    take_rows rows (Parameterizer.argsort Nat.ltb (map fst rows)) = Ok sorted
    ∧ length sorted = length rows
    ∧ StronglySorted by_first sorted
    ∧ ∀ r, r ∈ sorted ↔ r ∈ rows.
Proof.
  set (pairs := Parameterizer.sorted_pairs Nat.ltb (map fst rows)).
  assert (Hent : ∀ p, p ∈ pairs → ∃ r, rows !! p.2 = Some r ∧ r.1 = p.1).
  { intros p Hp. apply Parameterizer.elem_of_sorted_pairs in Hp.
    unfold Parameterizer.entry_of in Hp.
    apply list_lookup_fmap_Some in Hp as (r & Hr & Hk). by exists r. }
  assert (Hrun : ∀ ps, (∀ p, p ∈ ps → ∃ r, rows !! p.2 = Some r ∧ r.1 = p.1) →
            ∃ sorted, take_rows rows ps.*2 = Ok sorted
                      ∧ Forall2 (λ p r, rows !! p.2 = Some r ∧ r.1 = p.1) ps sorted).
  { induction ps as [|p ps IH]; intros Hps; [exists []; split; [reflexivity|constructor]|].
    destruct (Hps p) as (r & Hr & Hk); [left|].
    destruct IH as (sorted & Hs & Hall); [intros q Hq; apply Hps; by right|].
    exists (r :: sorted). split; [|by constructor].
    unfold take_rows in *. rewrite fmap_cons. cbn [mapM].
    assert (Np.item rows p.2 = Ok r) as -> by by apply Np.item_Ok.
    cbn [mbind result_bind bind]. by rewrite Hs. }
  destruct (Hrun pairs Hent) as (sorted & Hs & Hall).
  exists sorted. split; [exact Hs|].
  assert (Hlen : length sorted = length rows).
  { rewrite <- (Forall2_length _ _ _ Hall). unfold pairs.
    rewrite <- (length_fmap snd), <- Parameterizer.argsort_sorted_pairs.
    by rewrite Parameterizer.length_argsort, length_map. }
  split; [done|]. split.
  - pose proof (sorted_pairs_ascending (map fst rows)) as Hasc. fold pairs in Hasc.
    clear Hs Hlen Hent. induction Hall as [|p r ps rs [Hr Hk] Hall IH]; [constructor|].
    apply StronglySorted_inv in Hasc as [Hasc Hp]. constructor; [by apply IH|].
    clear IH Hasc. induction Hall as [|q s qs ss [_ Hq] _ IH]; [constructor|].
    apply Forall_cons in Hp as [Hpq Hp]. constructor; [|by apply IH].
    unfold by_first, by_key in *. lia.
  - intros r. split.
    + intros Hin. apply list_elem_of_lookup in Hin as [j Hj].
      destruct (Forall2_lookup_r _ _ _ _ _ Hall Hj) as (p & _ & Hr & _).
      by eapply list_elem_of_lookup_2.
    + intros Hin. apply list_elem_of_lookup in Hin as [i Hi].
      assert (Hmask : i ∈ pairs.*2).
      { unfold pairs. rewrite <- Parameterizer.argsort_sorted_pairs.
        rewrite Parameterizer.argsort_perm, length_map. apply elem_of_seq.
        apply lookup_lt_Some in Hi. lia. }
      apply list_elem_of_fmap in Hmask as (p & -> & Hp).
      apply list_elem_of_lookup in Hp as [j Hj].
      destruct (Forall2_lookup_l _ _ _ _ _ Hall Hj) as (r' & Hr' & Hrow & _).
      assert (r' = r) as -> by congruence. by eapply list_elem_of_lookup_2.
Qed.

Lemma filter_none {A} (P : A → Prop) `{!∀ x, Decision (P x)} (l : list A) :
  Forall (λ x, ¬ P x) l → filter P l = [].
Proof.
  induction 1 as [|x l Hx _ IH]; [done|]. by rewrite filter_cons_False.
Qed.

(** In rows sorted by their first face, the rows whose first face is below
    [f] are the first [rows_below f] rows. *)
Lemma rows_below_lookup (f : nat) (rows : list (nat * nat)) :
  StronglySorted by_first rows →
  ∀ i r, rows !! i = Some r → (i < rows_below f rows ↔ r.1 < f).
Proof.
  unfold rows_below. induction 1 as [|r0 rows Hs IH Hr0]; intros i r Hi; [done|].
  destruct (decide (r0.1 < f)) as [Hlt|Hge].
  - rewrite filter_cons_True by done. cbn [length].
    destruct i as [|i]; cbn in Hi.
    + injection Hi as <-. split; [done|lia].
    + rewrite <- (IH i r Hi). lia.
  - rewrite filter_cons_False by done.
    assert (Hnone : filter (λ r, r.1 < f) rows = []).
    { apply filter_none. eapply Forall_impl; [exact Hr0|].
      unfold by_first. intros z. cbn. lia. }
    rewrite Hnone. cbn [length].
    assert (f ≤ r.1); [|lia].
    destruct i as [|i]; cbn in Hi; [injection Hi as <-; lia|].
    rewrite Forall_forall in Hr0. specialize (Hr0 r (list_elem_of_lookup_2 _ _ _ Hi)).
    unfold by_first in Hr0. lia.
Qed.

Lemma rows_below_all (f : nat) (rows : list (nat * nat)) :
  Forall (λ r, r.1 < f) rows → rows_below f rows = length rows.
Proof.
  unfold rows_below. induction 1 as [|r rows Hr _ IH]; [done|].
  rewrite filter_cons_True by done. cbn [length]. by rewrite IH.
Qed.

Lemma first_occurrence_sorted (f : nat) (rows : list (nat * nat)) :
  StronglySorted by_first rows → f ∈ map fst rows →
  first_occurrence (map fst rows) f = rows_below f rows.
Proof.
  intros Hs Hin. unfold first_occurrence.
  destruct (list_find (λ x, x = f) (map fst rows)) as [[j x]|] eqn:E.
  - apply list_find_Some in E as (Hj & -> & Hmin).
    rewrite list_lookup_fmap in Hj.
    destruct (rows !! j) as [r|] eqn:Hr; [|done]. cbn in Hj. injection Hj as Hrf.
    subst f.
    pose proof (rows_below_lookup r.1 rows Hs j r Hr) as Hlow.
    destruct (decide (rows_below r.1 rows < j)) as [Hlt|]; [exfalso|lia].
    destruct (lookup_lt_is_Some_2 rows (rows_below r.1 rows)) as [r' Hr'].
    { apply lookup_lt_Some in Hr. lia. }
    apply (Hmin (rows_below r.1 rows) r'.1).
    + by rewrite list_lookup_fmap, Hr'.
    + done.
    + pose proof (rows_below_lookup r.1 rows Hs _ r' Hr') as H1.
      pose proof (rows_below_lookup (S r.1) rows Hs _ r' Hr') as H2.
      pose proof (rows_below_lookup (S r.1) rows Hs j r Hr) as H3. lia.
  - apply list_find_None in E. rewrite Forall_forall in E. by destruct (E f Hin).
Qed.

Lemma insert_unique_sorted (x : nat) (l : list nat) :
  StronglySorted lt l → StronglySorted lt (Np.insert_unique x l).
Proof.
  induction 1 as [|y l Hs IH Hy]; cbn [Np.insert_unique].
  - repeat constructor.
  - destruct (Nat.ltb_spec x y) as [Hlt|Hge].
    + constructor; [by constructor|]. constructor; [done|].
      eapply Forall_impl; [exact Hy|]. intros z. cbn. lia.
    + destruct (Nat.eqb_spec x y) as [->|Hne]; [by constructor|].
      constructor; [done|]. apply Forall_forall. intros z Hz.
      apply Router.elem_of_insert_unique in Hz as [->|Hz]; [lia|].
      rewrite Forall_forall in Hy. by apply Hy.
Qed.

Lemma unique_sorted (l : list nat) : StronglySorted lt (Np.unique l).
Proof.
  induction l as [|x l IH]; [constructor|]. by apply insert_unique_sorted.
Qed.

Lemma seq_sorted (start len : nat) : StronglySorted lt (seq start len).
Proof.
  revert start. induction len as [|len IH]; intros start; [constructor|].
  cbn [seq]. constructor; [done|]. apply Forall_forall. intros z Hz.
  apply elem_of_seq in Hz. lia.
Qed.

Lemma StronglySorted_lt_NoDup (l : list nat) : StronglySorted lt l → NoDup l.
Proof.
  induction 1 as [|x l _ IH Hx]; constructor; [|done].
  intros Hin. rewrite Forall_forall in Hx. specialize (Hx x Hin). lia.
Qed.

(** The distinct values of an array that holds exactly the numbers below
    [n]. *)
Lemma unique_all_below (l : list nat) (n : nat) :
  (∀ f, f ∈ l ↔ f < n) → Np.unique l = seq 0 n.
Proof.
  intros H. apply (StronglySorted_unique_strong lt).
  - intros x y _ _. lia.
  - apply unique_sorted.
  - apply seq_sorted.
  - apply NoDup_Permutation.
    + apply StronglySorted_lt_NoDup, unique_sorted.
    + apply NoDup_seq.
    + intros f. rewrite Router.elem_of_unique, H, elem_of_seq. lia.
Qed.

Lemma elem_of_face_adjacency_complete (face_adjacency : list (nat * nat)) (f g : nat) :
  (f, g) ∈ face_adjacency_complete face_adjacency ↔
  (f, g) ∈ face_adjacency ∨ (g, f) ∈ face_adjacency.
Proof.
  unfold face_adjacency_complete. rewrite elem_of_app, list_elem_of_fmap. split.
  - intros [H|([a b] & E & H)]; [by left|]. injection E as -> ->. by right.
  - intros [H|H]; [by left|]. right. by exists (g, f).
Qed.

(** When the faces that have a neighbour are exactly the faces
    [0 .. number_of_faces - 1], the arrays built for the flood fill hold one
    start position per face and every adjacency in both directions, and the
    fill's reading of them (the entries of [neighbor_faces] from a face's
    start position up to the next face's) yields exactly the faces that
    share an edge with that face. *)
Theorem adjacency_arrays_list_the_neighbours
    (face_adjacency : list (nat * nat)) (number_of_faces : nat) :
  (∀ f, f < number_of_faces ↔
        ∃ g, (f, g) ∈ face_adjacency ∨ (g, f) ∈ face_adjacency) →
  ∃ new_face_start_inds neighbor_faces,
    adjacency_arrays face_adjacency = Ok (new_face_start_inds, neighbor_faces)
    ∧ length new_face_start_inds = number_of_faces
    ∧ length neighbor_faces = 2 * length face_adjacency
    ∧ ∀ f g, Region.adjacent new_face_start_inds neighbor_faces f g ↔
             (f, g) ∈ face_adjacency ∨ (g, f) ∈ face_adjacency.
Proof.
  intros Hfaces. unfold adjacency_arrays.
  set (complete := face_adjacency_complete face_adjacency).
  destruct (take_rows_sorted complete) as (sorted & -> & Hlen & Hs & Hin).
  cbn [mbind result_bind bind].
  set (starts := unique_index (map fst sorted)). set (neighbors := map snd sorted).
  assert (Hrow : ∀ f g, (f, g) ∈ sorted ↔
                        (f, g) ∈ face_adjacency ∨ (g, f) ∈ face_adjacency).
  { intros f g. rewrite Hin. apply elem_of_face_adjacency_complete. }
  assert (Hfirst : ∀ f, f ∈ map fst sorted ↔ f < number_of_faces).
  { intros f. rewrite Hfaces. rewrite list_elem_of_fmap. split.
    - intros ([f' g] & -> & H). exists g. by apply Hrow.
    - intros [g H]. exists (f, g). split; [done|]. by apply Hrow. }
  assert (Hstarts : starts = map (λ f, rows_below f sorted) (seq 0 number_of_faces)).
  { unfold starts, unique_index. rewrite (unique_all_below _ _ Hfirst).
    apply map_ext_in. intros f Hf. apply first_occurrence_sorted; [done|].
    apply Hfirst. apply in_seq in Hf. lia. }
  assert (Hstart : ∀ f, f < number_of_faces → starts !! f = Some (rows_below f sorted)).
  { intros f Hf. rewrite Hstarts, list_lookup_fmap, lookup_seq_lt by done. done. }
  assert (Hls : length starts = number_of_faces).
  { by rewrite Hstarts, length_map, length_seq. }
  assert (Hall : rows_below number_of_faces sorted = length sorted).
  { apply rows_below_all, Forall_forall. intros [f g] H. cbn. apply Hfirst.
    apply list_elem_of_fmap. by exists (f, g). }
  assert (Hend : ∀ f end_ind, f < number_of_faces →
            (if f + 1 <? length starts then starts !! (f + 1) = Some end_ind
             else end_ind = length neighbors) ↔
            end_ind = rows_below (f + 1) sorted).
  { intros f end_ind Hf. rewrite Hls. destruct (Nat.ltb_spec (f + 1) number_of_faces).
    - rewrite Hstart by done. split; congruence.
    - replace (f + 1) with number_of_faces by lia.
      unfold neighbors. by rewrite length_map, Hall. }
  exists starts, neighbors. split; [done|]. split; [done|]. split.
  { unfold neighbors, complete, face_adjacency_complete in *.
    rewrite length_map, Hlen, length_app, length_map. lia. }
  intros f g. rewrite <- Hrow. unfold Region.adjacent. split.
  - intros (start_ind & end_ind & i & Hs0 & He & Hi & Hg).
    assert (Hf : f < number_of_faces) by (rewrite <- Hls; by eapply lookup_lt_Some).
    rewrite Hstart in Hs0 by done. injection Hs0 as <-.
    apply Hend in He; [|done]. subst end_ind.
    unfold neighbors in Hg. apply list_lookup_fmap_Some in Hg as ([f' g'] & Hgg & Hr).
    cbn in Hgg. subst g'.
    pose proof (rows_below_lookup f sorted Hs i _ Hr) as H1.
    pose proof (rows_below_lookup (f + 1) sorted Hs i _ Hr) as H2. cbn in H1, H2.
    assert (f' = f) as -> by lia. by eapply list_elem_of_lookup_2.
  - intros Hr. apply list_elem_of_lookup in Hr as [i Hi].
    assert (Hf : f < number_of_faces).
    { apply Hfirst, list_elem_of_fmap. exists (f, g). split; [done|].
      by eapply list_elem_of_lookup_2. }
    exists (rows_below f sorted), (rows_below (f + 1) sorted), i.
    split; [by apply Hstart|]. split; [by apply Hend|].
    pose proof (rows_below_lookup f sorted Hs i _ Hi) as H1.
    pose proof (rows_below_lookup (f + 1) sorted Hs i _ Hi) as H2. cbn in H1, H2.
    split; [lia|]. unfold neighbors. by rewrite list_lookup_fmap, Hi.
Qed.

Lemma adjacency_arrays_list_the_neighbours_witness :
  ∃ new_face_start_inds neighbor_faces,
    adjacency_arrays strip_adjacency = Ok (new_face_start_inds, neighbor_faces)
    ∧ length new_face_start_inds = 3
    ∧ length neighbor_faces = 2 * length strip_adjacency
    ∧ ∀ f g, Region.adjacent new_face_start_inds neighbor_faces f g ↔
             (f, g) ∈ strip_adjacency ∨ (g, f) ∈ strip_adjacency.
Proof.
  apply adjacency_arrays_list_the_neighbours. intros f. split.
  - intros Hf. destruct f as [|[|[|f]]]; [exists 1|exists 2|exists 1|lia];
      unfold strip_adjacency; set_solver.
  - intros [g [H|H]]; unfold strip_adjacency in H;
      apply elem_of_cons in H as [H|H]; try (injection H as -> ->; lia);
      apply list_elem_of_singleton in H; injection H as -> ->; lia.
Defined.

(** With a face that has no neighbour the arrays are shorter than the face
    list: face 2 is isolated, the arrays know two faces only. *)
Lemma adjacency_arrays_skip_isolated_faces :
  adjacency_arrays [(0, 1)] = Ok ([0; 1], [1; 0]).
Proof. vm_compute. reflexivity. Qed.

(** *** The rows of the boundary loop *)

Lemma elem_of_boundary_edges (boundary_inds : list nat) (rows : list (list nat))
    (e : list nat) :
  boundary_edges boundary_inds = Ok rows →
  e ∈ rows ↔ ∃ u v, e = [u; v] ∧ follows boundary_inds u v.
Proof.
  unfold boundary_edges. intros H.
  apply bind_Ok in H as (final & Hfinal & H). apply bind_Ok in H as (first & Hfirst & H).
  injection H as <-. apply Np.item_Ok in Hfirst.
  unfold Stitcher.last_item in Hfinal.
  destruct (last boundary_inds) as [x|] eqn:Hlast; [|done]. cbn in Hfinal.
  injection Hfinal as ->. rewrite last_lookup in Hlast.
  set (n := length boundary_inds) in *.
  assert (Hn : 0 < n) by (apply lookup_lt_Some in Hfirst; done).
  rewrite elem_of_app, list_elem_of_singleton, list_elem_of_lookup. unfold follows. split.
  - intros [[k Hk]| ->].
    + apply lookup_zip_with_Some in Hk as (u & v & -> & Hu & Hv).
      unfold Stitcher.but_last in Hu. apply lookup_take_Some in Hu as [Hu Hlt].
      rewrite lookup_drop in Hv. fold n in Hlt. exists u, v. split; [done|].
      exists k. split; [done|]. rewrite Nat.mod_small by lia.
      by replace (S k) with (1 + k) by lia.
    + exists final, first. split; [done|]. exists (pred n). split; [done|].
      replace (S (pred n)) with n by lia. by rewrite Nat.Div0.mod_same.
  - intros (u & v & -> & k & Hu & Hv).
    pose proof (lookup_lt_Some _ _ _ Hu) as Hk. fold n in Hk.
    destruct (decide (S k < n)) as [Hlt|Hge].
    + left. exists k. rewrite Nat.mod_small in Hv by done.
      apply lookup_zip_with_Some. exists u, v. split; [done|]. split.
      * unfold Stitcher.but_last. apply lookup_take_Some. fold n. split; [done|lia].
      * rewrite lookup_drop. by replace (1 + k) with (S k) by lia.
    + right. assert (S k = n) as Hkn by lia. rewrite Hkn, Nat.Div0.mod_same in Hv.
      assert (k = pred n) as -> by lia. congruence.
Qed.

Lemma is_boundary_from_pair (u v : nat) (rows : list (list nat)) :
  Region.is_boundary_from [u; v] rows = Ok true ↔ ∃ e, e ∈ rows ∧ u ∈ e ∧ v ∈ e.
Proof.
  split.
  - intros H. apply Region.is_boundary_from_true in H as (u' & v' & e & Hu & Hv & He & ?).
    cbn in Hu, Hv. injection Hu as <-. injection Hv as <-. by exists e.
  - intros (e & He & Hu & Hv).
    induction rows as [|e0 rows IH]; [by apply elem_of_nil in He|].
    cbn [Region.is_boundary_from Np.item lookup list_lookup of_option
         mbind result_bind bind].
    destruct (Np.contains u e0) eqn:Eu; [destruct (Np.contains v e0) eqn:Ev; [done|]|];
      (apply elem_of_cons in He as [->|He]; [|by apply IH]).
    + apply Np.np_contains_elem_of in Hv. congruence.
    + apply Np.np_contains_elem_of in Hu. congruence.
Qed.

(** The flood fill treats the edge between two distinct vertices as a
    barrier exactly when the two vertices follow one another on the closed
    boundary loop, in either order. *)
Theorem boundary_edges_are_the_loop_edges
    (boundary_inds : list nat) (rows : list (list nat)) (u v : nat) :
  boundary_edges boundary_inds = Ok rows → u ≠ v →
  Region.is_boundary_from [u; v] rows = Ok true ↔
  follows boundary_inds u v ∨ follows boundary_inds v u.
Proof.
  intros Hrows Hne. rewrite is_boundary_from_pair. split.
  - intros (e & He & Hu & Hv).
    apply (elem_of_boundary_edges _ _ _ Hrows) in He as (a & b & -> & Hab).
    apply elem_of_cons in Hu as [->|Hu]; apply elem_of_cons in Hv as [->|Hv];
      try apply list_elem_of_singleton in Hu as ->;
      try apply list_elem_of_singleton in Hv as ->; try done; [by left|by right].
  - intros [H|H].
    + exists [u; v]. split; [|set_solver].
      apply (elem_of_boundary_edges _ _ _ Hrows). by exists u, v.
    + exists [v; u]. split; [|set_solver].
      apply (elem_of_boundary_edges _ _ _ Hrows). by exists v, u.
Qed.

Lemma boundary_edges_are_the_loop_edges_witness :
  Region.is_boundary_from [4; 9] [[4; 7]; [7; 9]; [9; 4]] = Ok true ↔
  follows [4; 7; 9] 4 9 ∨ follows [4; 7; 9] 9 4.
Proof.
  apply (boundary_edges_are_the_loop_edges [4; 7; 9]); [reflexivity|lia].
Defined.

End Adjacency.
